(** * protozero_to_text: rendering protozero wire bytes as text protos

    A shallow embedding of the C++ unit protozero_to_text.cc (namespace
    perfetto::trace_processor::protozero_to_text), which the source tree
    holds in src/ui/src/controller/search_controller.ts behind the search
    controller, and the properties its specification states about it.

    Conventions of the embedding:
    - [std::string] is [string]; a [char] is an [ascii] (eight bits);
    - [protozero::ConstBytes] is [list byte];
    - fixed-width integers are [Z] with the wrap-around written out;
    - the two mutable buffers of the renderer ([std::string* indents] and
      [std::string* output]) are threaded explicitly as a [RenderContext];
    - [PERFETTO_DCHECK] is a check that exists in debug builds only, so the
      build configuration is an explicit argument wherever a check occurs. *)

From Stdlib Require Import ZArith NArith List Bool Lia QArith Qabs Qpower.
From Stdlib Require Import Strings.String Strings.Ascii Strings.Byte.
From Stdlib Require Import Numbers.DecimalString.
From Stdlib Require Numbers.DecimalPos Numbers.DecimalZ.
Import ListNotations.

Open Scope string_scope.
Open Scope Z_scope.

(** ** Text buffers *)

Module Text.

Lemma append_nil_r (s : string) : s ++ "" = s.
Proof. induction s as [|c s IH]; simpl; [reflexivity | now rewrite IH]. Qed.

Lemma append_assoc (a b c : string) : (a ++ b) ++ c = a ++ (b ++ c).
Proof. induction a as [|x a IH]; simpl; [reflexivity | now rewrite IH]. Qed.

Lemma length_append (a b : string) :
  String.length (a ++ b) = (String.length a + String.length b)%nat.
Proof. induction a as [|x a IH]; simpl; [reflexivity | now rewrite IH]. Qed.

(** [std::string(n, c)] *)
Fixpoint replicate (n : nat) (c : ascii) : string :=
  match n with
  | O => ""
  | S n' => String c (replicate n' c)
  end.

Lemma length_replicate n c : String.length (replicate n c) = n.
Proof. induction n; simpl; congruence. Qed.

(** [s.erase(pos)]: keep the first [pos] characters. *)
Fixpoint take (n : nat) (s : string) : string :=
  match n, s with
  | O, _ => ""
  | S _, "" => ""
  | S n', String c s' => String c (take n' s')
  end.

Lemma take_append (a b : string) : take (String.length a) (a ++ b) = a.
Proof. induction a as [|x a IH]; simpl; [now destruct b | now rewrite IH]. Qed.

Definition is_empty (s : string) : bool :=
  match s with "" => true | _ => false end.

Lemma is_empty_append_r (a b : string) :
  is_empty b = false -> is_empty (a ++ b) = false.
Proof. destruct a; simpl; auto. Qed.

(** The line feed character, written ["\n"] in the source. *)
Definition LF : string := String "010" "".

(** The double quote character. *)
Definition DQUOTE : ascii := "034"%char.

End Text.

(** ** Build configuration

    Two things the source leaves to the build: whether [PERFETTO_DCHECK]
    is compiled in, and whether plain [char] is signed. *)

Record BuildConfig := {
  dcheck_is_on : bool;
  char_is_signed : bool
}.

(** ** The string escaper *)

Module Escaper.
Import Text.

(** A [char] promoted to [int], as in the comparisons with [0x20] and
    [0x7e]. *)
Definition char_to_int (cfg : BuildConfig) (c : ascii) : Z :=
  let u := Z.of_N (N_of_ascii c) in
  if char_is_signed cfg then (if 128 <=? u then u - 256 else u) else u.

(** [static_cast<unsigned char>(c)] *)
Definition to_unsigned_char (c : ascii) : Z := Z.of_N (N_of_ascii c).

(** The digit zero plus [n], stored back into a [char]. *)
Definition digit_char (n : Z) : ascii := ascii_of_N (Z.to_N (48 + n)).

(** The body of the [switch] in [QuoteAndEscapeTextProtoString]:
    the text appended to [ret] for one character. *)
Definition escape_case (cfg : BuildConfig) (c : ascii) : string :=
  if Ascii.eqb c "007" then "\a"
  else if Ascii.eqb c "008" then "\b"
  else if Ascii.eqb c "012" then "\f"
  else if Ascii.eqb c "010" then "\n"
  else if Ascii.eqb c "013" then "\r"
  else if Ascii.eqb c "009" then "\t"
  else if Ascii.eqb c "011" then "\v"
  else if Ascii.eqb c "\" then "\\"
  else if Ascii.eqb c "'" then "\'"
  else if Ascii.eqb c DQUOTE then String "\" (String DQUOTE "")
  else
    if (char_to_int cfg c >=? 32) && (char_to_int cfg c <=? 126)
    then String c ""
    else
      let u := to_unsigned_char c in
      String "\"
        (String (digit_char (Z.land (Z.shiftr u 6) 3))
          (String (digit_char (Z.land (Z.shiftr u 3) 7))
            (String (digit_char (Z.land u 7)) ""))).

(** The [for] loop over [raw], accumulating into [ret]. *)
Fixpoint escape_loop (cfg : BuildConfig) (raw ret : string) : string :=
  match raw with
  | "" => ret
  | String c rest => escape_loop cfg rest (ret ++ escape_case cfg c)
  end.

Definition QuoteAndEscapeTextProtoString (cfg : BuildConfig) (raw : string)
  : string :=
  String DQUOTE (escape_loop cfg raw "" ++ String DQUOTE "").

(** *** The mapping as the specification words it *)

Definition octal_digit (n : N) : ascii := ascii_of_N (48 + n).

Definition spec_escape_byte (c : ascii) : string :=
  let n := N_of_ascii c in
  if (n =? 7)%N then "\a"            (* BEL *)
  else if (n =? 8)%N then "\b"       (* BS *)
  else if (n =? 12)%N then "\f"      (* FF *)
  else if (n =? 10)%N then "\n"      (* LF *)
  else if (n =? 13)%N then "\r"      (* CR *)
  else if (n =? 9)%N then "\t"       (* TAB *)
  else if (n =? 11)%N then "\v"      (* VT *)
  else if (n =? 92)%N then "\\"      (* backslash *)
  else if (n =? 39)%N then "\'"      (* single quote *)
  else if (n =? 34)%N then String "\" (String DQUOTE "")
  else if ((32 <=? n) && (n <=? 126))%N then String c ""
  else
    String "\"
      (String (octal_digit (n / 64))
        (String (octal_digit ((n / 8) mod 8))
          (String (octal_digit (n mod 8)) ""))).

Fixpoint spec_escape_bytes (raw : string) : string :=
  match raw with
  | "" => ""
  | String c rest => spec_escape_byte c ++ spec_escape_bytes rest
  end.

Definition spec_quoted_literal (raw : string) : string :=
  String DQUOTE (spec_escape_bytes raw ++ String DQUOTE "").

(** *** Properties *)

Lemma escape_case_spec cfg c : escape_case cfg c = spec_escape_byte c.
Proof.
  destruct cfg as [d [|]];
    destruct c as [[|] [|] [|] [|] [|] [|] [|] [|]]; reflexivity.
Qed.

Lemma escape_loop_spec cfg raw ret :
  escape_loop cfg raw ret = ret ++ spec_escape_bytes raw.
Proof.
  revert ret. induction raw as [|c rest IH]; intros ret; simpl.
  - now rewrite append_nil_r.
  - now rewrite IH, escape_case_spec, append_assoc.
Qed.

End Escaper.

(** ** Numbers as text *)

Module Fmt.
Import Text.

(** [std::to_string] on an integer: decimal, with a minus sign when
    negative. *)
Definition to_string (z : Z) : string := NilZero.string_of_int (Z.to_int z).

(** The digit characters of [printf]'s lowercase [x] conversion. *)
Definition hex_digit (n : Z) : ascii :=
  if n <? 10 then ascii_of_N (Z.to_N (48 + n))
  else ascii_of_N (Z.to_N (97 + (n - 10))).

(** The low [width] hexadecimal digits of [v], most significant first. *)
Fixpoint hex_digits (width : nat) (v : Z) : string :=
  match width with
  | O => ""
  | S w => hex_digits w (v / 16) ++ String (hex_digit (v mod 16)) ""
  end.

Definition num_hex_digits (v : Z) : nat :=
  if v <=? 0 then 1%nat else Z.to_nat (Z.log2 v / 4 + 1).

(** [printf] with the conversion [%0<width>x]: at least [width] digits,
    padded with zeros on the left. *)
Definition printf_0x (width : nat) (v : Z) : string :=
  hex_digits (Nat.max width (num_hex_digits v)) v.

(** [base::StackString<N>]: the formatted text, cut to fit a buffer of
    [N] characters including the terminator. *)
Definition StackString (N : nat) (formatted : string) : string :=
  take (N - 1) formatted.

(** The low [width] decimal digits of [v], most significant first. *)
Fixpoint dec_digits (width : nat) (v : Z) : string :=
  match width with
  | O => ""
  | S w => dec_digits w (v / 10) ++ String (ascii_of_N (Z.to_N (48 + v mod 10))) ""
  end.

Lemma length_hex_digits w v : String.length (hex_digits w v) = w.
Proof.
  revert v. induction w as [|w IH]; intros v; simpl; [reflexivity|].
  rewrite length_append, IH. simpl. lia.
Qed.

Lemma length_dec_digits w v : String.length (dec_digits w v) = w.
Proof.
  revert v. induction w as [|w IH]; intros v; simpl; [reflexivity|].
  rewrite length_append, IH. simpl. lia.
Qed.

End Fmt.

(** ** IEEE-754 payloads

    Floating-point values are kept exact: a finite number is a sign, a
    non-negative integer significand and a binary exponent. *)

Module Float.
Import Text.

Inductive value :=
| NaN (negative : bool)
| Inf (negative : bool)
| Finite (negative : bool) (m e : Z).   (* m * 2^e *)

(** Reinterpreting the bits of an unsigned integer as a binary
    floating-point number with [ebits] exponent bits and [mbits]
    fraction bits ([memcpy] into a [float] or a [double]). *)
Definition decode (ebits mbits : Z) (bits : Z) : value :=
  let m := bits mod 2 ^ mbits in
  let e := (bits / 2 ^ mbits) mod 2 ^ ebits in
  let s := Z.testbit bits (ebits + mbits) in
  let bias := 2 ^ (ebits - 1) - 1 in
  if e =? 2 ^ ebits - 1 then (if m =? 0 then Inf s else NaN s)
  else if e =? 0 then Finite s m (1 - bias - mbits)
  else Finite s (2 ^ mbits + m) (e - bias - mbits).

Definition binary32 (bits : Z) : value := decode 8 23 bits.
Definition binary64 (bits : Z) : value := decode 11 52 bits.

(** The magnitude [m * 2^e] scaled by [10^6] and rounded to the nearest
    integer, ties to even: the digits [printf] shows for [%f]. *)
Definition round_micro (m e : Z) : Z :=
  if 0 <=? e then m * 2 ^ e * 10 ^ 6
  else
    let d := 2 ^ (- e) in
    let n := m * 10 ^ 6 in
    let q := n / d in
    let r := n mod d in
    if 2 * r <? d then q
    else if d <? 2 * r then q + 1
    else if Z.even q then q else q + 1.

(** [std::to_string] on a [float] or a [double]: the text [printf]
    produces for [%f], six digits after the point. *)
Definition to_string (v : value) : string :=
  match v with
  | NaN s => if s then "-nan" else "nan"
  | Inf s => if s then "-inf" else "inf"
  | Finite s m e =>
      let n := round_micro m e in
      (if s then "-" else "")
        ++ Fmt.to_string (n / 10 ^ 6) ++ "." ++ Fmt.dec_digits 6 (n mod 10 ^ 6)
  end.

(** The exact rational value of a finite number. *)
Definition to_Q (v : value) : Q :=
  match v with
  | Finite s m e =>
      let mag := (inject_Z m * Qpower 2 e)%Q in
      if s then (- mag)%Q else mag
  | _ => 0%Q
  end.

Definition is_finite (v : value) : bool :=
  match v with Finite _ _ _ => true | _ => false end.

End Float.

(** ** Wire records *)

Inductive ProtoWireType := kVarInt | kFixed64 | kLengthDelimited | kFixed32.

(** Modelled from the spec: [protozero::Field], whose class is not part of
    the sources at hand.  One wire record: the field tag, the wire type, the
    integer payload of a varint or fixed-width record and the bytes of a
    length-delimited one, with the typed accessors the renderer calls. *)
Module Field.

Record t := {
  id : Z;                    (* uint32_t *)
  type : ProtoWireType;
  int_value : Z;             (* uint64_t *)
  data : list byte           (* payload of a length-delimited record *)
}.

Definition to_int32 (v : Z) : Z := (v + 2 ^ 31) mod 2 ^ 32 - 2 ^ 31.
Definition to_int64 (v : Z) : Z := (v + 2 ^ 63) mod 2 ^ 64 - 2 ^ 63.

Definition as_uint64 (f : t) : Z := int_value f mod 2 ^ 64.
Definition as_uint32 (f : t) : Z := int_value f mod 2 ^ 32.
Definition as_int64 (f : t) : Z := to_int64 (int_value f).
Definition as_int32 (f : t) : Z := to_int32 (int_value f).

(** Zig-zag decoding: [(u >> 1) ^ -(u & 1)] at the given width. *)
Definition ZigZagDecode (width : Z) (u : Z) : Z :=
  Z.lxor (Z.shiftr u 1) (if Z.odd u then 2 ^ width - 1 else 0).

Definition as_sint32 (f : t) : Z :=
  to_int32 (ZigZagDecode 32 (as_uint32 f)).
Definition as_sint64 (f : t) : Z :=
  to_int64 (ZigZagDecode 64 (as_uint64 f)).

Definition as_bool (f : t) : bool := negb (as_uint64 f =? 0).

Definition as_float (f : t) : Float.value := Float.binary32 (as_uint32 f).
Definition as_double (f : t) : Float.value := Float.binary64 (as_uint64 f).

Definition as_bytes (f : t) : list byte := data f.
Definition as_std_string (f : t) : string := string_of_list_byte (data f).

End Field.

(** ** Descriptors *)

(** Modelled from the spec: the enumeration [FieldDescriptorProto::Type] of
    descriptor.pbzero.h, which is not part of the sources at hand; the
    numbers are those of descriptor.proto, and the renderer only compares
    them. *)
Module FieldDescriptorProto.
Definition TYPE_DOUBLE : Z := 1.
Definition TYPE_FLOAT : Z := 2.
Definition TYPE_INT64 : Z := 3.
Definition TYPE_UINT64 : Z := 4.
Definition TYPE_INT32 : Z := 5.
Definition TYPE_FIXED64 : Z := 6.
Definition TYPE_FIXED32 : Z := 7.
Definition TYPE_BOOL : Z := 8.
Definition TYPE_STRING : Z := 9.
Definition TYPE_GROUP : Z := 10.
Definition TYPE_MESSAGE : Z := 11.
Definition TYPE_BYTES : Z := 12.
Definition TYPE_UINT32 : Z := 13.
Definition TYPE_ENUM : Z := 14.
Definition TYPE_SFIXED32 : Z := 15.
Definition TYPE_SFIXED64 : Z := 16.
Definition TYPE_SINT32 : Z := 17.
Definition TYPE_SINT64 : Z := 18.
End FieldDescriptorProto.

(** Modelled from the spec: [FieldDescriptor], [ProtoDescriptor] and
    [DescriptorPool] of util/descriptors.h, which is not part of the sources
    at hand.  The lookups are kept as functions, so that nothing is assumed
    about how the pool stores its tables. *)
Module FieldDescriptor.
Record t := {
  name : string;
  type : Z;                       (* uint32_t, a FieldDescriptorProto type *)
  is_extension : bool;
  resolved_type_name : string
}.
End FieldDescriptor.

Record ProtoDescriptor := {
  FindFieldByTag : Z -> option FieldDescriptor.t;
  FindEnumString : Z -> option string
}.

Record DescriptorPool := {
  FindDescriptorIdx : string -> option nat;
  descriptors : nat -> ProtoDescriptor
}.

Inductive NewLinesMode := kIncludeNewLines | kSkipNewLines.

Definition NewLinesMode_eqb (a b : NewLinesMode) : bool :=
  match a, b with
  | kIncludeNewLines, kIncludeNewLines => true
  | kSkipNewLines, kSkipNewLines => true
  | _, _ => false
  end.

(** ** Outcomes of a call

    The functions of the source return [void] or a string; what can go wrong
    is a failed [PERFETTO_DCHECK], which aborts the process in a debug build,
    and, where a build without checks carries on, undefined behaviour or an
    exception of the standard library that nothing in the unit catches. *)

Inductive Outcome (A : Type) : Type :=
| Returned (a : A)
| CheckFailed     (* a PERFETTO_DCHECK failed and aborted the call *)
| Undefined       (* the C++ standard gives the execution no meaning *)
| OutOfRange      (* [std::out_of_range] is thrown and leaves the call *)
| OutOfFuel.      (* the recursion budget of the model ran out *)
Arguments Returned {A} a.
Arguments CheckFailed {A}.
Arguments Undefined {A}.
Arguments OutOfRange {A}.
Arguments OutOfFuel {A}.

Definition bind {A B : Type} (m : Outcome A) (k : A -> Outcome B) : Outcome B :=
  match m with
  | Returned a => k a
  | CheckFailed => CheckFailed
  | Undefined => Undefined
  | OutOfRange => OutOfRange
  | OutOfFuel => OutOfFuel
  end.

Notation "x <- m ;; k" := (bind m (fun x => k))
  (at level 61, m at next level, right associativity).

(** [PERFETTO_DCHECK(cond)] *)
Definition PERFETTO_DCHECK (cfg : BuildConfig) (cond : bool) : Outcome unit :=
  if dcheck_is_on cfg then (if cond then Returned tt else CheckFailed)
  else Returned tt.

(** [f] on each element in order, up to the first that does not return;
    used to state what a loop of the renderer produces. *)
Fixpoint MapOutcome {A B : Type} (f : A -> Outcome B) (xs : list A)
  : Outcome (list B) :=
  match xs with
  | [] => Returned []
  | x :: rest => y <- f x ;; ys <- MapOutcome f rest ;; Returned (y :: ys)
  end.

(** ** The wire tokenizer *)

(** Modelled from the spec: [protozero::ProtoDecoder], which is not part of
    the sources at hand.  [ReadFields bytes] is the sequence of valid fields
    that successive calls of [ReadField()] return on a decoder over [bytes],
    in stream order; [bytes_left bytes] is what [bytes_left()] returns once
    [ReadField()] has returned an invalid field.  The payload of a record
    lies inside the span after the record's tag, so it is shorter than the
    span. *)
Class ProtoDecoder := {
  ReadFields : list byte -> list Field.t;
  bytes_left : list byte -> nat;
  ReadFields_data :
    forall bytes f,
      In f (ReadFields bytes) ->
      (List.length (Field.data f) < List.length bytes)%nat
}.

(** ** The renderer *)

Record RenderContext := {
  indents : string;
  output : string
}.

Module Renderer.
Import Text Escaper FieldDescriptorProto.

Definition IncreaseIndents (out : string) : string := out ++ "  ".

Definition DecreaseIndents (cfg : BuildConfig) (out : string)
  : Outcome string :=
  _ <- PERFETTO_DCHECK cfg (2 <=? String.length out)%nat ;;
  (* [out->erase(out->size() - 2)]: the position is a [size_t] and wraps
     around when the string is shorter; [erase] throws [std::out_of_range]
     for a position past the end *)
  if (2 <=? String.length out)%nat
  then Returned (take (String.length out - 2) out)
  else OutOfRange.

Definition FormattedFieldDescriptorName (field_descriptor : FieldDescriptor.t)
  : string :=
  if FieldDescriptor.is_extension field_descriptor
  then "[perfetto.protos." ++ FieldDescriptor.name field_descriptor ++ "]"
  else FieldDescriptor.name field_descriptor.

(** The value of a [bool] as [PrintVarIntField] prints it. *)
Definition bool_text (b : bool) : string := if b then "true" else "false".

(** In the three scalar printers [fd] is a pointer that may be null; the
    [switch] is on [fd ? fd->type() : 0], and the cases that use
    [fd->name()] are reached with a descriptor only. *)
Definition PrintVarIntField (fd : option FieldDescriptor.t) (field : Field.t)
    (pool : DescriptorPool) (out : string) : string :=
  let unknown :=
    out ++ Fmt.to_string (Field.id field) ++ ": "
        ++ Fmt.to_string (Field.as_uint64 field) in
  match fd with
  | None => unknown
  | Some d =>
      let type := FieldDescriptor.type d in
      let name := FieldDescriptor.name d in
      if type =? TYPE_INT32 then
        out ++ name ++ ": " ++ Fmt.to_string (Field.as_int32 field)
      else if type =? TYPE_SINT32 then
        out ++ name ++ ": " ++ Fmt.to_string (Field.as_sint32 field)
      else if type =? TYPE_UINT32 then
        out ++ name ++ ": " ++ Fmt.to_string (Field.as_uint32 field)
      else if type =? TYPE_INT64 then
        out ++ name ++ ": " ++ Fmt.to_string (Field.as_int64 field)
      else if type =? TYPE_SINT64 then
        out ++ name ++ ": " ++ Fmt.to_string (Field.as_sint64 field)
      else if type =? TYPE_UINT64 then
        out ++ name ++ ": " ++ Fmt.to_string (Field.as_uint64 field)
      else if type =? TYPE_BOOL then
        out ++ name ++ ": " ++ bool_text (Field.as_bool field)
      else if type =? TYPE_ENUM then
        match FindDescriptorIdx pool (FieldDescriptor.resolved_type_name d) with
        | None => unknown
        | Some enum_descriptor_idx =>
            match FindEnumString (descriptors pool enum_descriptor_idx)
                    (Field.as_int32 field) with
            | None => unknown
            | Some enum_string => out ++ name ++ ": " ++ enum_string
            end
        end
      else unknown
  end.

Definition PrintFixed32Field (fd : option FieldDescriptor.t) (field : Field.t)
    (out : string) : string :=
  let unknown :=
    let padded_hex :=
      Fmt.StackString 12 ("0x" ++ Fmt.printf_0x 8 (Field.as_uint32 field)) in
    out ++ Fmt.to_string (Field.id field) ++ ": " ++ padded_hex in
  match fd with
  | None => unknown
  | Some d =>
      let type := FieldDescriptor.type d in
      let name := FieldDescriptor.name d in
      if type =? TYPE_SFIXED32 then
        out ++ name ++ ": " ++ Fmt.to_string (Field.as_int32 field)
      else if type =? TYPE_FIXED32 then
        out ++ name ++ ": " ++ Fmt.to_string (Field.as_uint32 field)
      else if type =? TYPE_FLOAT then
        out ++ name ++ ": " ++ Float.to_string (Field.as_float field)
      else unknown
  end.

Definition PrintFixed64Field (fd : option FieldDescriptor.t) (field : Field.t)
    (out : string) : string :=
  let unknown :=
    let padded_hex :=
      Fmt.StackString 20 ("0x" ++ Fmt.printf_0x 16 (Field.as_uint64 field)) in
    out ++ Fmt.to_string (Field.id field) ++ ": " ++ padded_hex in
  match fd with
  | None => unknown
  | Some d =>
      let type := FieldDescriptor.type d in
      let name := FieldDescriptor.name d in
      if type =? TYPE_SFIXED64 then
        out ++ name ++ ": " ++ Fmt.to_string (Field.as_int64 field)
      else if type =? TYPE_FIXED64 then
        out ++ name ++ ": " ++ Fmt.to_string (Field.as_uint64 field)
      else if type =? TYPE_DOUBLE then
        out ++ name ++ ": " ++ Float.to_string (Field.as_double field)
      else unknown
  end.

(** The signature of [ProtozeroToTextInternal], which
    [PrintLengthDelimitedField] calls through its forward declaration. *)
Definition InternalFn : Type :=
  string -> list byte -> NewLinesMode -> DescriptorPool ->
  RenderContext -> Outcome RenderContext.

Definition PrintLengthDelimitedField (ProtozeroToTextInternal : InternalFn)
    (cfg : BuildConfig) (fd : option FieldDescriptor.t) (field : Field.t)
    (new_lines_mode : NewLinesMode) (pool : DescriptorPool)
    (ctx : RenderContext) : Outcome RenderContext :=
  let include_new_lines := NewLinesMode_eqb new_lines_mode kIncludeNewLines in
  let out := output ctx in
  let unknown :=
    let value := QuoteAndEscapeTextProtoString cfg (Field.as_std_string field) in
    Returned {| indents := indents ctx;
                output := out ++ Fmt.to_string (Field.id field) ++ ": " ++ value |} in
  match fd with
  | None => unknown
  | Some d =>
      let type := FieldDescriptor.type d in
      if (type =? TYPE_BYTES) || (type =? TYPE_STRING) then
        let value :=
          QuoteAndEscapeTextProtoString cfg (Field.as_std_string field) in
        Returned {| indents := indents ctx;
                    output := out ++ FieldDescriptor.name d ++ ": " ++ value |}
      else if type =? TYPE_MESSAGE then
        let out1 := out ++ FormattedFieldDescriptorName d ++ ": {" in
        let indents1 :=
          if include_new_lines then IncreaseIndents (indents ctx)
          else indents ctx in
        ctx2 <- ProtozeroToTextInternal
                  (FieldDescriptor.resolved_type_name d) (Field.as_bytes field)
                  new_lines_mode pool
                  {| indents := indents1; output := out1 |} ;;
        if include_new_lines then
          indents3 <- DecreaseIndents cfg (indents ctx2) ;;
          Returned {| indents := indents3;
                      output := output ctx2 ++ LF ++ indents3 ++ "}" |}
        else
          Returned {| indents := indents ctx2; output := output ctx2 ++ " }" |}
      else unknown
  end.

(** The body of the [for] loop of [ProtozeroToTextInternal] comes in two
    parts.  First the separator: what the [if (!output->empty())] at the
    head of the body leaves in [output]. *)
Definition AppendSeparator (new_lines_mode : NewLinesMode)
    (ctx : RenderContext) : string :=
  let include_new_lines := NewLinesMode_eqb new_lines_mode kIncludeNewLines in
  if negb (is_empty (output ctx)) then
    if include_new_lines then output ctx ++ LF ++ indents ctx
    else output ctx ++ " " ++ indents ctx
  else output ctx ++ indents ctx.

(** Then the descriptor lookup and the [switch (field.type())]. *)
Definition DispatchField (ProtozeroToTextInternal : InternalFn)
    (cfg : BuildConfig) (proto_descriptor : ProtoDescriptor)
    (new_lines_mode : NewLinesMode) (pool : DescriptorPool)
    (field : Field.t) (ctx : RenderContext) : Outcome RenderContext :=
  let opt_field_descriptor :=
    FindFieldByTag proto_descriptor (Field.id field) in
  match Field.type field with
  | kVarInt =>
      Returned {| indents := indents ctx;
                  output := PrintVarIntField opt_field_descriptor field pool
                              (output ctx) |}
  | kLengthDelimited =>
      PrintLengthDelimitedField ProtozeroToTextInternal cfg
        opt_field_descriptor field new_lines_mode pool ctx
  | kFixed32 =>
      Returned {| indents := indents ctx;
                  output := PrintFixed32Field opt_field_descriptor field
                              (output ctx) |}
  | kFixed64 =>
      Returned {| indents := indents ctx;
                  output := PrintFixed64Field opt_field_descriptor field
                              (output ctx) |}
  end.

Definition PrintField (ProtozeroToTextInternal : InternalFn)
    (cfg : BuildConfig) (proto_descriptor : ProtoDescriptor)
    (new_lines_mode : NewLinesMode) (pool : DescriptorPool)
    (field : Field.t) (ctx : RenderContext) : Outcome RenderContext :=
  DispatchField ProtozeroToTextInternal cfg proto_descriptor new_lines_mode
    pool field
    {| indents := indents ctx; output := AppendSeparator new_lines_mode ctx |}.

(** The iteration of the loop over the fields the decoder yields. *)
Fixpoint ForEachField (body : Field.t -> RenderContext -> Outcome RenderContext)
    (fields : list Field.t) (ctx : RenderContext) : Outcome RenderContext :=
  match fields with
  | [] => Returned ctx
  | field :: rest => ctx1 <- body field ctx ;; ForEachField body rest ctx1
  end.

Section WithDecoder.
Context {decoder : ProtoDecoder}.

(** [fuel] bounds the depth of the recursion through nested messages. *)
Fixpoint ProtozeroToTextInternal (fuel : nat) (cfg : BuildConfig)
    (type : string) (protobytes : list byte) (new_lines_mode : NewLinesMode)
    (pool : DescriptorPool) (ctx : RenderContext) {struct fuel}
  : Outcome RenderContext :=
  match fuel with
  | O => OutOfFuel
  | S fuel' =>
      let opt_proto_descriptor_idx := FindDescriptorIdx pool type in
      _ <- PERFETTO_DCHECK cfg
             (match opt_proto_descriptor_idx with Some _ => true | None => false end) ;;
      match opt_proto_descriptor_idx with
      | None => Undefined         (* an empty optional is dereferenced *)
      | Some idx =>
          let proto_descriptor := descriptors pool idx in
          ctx1 <- ForEachField
                    (PrintField (ProtozeroToTextInternal fuel' cfg) cfg
                       proto_descriptor new_lines_mode pool)
                    (ReadFields protobytes) ctx ;;
          _ <- PERFETTO_DCHECK cfg (bytes_left protobytes =? 0)%nat ;;
          Returned ctx1
      end
  end.

(** The depth of the indentation is a [uint32_t], and so is its double. *)
Definition initial_indent (initial_indent_depth : Z) : string :=
  replicate (Z.to_nat ((2 * initial_indent_depth) mod 2 ^ 32)) " ".

Definition ProtozeroToText (cfg : BuildConfig) (pool : DescriptorPool)
    (type : string) (protobytes : list byte) (new_lines_mode : NewLinesMode)
    (initial_indent_depth : Z) : Outcome string :=
  let indent := initial_indent initial_indent_depth in
  let final_result := "" in
  ctx <- ProtozeroToTextInternal (S (List.length protobytes)) cfg type
           protobytes new_lines_mode pool
           {| indents := indent; output := final_result |} ;;
  Returned (output ctx).

End WithDecoder.

End Renderer.

(** ** A decoder for the protocol-buffer wire format *)

(** Modelled from the spec: the wire tokenizer ([protozero::ProtoDecoder],
    proto_decoder.cc), which is not part of the sources at hand.  A record is
    a varint tag, whose low three bits are the wire type and whose other bits
    are the field number, followed by a varint, four bytes, eight bytes, or a
    varint length and that many bytes.  A record that cannot be read whole
    ends the sequence and leaves its bytes unread. *)
Module WireFormat.

Definition byte_value (b : byte) : Z := Z.of_N (Byte.to_N b).

(** A base-128 varint, least significant group first, of at most ten
    bytes; the value is kept to 64 bits. *)
Fixpoint ParseVarInt (max_bytes : nat) (shift : Z) (bytes : list byte)
  : option (Z * list byte) :=
  match max_bytes, bytes with
  | S n, b :: rest =>
      let group := Z.shiftl (Z.land (byte_value b) 127) shift in
      if byte_value b <? 128 then Some (group mod 2 ^ 64, rest)
      else
        match ParseVarInt n (shift + 7) rest with
        | Some (high, rest') => Some ((group + high) mod 2 ^ 64, rest')
        | None => None
        end
  | _, _ => None
  end.

(** A little-endian unsigned integer. *)
Fixpoint little_endian (bytes : list byte) : Z :=
  match bytes with
  | [] => 0
  | b :: rest => byte_value b + 256 * little_endian rest
  end.

Definition fixed (width : nat) (bytes : list byte) : option (Z * list byte) :=
  if (width <=? List.length bytes)%nat
  then Some (little_endian (firstn width bytes), skipn width bytes)
  else None.

Definition ParseOneField (bytes : list byte) : option (Field.t * list byte) :=
  match ParseVarInt 10 0 bytes with
  | None => None
  | Some (preamble, pos) =>
      let field_id := Z.shiftr preamble 3 mod 2 ^ 32 in
      let field_type := Z.land preamble 7 in
      if (field_id =? 0) || (List.length pos =? 0)%nat then None
      else if field_type =? 0 then
        match ParseVarInt 10 0 pos with
        | Some (int_value, next) =>
            Some ({| Field.id := field_id; Field.type := kVarInt;
                     Field.int_value := int_value; Field.data := [] |}, next)
        | None => None
        end
      else if field_type =? 2 then
        match ParseVarInt 10 0 pos with
        | Some (payload_length, new_pos) =>
            if Z.of_nat (List.length new_pos) <? payload_length then None
            else
              let size := Z.to_nat payload_length in
              Some ({| Field.id := field_id; Field.type := kLengthDelimited;
                       Field.int_value := 0;
                       Field.data := firstn size new_pos |},
                    skipn size new_pos)
        | None => None
        end
      else if field_type =? 1 then
        match fixed 8 pos with
        | Some (int_value, next) =>
            Some ({| Field.id := field_id; Field.type := kFixed64;
                     Field.int_value := int_value; Field.data := [] |}, next)
        | None => None
        end
      else if field_type =? 5 then
        match fixed 4 pos with
        | Some (int_value, next) =>
            Some ({| Field.id := field_id; Field.type := kFixed32;
                     Field.int_value := int_value; Field.data := [] |}, next)
        | None => None
        end
      else None
  end.

(** Calling [ReadField()] until it returns an invalid field: the fields
    read and the bytes left.  Every record takes at least one byte, so
    [budget] need not exceed the length of the span. *)
Fixpoint ReadAll (budget : nat) (bytes : list byte)
  : list Field.t * list byte :=
  match budget with
  | O => ([], bytes)
  | S n =>
      match ParseOneField bytes with
      | None => ([], bytes)
      | Some (field, rest) =>
          let (fields, left) := ReadAll n rest in (field :: fields, left)
      end
  end.

Lemma ParseVarInt_length n shift bytes v rest :
  ParseVarInt n shift bytes = Some (v, rest) ->
  (List.length rest < List.length bytes)%nat.
Proof.
  revert shift bytes v rest.
  induction n as [|n IH]; intros shift bytes v rest; simpl; [discriminate|].
  destruct bytes as [|b bs]; [discriminate|].
  destruct (byte_value b <? 128).
  - intros H. injection H as _ <-. simpl. lia.
  - destruct (ParseVarInt n (shift + 7) bs) as [[high rest']|] eqn:E;
      [|discriminate].
    intros H. injection H as _ <-. apply IH in E. simpl. lia.
Qed.

Lemma fixed_length w bytes v rest :
  fixed w bytes = Some (v, rest) ->
  (List.length rest <= List.length bytes)%nat.
Proof.
  unfold fixed. destruct (w <=? List.length bytes)%nat; [|discriminate].
  intros H. injection H as _ <-. rewrite length_skipn. lia.
Qed.

Lemma ParseOneField_length bytes field rest :
  ParseOneField bytes = Some (field, rest) ->
  (List.length rest < List.length bytes)%nat /\
  (List.length (Field.data field) < List.length bytes)%nat.
Proof.
  unfold ParseOneField.
  destruct (ParseVarInt 10 0 bytes) as [[preamble pos]|] eqn:Etag;
    [|discriminate].
  apply ParseVarInt_length in Etag.
  destruct ((Z.shiftr preamble 3 mod 2 ^ 32 =? 0) || (List.length pos =? 0)%nat);
    [discriminate|].
  destruct (Z.land preamble 7 =? 0).
  { destruct (ParseVarInt 10 0 pos) as [[v next]|] eqn:E; [|discriminate].
    apply ParseVarInt_length in E.
    intros H. injection H as <- <-. simpl. lia. }
  destruct (Z.land preamble 7 =? 2).
  { destruct (ParseVarInt 10 0 pos) as [[len new_pos]|] eqn:E; [|discriminate].
    apply ParseVarInt_length in E.
    destruct (Z.of_nat (List.length new_pos) <? len); [discriminate|].
    intros H. injection H as <- <-. simpl.
    rewrite length_skipn, length_firstn. lia. }
  destruct (Z.land preamble 7 =? 1).
  { destruct (fixed 8 pos) as [[v next]|] eqn:E; [|discriminate].
    apply fixed_length in E.
    intros H. injection H as <- <-. simpl. lia. }
  destruct (Z.land preamble 7 =? 5); [|discriminate].
  destruct (fixed 4 pos) as [[v next]|] eqn:E; [|discriminate].
  apply fixed_length in E.
  intros H. injection H as <- <-. simpl. lia.
Qed.

Lemma ReadAll_data budget bytes f :
  In f (fst (ReadAll budget bytes)) ->
  (List.length (Field.data f) < List.length bytes)%nat.
Proof.
  revert bytes. induction budget as [|n IH]; intros bytes; simpl; [tauto|].
  destruct (ParseOneField bytes) as [[field rest]|] eqn:E; simpl; [|tauto].
  apply ParseOneField_length in E. destruct E as [Hrest Hdata].
  destruct (ReadAll n rest) as [fields left] eqn:Eall. simpl.
  intros [<-|Hin]; [exact Hdata|].
  specialize (IH rest). rewrite Eall in IH. specialize (IH Hin). lia.
Qed.

(** The budget is never what stops the reading. *)
Lemma ReadAll_budget n m bytes :
  (List.length bytes <= n)%nat -> (List.length bytes <= m)%nat ->
  ReadAll n bytes = ReadAll m bytes.
Proof.
  revert m bytes.
  induction n as [|n IH]; intros [|m] bytes Hn Hm;
    try (destruct bytes; [reflexivity | simpl in *; lia]).
  simpl.
  destruct (ParseOneField bytes) as [[field rest]|] eqn:E; [|reflexivity].
  apply ParseOneField_length in E. destruct E as [Hrest _].
  rewrite (IH m rest) by lia. reflexivity.
Qed.

#[export] Instance decoder : ProtoDecoder := {|
  ReadFields bytes := fst (ReadAll (List.length bytes) bytes);
  bytes_left bytes := List.length (snd (ReadAll (List.length bytes) bytes));
  ReadFields_data bytes := ReadAll_data (List.length bytes) bytes
|}.

End WireFormat.

(** ** A small schema and some wire data

    The schema of the specification's scenarios: a message [Outer] whose
    field 2, [bar], is a message [Inner]; [Inner] has an [int32] field 1,
    [baz], an enum field 3, [color], of type [Color], a [float] field 4 and
    a [double] field 5; [Color] names the value 1 [RED]. *)
Module Examples.
Import FieldDescriptorProto.

Definition debug_build : BuildConfig :=
  {| dcheck_is_on := true; char_is_signed := true |}.
Definition release_build : BuildConfig :=
  {| dcheck_is_on := false; char_is_signed := true |}.

Definition descriptor (name : string) (type : Z) (resolved : string)
  : FieldDescriptor.t :=
  {| FieldDescriptor.name := name; FieldDescriptor.type := type;
     FieldDescriptor.is_extension := false;
     FieldDescriptor.resolved_type_name := resolved |}.

Definition fd_bar := descriptor "bar" TYPE_MESSAGE "Inner".
Definition fd_baz := descriptor "baz" TYPE_INT32 "".
Definition fd_color := descriptor "color" TYPE_ENUM "Color".
Definition fd_ratio := descriptor "ratio" TYPE_FLOAT "".
Definition fd_weight := descriptor "weight" TYPE_DOUBLE "".

Definition Outer : ProtoDescriptor :=
  {| FindFieldByTag tag := if tag =? 2 then Some fd_bar else None;
     FindEnumString _ := None |}.

Definition Inner : ProtoDescriptor :=
  {| FindFieldByTag tag :=
       if tag =? 1 then Some fd_baz
       else if tag =? 3 then Some fd_color
       else if tag =? 4 then Some fd_ratio
       else if tag =? 5 then Some fd_weight
       else None;
     FindEnumString _ := None |}.

Definition Color : ProtoDescriptor :=
  {| FindFieldByTag _ := None;
     FindEnumString value := if value =? 1 then Some "RED" else None |}.

Definition pool : DescriptorPool :=
  {| FindDescriptorIdx name :=
       if String.eqb name "Outer" then Some 0%nat
       else if String.eqb name "Inner" then Some 1%nat
       else if String.eqb name "Color" then Some 2%nat
       else None;
     descriptors idx :=
       match idx with
       | 0%nat => Outer
       | 1%nat => Inner
       | _ => Color
       end |}.

Definition varint (id value : Z) : Field.t :=
  {| Field.id := id; Field.type := kVarInt;
     Field.int_value := value; Field.data := [] |}.
Definition fixed32 (id value : Z) : Field.t :=
  {| Field.id := id; Field.type := kFixed32;
     Field.int_value := value; Field.data := [] |}.
Definition fixed64 (id value : Z) : Field.t :=
  {| Field.id := id; Field.type := kFixed64;
     Field.int_value := value; Field.data := [] |}.

(** [bar { baz: 7 }] as a standard encoder writes it. *)
Definition outer_bytes : list byte := [x12; x02; x08; x07].

(** The same with the length of [bar] declared one byte short. *)
Definition short_bytes : list byte := [x12; x01; x08; x07].

End Examples.

(** ** Spans with bytes left over *)

(** A span has left-over bytes when the decoder stops before its end, or
    when that holds of the payload of one of its fields that the schema
    declares a message, to any depth. *)
Inductive Leftover {decoder : ProtoDecoder} (pool : DescriptorPool)
  : string -> list byte -> Prop :=
| Leftover_here type bytes :
    bytes_left bytes <> 0%nat ->
    Leftover pool type bytes
| Leftover_nested type bytes idx field d :
    FindDescriptorIdx pool type = Some idx ->
    In field (ReadFields bytes) ->
    Field.type field = kLengthDelimited ->
    FindFieldByTag (descriptors pool idx) (Field.id field) = Some d ->
    FieldDescriptor.type d = FieldDescriptorProto.TYPE_MESSAGE ->
    Leftover pool (FieldDescriptor.resolved_type_name d) (Field.as_bytes field) ->
    Leftover pool type bytes.

(** Every message type that the render of the span meets is in the pool:
    the type of the span itself and, to any depth, the type of each field
    that the schema declares a message. *)
Inductive TypesKnown {decoder : ProtoDecoder} (pool : DescriptorPool)
  : string -> list byte -> Prop :=
| TypesKnown_here type bytes idx :
    FindDescriptorIdx pool type = Some idx ->
    (forall field d,
        In field (ReadFields bytes) ->
        Field.type field = kLengthDelimited ->
        FindFieldByTag (descriptors pool idx) (Field.id field) = Some d ->
        FieldDescriptor.type d = FieldDescriptorProto.TYPE_MESSAGE ->
        TypesKnown pool (FieldDescriptor.resolved_type_name d)
          (Field.as_bytes field)) ->
    TypesKnown pool type bytes.

(** An outcome a debug build can have: the call returns, or a check stops
    it. *)
Definition Checked {A : Type} (o : Outcome A) : Prop :=
  o = CheckFailed \/ exists a, o = Returned a.

(** ** Laying out fragments *)

(** Every fragment of [frags] behind the same [prefix]. *)
Definition PrefixEach (prefix : string) (frags : list string) : string :=
  fold_right String.append "" (map (fun frag => prefix ++ frag) frags).

(** ** Reading hexadecimal text *)

Module Hex.

Definition is_lower_hex (c : ascii) : bool :=
  let n := N_of_ascii c in
  ((48 <=? n) && (n <=? 57) || (97 <=? n) && (n <=? 102))%N.

Fixpoint all_chars (p : ascii -> bool) (s : string) : bool :=
  match s with
  | "" => true
  | String c rest => p c && all_chars p rest
  end.

Definition digit_value (c : ascii) : Z :=
  let n := Z.of_N (N_of_ascii c) in
  if n <? 58 then n - 48 else n - 87.

(** The number a text of lowercase hexadecimal digits denotes, on top of
    the digits [acc] read before it. *)
Fixpoint value_from (acc : Z) (s : string) : Z :=
  match s with
  | "" => acc
  | String c rest => value_from (16 * acc + digit_value c) rest
  end.

Definition value (s : string) : Z := value_from 0 s.

(** The digit characters of [printf]'s uppercase [X] conversion, which the
    specification names for unknown fixed-width fields. *)
Definition spec_upper_digit (n : Z) : ascii :=
  if n <? 10 then ascii_of_N (Z.to_N (48 + n))
  else ascii_of_N (Z.to_N (65 + (n - 10))).

Fixpoint spec_upper_digits (width : nat) (v : Z) : string :=
  match width with
  | O => ""
  | S w => spec_upper_digits w (v / 16) ++ String (spec_upper_digit (v mod 16)) ""
  end.

End Hex.

(** A fixed-width field is printed in the unknown-field format when it has
    no descriptor or the declared type is none of the three that its
    printer knows. *)
Definition Unrecognized (known : list Z) (fd : option FieldDescriptor.t)
  : Prop :=
  match fd with
  | None => True
  | Some d => ~ In (FieldDescriptor.type d) known
  end.

(** ** Decimal text and round trips *)

Module DecimalText.

Definition is_digit (c : ascii) : bool :=
  let n := N_of_ascii c in ((48 <=? n) && (n <=? 57))%N.

Definition digit_value (c : ascii) : Z := Z.of_N (N_of_ascii c) - 48.

(** Reads the digits at the head of [s] on top of [acc]: the number read,
    how many digits there were, and the rest of the text. *)
Fixpoint digits_from (acc : Z) (count : nat) (s : string) : Z * nat * string :=
  match s with
  | String c rest =>
      if is_digit c then digits_from (10 * acc + digit_value c) (S count) rest
      else (acc, count, s)
  | "" => (acc, count, s)
  end.

Definition signed (negative : bool) (q : Q) : Q :=
  if negative then (- q)%Q else q.

(** The value of a decimal literal: an optional minus sign, digits, and
    optionally a point and more digits. *)
Definition unsigned_value (body : string) : option Q :=
  match digits_from 0 0 body with
  | (_, O, _) => None
  | (whole, _, "") => Some (inject_Z whole)
  | (whole, _, String "." fraction) =>
      match digits_from whole 0 fraction with
      | (_, O, _) => None
      | (all_digits, places, "") =>
          Some (inject_Z all_digits / inject_Z (10 ^ Z.of_nat places))%Q
      | _ => None
      end
  | _ => None
  end.

Definition value (s : string) : option Q :=
  match s with
  | String "-" body => option_map (signed true) (unsigned_value body)
  | _ => unsigned_value s
  end.

(** [v] is a finite number of the format nearest to [q]. *)
Definition nearest (ebits mbits : Z) (q : Q) (v : Float.value) : Prop :=
  Float.is_finite v = true /\
  forall bits,
    Float.is_finite (Float.decode ebits mbits bits) = true ->
    (Qabs (q - Float.to_Q v)
     <= Qabs (q - Float.to_Q (Float.decode ebits mbits bits)))%Q.

(** Reading the text back gives the number. *)
Definition round_trips (ebits mbits : Z) (s : string) (v : Float.value) : Prop :=
  exists q, value s = Some q /\ nearest ebits mbits q v.

(** The formatting the specification names: the text reads back as the
    number, and no shorter text does. *)
Definition spec_shortest_round_trip (ebits mbits : Z) (s : string)
    (v : Float.value) : Prop :=
  round_trips ebits mbits s v /\
  forall s', round_trips ebits mbits s' v ->
             (String.length s <= String.length s')%nat.

(** The number a text of decimal digits denotes, on top of [acc]. *)
Fixpoint value_from (acc : Z) (s : string) : Z :=
  match s with
  | "" => acc
  | String c rest => value_from (10 * acc + digit_value c) rest
  end.

End DecimalText.

(** ** The calls of a render *)

(** [Entered cfg mode pool fuel type bytes ctx ctx_n]: the call of
    [ProtozeroToTextInternal] on [type], [bytes] and [ctx] is entered with
    [ctx_n], by itself or by one of the calls nested in it.  A nested call
    is made for a field that the schema declares a message, once the fields
    before it have been written, on the context [PrintLengthDelimitedField]
    hands down. *)
Inductive Entered {decoder : ProtoDecoder} (cfg : BuildConfig)
    (mode : NewLinesMode) (pool : DescriptorPool)
  : nat -> string -> list byte -> RenderContext -> RenderContext -> Prop :=
| Entered_here fuel type bytes ctx :
    Entered cfg mode pool fuel type bytes ctx ctx
| Entered_nested fuel type bytes ctx idx before field after ctx_k d ctx_n :
    FindDescriptorIdx pool type = Some idx ->
    ReadFields bytes = (before ++ field :: after)%list ->
    Renderer.ForEachField
      (Renderer.PrintField (Renderer.ProtozeroToTextInternal fuel cfg) cfg
         (descriptors pool idx) mode pool)
      before ctx = Returned ctx_k ->
    Field.type field = kLengthDelimited ->
    FindFieldByTag (descriptors pool idx) (Field.id field) = Some d ->
    FieldDescriptor.type d = FieldDescriptorProto.TYPE_MESSAGE ->
    Entered cfg mode pool fuel
      (FieldDescriptor.resolved_type_name d) (Field.as_bytes field)
      {| indents :=
           if NewLinesMode_eqb mode kIncludeNewLines
           then Renderer.IncreaseIndents (indents ctx_k) else indents ctx_k;
         output :=
           Renderer.AppendSeparator mode ctx_k
             ++ Renderer.FormattedFieldDescriptorName d ++ ": {" |}
      ctx_n ->
    Entered cfg mode pool (S fuel) type bytes ctx ctx_n.

(** * Properties *)

(** ** How the renderer uses its output buffer *)

Module RendererFacts.
Import Text Escaper FieldDescriptorProto Renderer.

(** The same outcome, with [p] in front of the text. *)
Definition prepend (p : string) (r : Outcome RenderContext)
  : Outcome RenderContext :=
  ctx <- r ;; Returned {| indents := indents ctx; output := p ++ output ctx |}.

(** What is put in front of a field: the indentation alone while the
    buffer is empty, a line feed or a space and the indentation after. *)
Definition Separator (new_lines_mode : NewLinesMode) : string :=
  if NewLinesMode_eqb new_lines_mode kIncludeNewLines then LF else " ".

Definition FieldPrefix (new_lines_mode : NewLinesMode) (ind : string)
    (buffer_empty : bool) : string :=
  if buffer_empty then ind else Separator new_lines_mode ++ ind.

(** The fragments of the fields of one message, each behind its prefix. *)
Fixpoint JoinFragments (new_lines_mode : NewLinesMode) (ind : string)
    (buffer_empty : bool) (frags : list string) : string :=
  match frags with
  | [] => ""
  | frag :: rest =>
      FieldPrefix new_lines_mode ind buffer_empty ++ frag
        ++ JoinFragments new_lines_mode ind false rest
  end.

(** A fragment of a field: a label, which is the decimal tag of the field
    or the name of its descriptor (plain, or formatted as an extension), a
    colon and a space, and a value. *)
Definition FragmentOf (proto_descriptor : ProtoDescriptor) (field : Field.t)
    (frag : string) : Prop :=
  exists label value,
    frag = label ++ ": " ++ value /\
    (label = Fmt.to_string (Field.id field) \/
     exists d,
       FindFieldByTag proto_descriptor (Field.id field) = Some d /\
       (label = FieldDescriptor.name d \/
        label = FormattedFieldDescriptorName d)).

(** The text of one field: what the dispatch writes into an empty
    buffer. *)
Definition FieldFragment (rec : InternalFn) (cfg : BuildConfig)
    (proto_descriptor : ProtoDescriptor) (new_lines_mode : NewLinesMode)
    (pool : DescriptorPool) (ind : string) (field : Field.t)
  : Outcome string :=
  ctx <- DispatchField rec cfg proto_descriptor new_lines_mode pool field
           {| indents := ind; output := "" |} ;;
  Returned (output ctx).

(** What the proofs need of the recursive call: text in front of a buffer
    that is not empty stays in front, and the indentation comes back as
    it went in. *)
Definition WellBehaved (rec : InternalFn) : Prop :=
  (forall type bytes mode pool ind out p,
      is_empty out = false ->
      rec type bytes mode pool {| indents := ind; output := p ++ out |}
      = prepend p (rec type bytes mode pool {| indents := ind; output := out |}))
  /\
  (forall type bytes mode pool ctx ctx',
      rec type bytes mode pool ctx = Returned ctx' ->
      indents ctx' = indents ctx).

Lemma label_nonempty (label value : string) :
  is_empty (label ++ ": " ++ value) = false.
Proof. now apply is_empty_append_r. Qed.

Ltac split_ifs :=
  repeat match goal with
    | |- context [if ?c then _ else _] => destruct c
    | |- context [match ?x with Some _ => _ | None => _ end] => destruct x
    end.

Lemma PrintVarIntField_append fd field pool out :
  PrintVarIntField fd field pool out
  = out ++ PrintVarIntField fd field pool "".
Proof. unfold PrintVarIntField. split_ifs; reflexivity. Qed.

Lemma PrintFixed32Field_append fd field out :
  PrintFixed32Field fd field out = out ++ PrintFixed32Field fd field "".
Proof. unfold PrintFixed32Field. split_ifs; reflexivity. Qed.

Lemma PrintFixed64Field_append fd field out :
  PrintFixed64Field fd field out = out ++ PrintFixed64Field fd field "".
Proof. unfold PrintFixed64Field. split_ifs; reflexivity. Qed.

Lemma PrintVarIntField_nonempty fd field pool :
  is_empty (PrintVarIntField fd field pool "") = false.
Proof. unfold PrintVarIntField. split_ifs; apply label_nonempty. Qed.

Lemma PrintFixed32Field_nonempty fd field :
  is_empty (PrintFixed32Field fd field "") = false.
Proof. unfold PrintFixed32Field. split_ifs; apply label_nonempty. Qed.

Lemma PrintFixed64Field_nonempty fd field :
  is_empty (PrintFixed64Field fd field "") = false.
Proof. unfold PrintFixed64Field. split_ifs; apply label_nonempty. Qed.

Lemma DecreaseIndents_IncreaseIndents cfg s :
  DecreaseIndents cfg (IncreaseIndents s) = Returned s.
Proof.
  unfold DecreaseIndents, IncreaseIndents, PERFETTO_DCHECK.
  assert (Hlen : String.length (s ++ "  ") = S (S (String.length s)))
    by (rewrite length_append; simpl; lia).
  rewrite Hlen.
  replace (S (S (String.length s)) - 2)%nat with (String.length s) by lia.
  rewrite take_append.
  destruct (dcheck_is_on cfg); reflexivity.
Qed.

Lemma AppendSeparator_prefix mode ctx :
  AppendSeparator mode ctx
  = output ctx ++ FieldPrefix mode (indents ctx) (is_empty (output ctx)).
Proof.
  unfold AppendSeparator, FieldPrefix, Separator.
  destruct (is_empty (output ctx)), (NewLinesMode_eqb mode kIncludeNewLines);
    reflexivity.
Qed.

Section Recursion.
Variable rec : InternalFn.
Hypothesis rec_ok : WellBehaved rec.
Variables (cfg : BuildConfig) (pd : ProtoDescriptor)
          (mode : NewLinesMode) (pool : DescriptorPool).

Lemma PrintLengthDelimitedField_frame fd field ind out :
  PrintLengthDelimitedField rec cfg fd field mode pool
    {| indents := ind; output := out |}
  = prepend out
      (PrintLengthDelimitedField rec cfg fd field mode pool
         {| indents := ind; output := "" |}).
Proof.
  unfold PrintLengthDelimitedField. cbn [output indents].
  destruct fd as [d|]; [|reflexivity].
  destruct ((FieldDescriptor.type d =? TYPE_BYTES)
            || (FieldDescriptor.type d =? TYPE_STRING)); [reflexivity|].
  destruct (FieldDescriptor.type d =? TYPE_MESSAGE); [|reflexivity].
  destruct rec_ok as [Hframe _].
  rewrite (Hframe _ _ _ _ _ (FormattedFieldDescriptorName d ++ ": {") out)
    by (apply is_empty_append_r; reflexivity).
  cbn [append].
  destruct (rec _ _ _ _ _) as [ctx2| | | |]; cbn; try reflexivity.
  destruct (NewLinesMode_eqb mode kIncludeNewLines); cbn.
  - destruct (DecreaseIndents cfg (indents ctx2)); cbn; try reflexivity.
    now rewrite append_assoc.
  - now rewrite append_assoc.
Qed.

Lemma PrintLengthDelimitedField_indents fd field ctx ctx' :
  PrintLengthDelimitedField rec cfg fd field mode pool ctx = Returned ctx' ->
  indents ctx' = indents ctx.
Proof.
  unfold PrintLengthDelimitedField.
  destruct fd as [d|]; [|now intros [= <-]].
  destruct ((FieldDescriptor.type d =? TYPE_BYTES)
            || (FieldDescriptor.type d =? TYPE_STRING)); [now intros [= <-]|].
  destruct (FieldDescriptor.type d =? TYPE_MESSAGE); [|now intros [= <-]].
  destruct rec_ok as [_ Hind].
  destruct (rec _ _ _ _ _) as [ctx2| | | |] eqn:E; cbn; try discriminate.
  apply Hind in E. cbn in E.
  destruct (NewLinesMode_eqb mode kIncludeNewLines); cbn.
  - rewrite E, DecreaseIndents_IncreaseIndents. cbn. now intros [= <-].
  - now intros [= <-].
Qed.

Lemma DispatchField_frame field ind out :
  DispatchField rec cfg pd mode pool field {| indents := ind; output := out |}
  = prepend out
      (DispatchField rec cfg pd mode pool field
         {| indents := ind; output := "" |}).
Proof.
  unfold DispatchField. destruct (Field.type field); cbn.
  - now rewrite PrintVarIntField_append.
  - now rewrite PrintFixed64Field_append.
  - apply PrintLengthDelimitedField_frame.
  - now rewrite PrintFixed32Field_append.
Qed.

Lemma DispatchField_indents field ctx ctx' :
  DispatchField rec cfg pd mode pool field ctx = Returned ctx' ->
  indents ctx' = indents ctx.
Proof.
  unfold DispatchField. destruct (Field.type field);
    try (now intros [= <-]).
  apply PrintLengthDelimitedField_indents.
Qed.

Lemma DispatchField_fragment field ind out :
  DispatchField rec cfg pd mode pool field {| indents := ind; output := out |}
  = frag <- FieldFragment rec cfg pd mode pool ind field ;;
    Returned {| indents := ind; output := out ++ frag |}.
Proof.
  rewrite DispatchField_frame. unfold prepend, FieldFragment.
  destruct (DispatchField rec cfg pd mode pool field _) as [c| | | |] eqn:E;
    cbn; try reflexivity.
  apply DispatchField_indents in E. cbn in E. now rewrite E.
Qed.

Lemma FieldFragment_nonempty ind field frag :
  FieldFragment rec cfg pd mode pool ind field = Returned frag ->
  is_empty frag = false.
Proof.
  unfold FieldFragment, DispatchField.
  destruct (Field.type field); cbn.
  - intros [= <-]. apply PrintVarIntField_nonempty.
  - intros [= <-]. apply PrintFixed64Field_nonempty.
  - unfold PrintLengthDelimitedField. cbn [output indents].
    destruct (FindFieldByTag pd (Field.id field)) as [d|];
      [|intros [= <-]; apply label_nonempty].
    destruct ((FieldDescriptor.type d =? TYPE_BYTES)
              || (FieldDescriptor.type d =? TYPE_STRING));
      [intros [= <-]; apply label_nonempty|].
    destruct (FieldDescriptor.type d =? TYPE_MESSAGE);
      [|intros [= <-]; apply label_nonempty].
    destruct (rec _ _ _ _ _) as [ctx2| | | |]; cbn; try discriminate.
    destruct (NewLinesMode_eqb mode kIncludeNewLines); cbn.
    + destruct (DecreaseIndents cfg (indents ctx2)); cbn; try discriminate.
      intros [= <-]. apply is_empty_append_r. reflexivity.
    + intros [= <-]. apply is_empty_append_r. reflexivity.
  - intros [= <-]. apply PrintFixed32Field_nonempty.
Qed.

Lemma ForEachField_fragments fields ind out :
  ForEachField (PrintField rec cfg pd mode pool) fields
    {| indents := ind; output := out |}
  = frags <- MapOutcome (FieldFragment rec cfg pd mode pool ind) fields ;;
    Returned {| indents := ind;
                output := out ++ JoinFragments mode ind (is_empty out) frags |}.
Proof.
  revert out. induction fields as [|f rest IH]; intros out; cbn.
  - now rewrite append_nil_r.
  - unfold PrintField at 1. cbn [indents].
    rewrite DispatchField_fragment, AppendSeparator_prefix. cbn [output indents].
    destruct (FieldFragment rec cfg pd mode pool ind f) as [frag| | | |] eqn:E;
      cbn; try reflexivity.
    rewrite IH.
    apply FieldFragment_nonempty in E.
    rewrite (is_empty_append_r _ _ E).
    destruct (MapOutcome _ rest) as [frags| | | |]; cbn; try reflexivity.
    now rewrite !append_assoc.
Qed.

End Recursion.

End RendererFacts.

(** ** The recursion through nested messages *)

Module MessageFacts.
Import Text Escaper FieldDescriptorProto Renderer RendererFacts.

Lemma PERFETTO_DCHECK_cases cfg cond :
  PERFETTO_DCHECK cfg cond = Returned tt \/
  PERFETTO_DCHECK cfg cond = CheckFailed.
Proof.
  unfold PERFETTO_DCHECK. destruct (dcheck_is_on cfg), cond; auto.
Qed.

Ltac dcheck_cases :=
  match goal with
  | |- context [PERFETTO_DCHECK ?cfg ?c] =>
      destruct (PERFETTO_DCHECK_cases cfg c) as [-> | ->]; cbn
  end.

Section WithDecoder.
Context {decoder : ProtoDecoder}.

(** One level of [ProtozeroToTextInternal], in terms of the fragments of
    its fields, when the level below is well behaved. *)
Lemma Internal_step fuel cfg type bytes mode pool ctx :
  WellBehaved (ProtozeroToTextInternal fuel cfg) ->
  ProtozeroToTextInternal (S fuel) cfg type bytes mode pool ctx
  = _ <- PERFETTO_DCHECK cfg
           (match FindDescriptorIdx pool type with
            | Some _ => true | None => false end) ;;
    match FindDescriptorIdx pool type with
    | None => Undefined
    | Some idx =>
        frags <- MapOutcome
                   (FieldFragment (ProtozeroToTextInternal fuel cfg) cfg
                      (descriptors pool idx) mode pool (indents ctx))
                   (ReadFields bytes) ;;
        _ <- PERFETTO_DCHECK cfg (bytes_left bytes =? 0)%nat ;;
        Returned {| indents := indents ctx;
                    output := output ctx
                                ++ JoinFragments mode (indents ctx)
                                     (is_empty (output ctx)) frags |}
    end.
Proof.
  intros Hrec. destruct ctx as [ind out]. cbn [ProtozeroToTextInternal].
  destruct (PERFETTO_DCHECK cfg _); cbn; try reflexivity.
  destruct (FindDescriptorIdx pool type) as [idx|]; [|reflexivity].
  rewrite (ForEachField_fragments _ Hrec).
  destruct (MapOutcome _ _); reflexivity.
Qed.

Lemma Internal_WellBehaved fuel cfg :
  WellBehaved (ProtozeroToTextInternal fuel cfg).
Proof.
  induction fuel as [|fuel IH].
  - split; [reflexivity | discriminate].
  - split.
    + intros type bytes mode pool ind out p Hout.
      rewrite !(Internal_step _ _ _ _ _ _ _ IH). cbn [indents output].
      rewrite (is_empty_append_r p out Hout), Hout.
      destruct (PERFETTO_DCHECK cfg _); cbn; try reflexivity.
      destruct (FindDescriptorIdx pool type) as [idx|]; [|reflexivity].
      destruct (MapOutcome _ _); cbn; try reflexivity.
      destruct (PERFETTO_DCHECK cfg _); cbn; try reflexivity.
      now rewrite append_assoc.
    + intros type bytes mode pool ctx ctx'.
      rewrite (Internal_step _ _ _ _ _ _ _ IH).
      destruct (PERFETTO_DCHECK cfg _); cbn; try discriminate.
      destruct (FindDescriptorIdx pool type) as [idx|]; [|discriminate].
      destruct (MapOutcome _ _); cbn; try discriminate.
      destruct (PERFETTO_DCHECK cfg _); cbn; try discriminate.
      now intros [= <-].
Qed.

(** *** The recursion budget *)

Lemma MapOutcome_budget {A B : Type} (f : A -> Outcome B) (xs : list A) :
  (forall x, In x xs -> f x <> OutOfFuel) ->
  MapOutcome f xs <> OutOfFuel.
Proof.
  induction xs as [|x rest IH]; intros H; cbn; [discriminate|].
  pose proof (H x (or_introl eq_refl)) as Hx.
  destruct (f x); cbn; try discriminate; try (now elim Hx).
  assert (Hrest : MapOutcome f rest <> OutOfFuel)
    by (apply IH; intros y Hy; apply H; now right).
  destruct (MapOutcome f rest); cbn; try discriminate; now elim Hrest.
Qed.

Lemma FieldFragment_budget (rec : InternalFn) cfg pd mode pool ind field :
  (forall type m p ctx,
      rec type (Field.as_bytes field) m p ctx <> OutOfFuel) ->
  FieldFragment rec cfg pd mode pool ind field <> OutOfFuel.
Proof.
  intros Hrec. unfold FieldFragment, DispatchField.
  destruct (Field.type field); cbn; try discriminate.
  unfold PrintLengthDelimitedField. cbn [output indents].
  destruct (FindFieldByTag pd (Field.id field)) as [d|]; [|discriminate].
  destruct ((FieldDescriptor.type d =? TYPE_BYTES)
            || (FieldDescriptor.type d =? TYPE_STRING)); [discriminate|].
  destruct (FieldDescriptor.type d =? TYPE_MESSAGE); [|discriminate].
  match goal with
  | |- context [rec ?t ?b ?m ?p ?c] =>
      pose proof (Hrec t m p c) as H; destruct (rec t b m p c)
  end; cbn; try discriminate; try (now elim H).
  destruct (NewLinesMode_eqb mode kIncludeNewLines); cbn; [|discriminate].
  unfold DecreaseIndents, PERFETTO_DCHECK.
  destruct (dcheck_is_on cfg), (2 <=? String.length (indents a))%nat;
    discriminate.
Qed.

(** A budget above the length of the span is never used up: each
    nested span is shorter than the one it lies in. *)
Lemma Internal_budget fuel cfg type bytes mode pool ctx :
  (List.length bytes < fuel)%nat ->
  ProtozeroToTextInternal fuel cfg type bytes mode pool ctx <> OutOfFuel.
Proof.
  revert type bytes mode pool ctx.
  induction fuel as [|fuel IH]; intros type bytes mode pool ctx Hlen; [lia|].
  rewrite (Internal_step _ _ _ _ _ _ _ (Internal_WellBehaved fuel cfg)).
  dcheck_cases; try discriminate.
  destruct (FindDescriptorIdx pool type) as [idx|]; [|discriminate].
  assert (Hfr : MapOutcome
            (FieldFragment (ProtozeroToTextInternal fuel cfg) cfg
               (descriptors pool idx) mode pool (indents ctx))
            (ReadFields bytes) <> OutOfFuel).
  { apply MapOutcome_budget. intros f Hin.
    apply FieldFragment_budget. intros t m p c.
    apply IH. apply ReadFields_data in Hin. unfold Field.as_bytes. lia. }
  destruct (MapOutcome _ _); cbn; try discriminate; try (now elim Hfr).
  dcheck_cases; discriminate.
Qed.

End WithDecoder.

End MessageFacts.

(** ** The scenarios of the specification, run *)

Module Scenarios.
Import Text Renderer Examples.

#[local] Existing Instance WireFormat.decoder.

Example known_varint :
  ProtozeroToText debug_build pool "Inner" [x08; x96; x01] kIncludeNewLines 0
  = Returned "baz: 150".
Proof. reflexivity. Qed.

Example unknown_varint :
  ProtozeroToText debug_build pool "Color" [x08; x96; x01] kIncludeNewLines 0
  = Returned "1: 150".
Proof. reflexivity. Qed.

Example negative_int32 :
  ProtozeroToText debug_build pool "Inner"
    [x08; xff; xff; xff; xff; xff; xff; xff; xff; xff; x01] kIncludeNewLines 0
  = Returned "baz: -1".
Proof. reflexivity. Qed.

Example nested_multiline :
  ProtozeroToText debug_build pool "Outer" outer_bytes kIncludeNewLines 0
  = Returned ("bar: {" ++ LF ++ "  baz: 7" ++ LF ++ "}").
Proof. reflexivity. Qed.

Example nested_compact :
  ProtozeroToText debug_build pool "Outer" outer_bytes kSkipNewLines 0
  = Returned "bar: { baz: 7 }".
Proof. reflexivity. Qed.

Example unknown_bytes :
  ProtozeroToText debug_build pool "Color" [x1a; x01; x01] kIncludeNewLines 0
  = Returned ("3: " ++ String DQUOTE ("\001" ++ String DQUOTE "")).
Proof. reflexivity. Qed.

Example unknown_fixed :
  ProtozeroToText debug_build pool "Color"
    [x15; x01; xef; xcd; xab;
     x19; x01; x02; x03; x04; x05; x06; x07; x08] kSkipNewLines 0
  = Returned "2: 0xabcdef01 3: 0x0807060504030201".
Proof. reflexivity. Qed.

End Scenarios.

(** * The claims of the specification *)

Import Text Escaper FieldDescriptorProto Renderer RendererFacts MessageFacts.

(** The examples run on the decoder of the wire format. *)
#[local] Existing Instance WireFormat.decoder.

(** ** The string escaper *)

(** C1: for every byte sequence the escaper returns the double-quoted
    literal in which each byte is rendered by the specification's mapping:
    the ten named escapes, printable ASCII verbatim, and a backslash with
    three octal digits (top two bits, middle three, low three) for every
    other byte; the byte 0x01 alone gives the literal with \001 between
    the quotes. *)
Theorem QuoteAndEscapeTextProtoString_mapping :
  (forall cfg raw,
      QuoteAndEscapeTextProtoString cfg raw = spec_quoted_literal raw) /\
  (forall cfg,
      QuoteAndEscapeTextProtoString cfg (String "001" "")
      = String DQUOTE ("\001" ++ String DQUOTE "")).
Proof.
  split.
  - intros cfg raw. unfold QuoteAndEscapeTextProtoString, spec_quoted_literal.
    now rewrite escape_loop_spec.
  - intros [d [|]]; reflexivity.
Qed.

(** ** Enum fields *)

(** C3: a varint field declared ENUM renders as the field's name and the
    symbolic name when the pool knows the enum type and the type names the
    value; when the type is unknown, or it does not name the value, the
    field renders exactly as a varint field without a descriptor does: the
    tag number and the raw unsigned value. *)
Theorem PrintVarIntField_enum (d : FieldDescriptor.t) (field : Field.t)
    (pool : DescriptorPool) (out : string) :
  FieldDescriptor.type d = TYPE_ENUM ->
  let unknown :=
    out ++ Fmt.to_string (Field.id field) ++ ": "
        ++ Fmt.to_string (Field.as_uint64 field) in
  PrintVarIntField None field pool out = unknown /\
  (FindDescriptorIdx pool (FieldDescriptor.resolved_type_name d) = None ->
   PrintVarIntField (Some d) field pool out = unknown) /\
  (forall idx,
      FindDescriptorIdx pool (FieldDescriptor.resolved_type_name d) = Some idx ->
      FindEnumString (descriptors pool idx) (Field.as_int32 field) = None ->
      PrintVarIntField (Some d) field pool out = unknown) /\
  (forall idx enum_string,
      FindDescriptorIdx pool (FieldDescriptor.resolved_type_name d) = Some idx ->
      FindEnumString (descriptors pool idx) (Field.as_int32 field)
      = Some enum_string ->
      PrintVarIntField (Some d) field pool out
      = out ++ FieldDescriptor.name d ++ ": " ++ enum_string).
Proof.
  intros Htype unknown. unfold PrintVarIntField. rewrite Htype. cbn.
  repeat split.
  - intros ->. reflexivity.
  - intros idx -> ->. reflexivity.
  - intros idx enum_string -> ->. reflexivity.
Qed.

Lemma PrintVarIntField_enum_witness :
  PrintVarIntField (Some Examples.fd_color) (Examples.varint 3 1)
    Examples.pool "" = "color: RED" /\
  PrintVarIntField (Some Examples.fd_color) (Examples.varint 3 2)
    Examples.pool "" = "3: 2".
Proof.
  split.
  - exact (proj2 (proj2 (proj2
      (PrintVarIntField_enum Examples.fd_color (Examples.varint 3 1)
         Examples.pool "" eq_refl))) 2%nat "RED" eq_refl eq_refl).
  - exact (proj1 (proj2 (proj2
      (PrintVarIntField_enum Examples.fd_color (Examples.varint 3 2)
         Examples.pool "" eq_refl))) 2%nat eq_refl eq_refl).
Defined.

Lemma to_int32_mod (v w : Z) :
  v mod 2 ^ 32 = w mod 2 ^ 32 -> Field.to_int32 v = Field.to_int32 w.
Proof.
  intros H. unfold Field.to_int32.
  rewrite <- (Z.add_mod_idemp_l v), <- (Z.add_mod_idemp_l w) by lia.
  now rewrite H.
Qed.

Lemma to_int32_range (v : Z) :
  - 2 ^ 31 <= Field.to_int32 v < 2 ^ 31 /\
  Field.to_int32 v mod 2 ^ 32 = v mod 2 ^ 32.
Proof.
  unfold Field.to_int32.
  pose proof (Z.mod_pos_bound (v + 2 ^ 31) (2 ^ 32) ltac:(lia)) as Hb.
  split; [lia|].
  rewrite Zminus_mod, Zmod_mod, <- Zminus_mod.
  f_equal. lia.
Qed.

(** C10: the symbolic name of an ENUM field is looked up under the varint
    truncated to a signed 32-bit integer, so two wire values that agree
    modulo 2^32 get the same name; when the lookup finds no name, the raw
    value printed is the whole unsigned 64-bit varint. *)
Theorem PrintVarIntField_enum_truncation (d : FieldDescriptor.t)
    (f1 f2 : Field.t) (pool : DescriptorPool) (out : string) (idx : nat) :
  FieldDescriptor.type d = TYPE_ENUM ->
  FindDescriptorIdx pool (FieldDescriptor.resolved_type_name d) = Some idx ->
  0 <= Field.int_value f1 < 2 ^ 64 ->
  Field.int_value f1 mod 2 ^ 32 = Field.int_value f2 mod 2 ^ 32 ->
  (- 2 ^ 31 <= Field.as_int32 f1 < 2 ^ 31 /\
   Field.as_int32 f1 mod 2 ^ 32 = Field.int_value f1 mod 2 ^ 32) /\
  Field.as_int32 f1 = Field.as_int32 f2 /\
  (forall enum_string,
      FindEnumString (descriptors pool idx) (Field.as_int32 f1)
      = Some enum_string ->
      PrintVarIntField (Some d) f1 pool out
      = out ++ FieldDescriptor.name d ++ ": " ++ enum_string /\
      PrintVarIntField (Some d) f2 pool out
      = out ++ FieldDescriptor.name d ++ ": " ++ enum_string) /\
  (FindEnumString (descriptors pool idx) (Field.as_int32 f1) = None ->
   PrintVarIntField (Some d) f1 pool out
   = out ++ Fmt.to_string (Field.id f1) ++ ": "
         ++ Fmt.to_string (Field.int_value f1)).
Proof.
  intros Htype Hidx Hrange Hmod.
  assert (Heq : Field.as_int32 f1 = Field.as_int32 f2)
    by (now apply to_int32_mod).
  split; [apply to_int32_range|].
  split; [exact Heq|].
  unfold PrintVarIntField. rewrite Htype, Hidx. cbn.
  split.
  - intros enum_string Hs. rewrite <- Heq, Hs. split; reflexivity.
  - intros ->. unfold Field.as_uint64. now rewrite Z.mod_small.
Qed.

Lemma PrintVarIntField_enum_truncation_witness :
  PrintVarIntField (Some Examples.fd_color) (Examples.varint 3 (2 ^ 32 + 1))
    Examples.pool "" = "color: RED" /\
  PrintVarIntField (Some Examples.fd_color) (Examples.varint 3 (2 ^ 32 + 5))
    Examples.pool "" = "3: 4294967301".
Proof.
  split.
  - assert (Hrange : 0 <= Field.int_value (Examples.varint 3 (2 ^ 32 + 1)) < 2 ^ 64)
      by (cbn; lia).
    pose proof (PrintVarIntField_enum_truncation Examples.fd_color
                  (Examples.varint 3 (2 ^ 32 + 1)) (Examples.varint 3 1)
                  Examples.pool "" 2%nat eq_refl eq_refl Hrange eq_refl) as H.
    exact (proj1 (proj1 (proj2 (proj2 H)) "RED" eq_refl)).
  - assert (Hrange : 0 <= Field.int_value (Examples.varint 3 (2 ^ 32 + 5)) < 2 ^ 64)
      by (cbn; lia).
    pose proof (PrintVarIntField_enum_truncation Examples.fd_color
                  (Examples.varint 3 (2 ^ 32 + 5)) (Examples.varint 3 5)
                  Examples.pool "" 2%nat eq_refl eq_refl Hrange eq_refl) as H.
    exact (proj2 (proj2 (proj2 H)) eq_refl).
Defined.

(** ** Faults *)

Lemma MapOutcome_Checked {A B : Type} (f : A -> Outcome B) (xs : list A) :
  (forall x, In x xs -> Checked (f x)) -> Checked (MapOutcome f xs).
Proof.
  induction xs as [|x rest IH]; intros H; cbn.
  - right. now exists [].
  - destruct (H x (or_introl eq_refl)) as [-> | [y ->]]; cbn; [now left|].
    destruct IH as [-> | [ys ->]]; cbn.
    + intros z Hz. apply H. now right.
    + now left.
    + right. now exists (y :: ys).
Qed.

Lemma MapOutcome_CheckFailed {A B : Type} (f : A -> Outcome B) (xs : list A) x :
  In x xs -> f x = CheckFailed ->
  (forall y, In y xs -> Checked (f y)) ->
  MapOutcome f xs = CheckFailed.
Proof.
  induction xs as [|y rest IH]; intros Hin Hx Hall; [destruct Hin|].
  cbn. destruct Hin as [-> | Hin].
  - now rewrite Hx.
  - destruct (Hall y (or_introl eq_refl)) as [-> | [b ->]]; cbn; [reflexivity|].
    rewrite IH; auto. intros z Hz. apply Hall. now right.
Qed.

Section Faults.
Context {decoder : ProtoDecoder}.
Variables (cfg : BuildConfig) (pool : DescriptorPool) (mode : NewLinesMode).
Hypothesis debug : dcheck_is_on cfg = true.

Lemma FieldFragment_Checked (rec : InternalFn) pd ind field :
  WellBehaved rec ->
  (forall type ctx, Checked (rec type (Field.as_bytes field) mode pool ctx)) ->
  Checked (FieldFragment rec cfg pd mode pool ind field).
Proof.
  intros [_ Hind] Hrec. unfold FieldFragment, DispatchField.
  destruct (Field.type field); cbn; try (right; eexists; reflexivity).
  unfold PrintLengthDelimitedField. cbn [output indents].
  destruct (FindFieldByTag pd (Field.id field)) as [d|];
    [|right; eexists; reflexivity].
  destruct ((FieldDescriptor.type d =? TYPE_BYTES)
            || (FieldDescriptor.type d =? TYPE_STRING));
    [right; eexists; reflexivity|].
  destruct (FieldDescriptor.type d =? TYPE_MESSAGE);
    [|right; eexists; reflexivity].
  match goal with
  | |- context [rec ?t ?b ?m ?p ?c] =>
      destruct (Hrec t c) as [E | [ctx2 E]]; rewrite E; cbn; [now left|];
      apply Hind in E; cbn in E
  end.
  destruct (NewLinesMode_eqb mode kIncludeNewLines); cbn.
  - rewrite E, DecreaseIndents_IncreaseIndents. cbn. right. eexists. reflexivity.
  - right. eexists. reflexivity.
Qed.

Lemma Internal_Checked fuel type bytes ctx :
  (List.length bytes < fuel)%nat ->
  Checked (ProtozeroToTextInternal fuel cfg type bytes mode pool ctx).
Proof.
  revert type bytes ctx.
  induction fuel as [|fuel IH]; intros type bytes ctx Hlen; [lia|].
  rewrite (Internal_step _ _ _ _ _ _ _ (Internal_WellBehaved fuel cfg)).
  unfold PERFETTO_DCHECK. rewrite debug.
  destruct (FindDescriptorIdx pool type) as [idx|]; cbn; [|now left].
  match goal with
  | |- context [MapOutcome ?f ?xs] =>
      assert (H : Checked (MapOutcome f xs))
  end.
  { apply MapOutcome_Checked. intros f Hin.
    apply FieldFragment_Checked; [apply Internal_WellBehaved|].
    intros t c. apply IH. apply ReadFields_data in Hin.
    unfold Field.as_bytes. lia. }
  destruct H as [-> | [frags ->]]; cbn; [now left|].
  destruct (bytes_left bytes =? 0)%nat; cbn; [right; eexists; reflexivity|now left].
Qed.

Lemma Internal_Leftover type bytes :
  Leftover pool type bytes ->
  forall fuel ctx,
    (List.length bytes < fuel)%nat ->
    ProtozeroToTextInternal fuel cfg type bytes mode pool ctx = CheckFailed.
Proof.
  induction 1 as [type bytes Hleft
                 | type bytes idx field d Hidx Hin Htype Hfd Hmsg Hnested IH];
    intros [|fuel] ctx Hlen; try lia;
    rewrite (Internal_step _ _ _ _ _ _ _ (Internal_WellBehaved fuel cfg));
    unfold PERFETTO_DCHECK; rewrite debug.
  - destruct (FindDescriptorIdx pool type) as [idx|]; cbn; [|reflexivity].
    match goal with
    | |- context [MapOutcome ?f ?xs] =>
        assert (H : Checked (MapOutcome f xs))
    end.
    { apply MapOutcome_Checked. intros f Hin.
      apply FieldFragment_Checked; [apply Internal_WellBehaved|].
      intros t c. apply Internal_Checked. apply ReadFields_data in Hin.
      unfold Field.as_bytes. lia. }
    destruct H as [-> | [frags ->]]; cbn; [reflexivity|].
    apply Nat.eqb_neq in Hleft. now rewrite Hleft.
  - rewrite Hidx. cbn.
    rewrite (MapOutcome_CheckFailed _ _ field Hin); [reflexivity| |].
    + unfold FieldFragment, DispatchField. rewrite Htype, Hfd.
      unfold PrintLengthDelimitedField. rewrite Hmsg. cbn.
      rewrite IH; [reflexivity|].
      apply ReadFields_data in Hin. unfold Field.as_bytes. lia.
    + intros f Hf.
      apply FieldFragment_Checked; [apply Internal_WellBehaved|].
      intros t c. apply Internal_Checked. apply ReadFields_data in Hf.
      unfold Field.as_bytes. lia.
Qed.

End Faults.

Lemma MapOutcome_Returned {A B : Type} (f : A -> Outcome B) (xs : list A) :
  (forall x, In x xs -> exists y, f x = Returned y) ->
  exists ys, MapOutcome f xs = Returned ys.
Proof.
  induction xs as [|x rest IH]; intros H; cbn; [now exists []|].
  destruct (H x (or_introl eq_refl)) as [y ->].
  destruct IH as [ys ->]; [intros z Hz; apply H; now right|].
  cbn. now exists (y :: ys).
Qed.

Section Unchecked.
Context {decoder : ProtoDecoder}.
Variables (cfg : BuildConfig) (pool : DescriptorPool) (mode : NewLinesMode).
Hypothesis release : dcheck_is_on cfg = false.

Lemma PERFETTO_DCHECK_off (cond : bool) : PERFETTO_DCHECK cfg cond = Returned tt.
Proof. unfold PERFETTO_DCHECK. now rewrite release. Qed.

Lemma Internal_TypesKnown type bytes :
  TypesKnown pool type bytes ->
  forall fuel ctx,
    (List.length bytes < fuel)%nat ->
    exists ctx',
      ProtozeroToTextInternal fuel cfg type bytes mode pool ctx = Returned ctx'.
Proof.
  induction 1 as [type bytes idx Hidx _ IH].
  intros [|fuel] ctx Hlen; [lia|].
  pose proof (Internal_WellBehaved fuel cfg) as Hwb.
  rewrite (Internal_step _ _ _ _ _ _ _ Hwb).
  rewrite !PERFETTO_DCHECK_off, Hidx. cbn [bind].
  destruct (MapOutcome_Returned
              (FieldFragment (ProtozeroToTextInternal fuel cfg) cfg
                 (descriptors pool idx) mode pool (indents ctx))
              (ReadFields bytes)) as [frags ->]; [|cbn; eauto].
  intros f Hin. unfold FieldFragment, DispatchField.
  destruct (Field.type f) eqn:Htype; cbn [bind output]; eauto.
  unfold PrintLengthDelimitedField. cbn [output indents].
  destruct (FindFieldByTag (descriptors pool idx) (Field.id f)) as [d|] eqn:Hfd;
    [|cbn; eauto].
  destruct ((FieldDescriptor.type d =? TYPE_BYTES)
            || (FieldDescriptor.type d =? TYPE_STRING)); [cbn; eauto|].
  destruct (Z.eqb_spec (FieldDescriptor.type d) TYPE_MESSAGE) as [Hmsg|_];
    [|cbn; eauto].
  assert (Hfuel : (List.length (Field.as_bytes f) < fuel)%nat)
    by (apply ReadFields_data in Hin; unfold Field.as_bytes; lia).
  match goal with
  | |- context [ProtozeroToTextInternal fuel cfg ?t ?b mode pool ?c] =>
      destruct (IH f d Hin Htype Hfd Hmsg fuel c Hfuel) as [ctx2 E];
      rewrite E; apply (proj2 Hwb) in E; cbn [indents] in E
  end.
  cbn [bind]. destruct (NewLinesMode_eqb mode kIncludeNewLines).
  - rewrite E, DecreaseIndents_IncreaseIndents. cbn. eauto.
  - cbn. eauto.
Qed.

End Unchecked.

(** C4, as the code has it: the check that the span was read to its end is
    a [PERFETTO_DCHECK].  In a build with the checks, a render call on a
    span with left-over bytes, at the top or in a nested message, stops on
    the failed check.  In a build without them the bytes left over are not
    looked at: when the pool knows every message type that the render
    meets, the call returns, and the text is that of the records that were
    read, one fragment for each in stream order, whether or not bytes are
    left over. *)
Theorem ProtozeroToText_leftover_bytes (decoder : ProtoDecoder)
    (cfg : BuildConfig) (pool : DescriptorPool) (type : string)
    (bytes : list byte) (mode : NewLinesMode) (depth : Z) :
  (dcheck_is_on cfg = true ->
   Leftover pool type bytes ->
   ProtozeroToText cfg pool type bytes mode depth = CheckFailed) /\
  (dcheck_is_on cfg = false ->
   TypesKnown pool type bytes ->
   exists idx frags,
     FindDescriptorIdx pool type = Some idx /\
     MapOutcome
       (FieldFragment (ProtozeroToTextInternal (List.length bytes) cfg) cfg
          (descriptors pool idx) mode pool (initial_indent depth))
       (ReadFields bytes) = Returned frags /\
     List.length frags = List.length (ReadFields bytes) /\
     ProtozeroToText cfg pool type bytes mode depth
     = Returned (JoinFragments mode (initial_indent depth) true frags)).
Proof.
  split.
  - intros Hdebug Hleft. unfold ProtozeroToText.
    rewrite (Internal_Leftover cfg pool mode Hdebug type bytes Hleft); [reflexivity|lia].
  - intros Hrelease Hknown.
    destruct (Internal_TypesKnown cfg pool mode Hrelease type bytes Hknown
                (S (List.length bytes))
                {| indents := initial_indent depth; output := "" |}
                ltac:(lia)) as [ctx' Hret].
    destruct Hknown as [type bytes idx Hidx _].
    unfold ProtozeroToText. rewrite Hret.
    rewrite (Internal_step _ _ _ _ _ _ _ (Internal_WellBehaved _ cfg)) in Hret.
    rewrite !(PERFETTO_DCHECK_off cfg Hrelease), Hidx in Hret.
    cbn [bind indents output] in Hret.
    destruct (MapOutcome _ _) as [frags| | | |] eqn:Emap; cbn in Hret;
      try discriminate.
    injection Hret as <-. exists idx, frags.
    split; [exact Hidx|]. split; [exact Emap|]. split; [|reflexivity].
    clear - Emap. revert frags Emap.
    induction (ReadFields bytes) as [|f rest IH]; intros frags; cbn.
    + now intros [= <-].
    + destruct (FieldFragment _ _ _ _ _ _ f); cbn; try discriminate.
      destruct (MapOutcome _ rest) as [ys| | | |]; cbn; try discriminate.
      intros [= <-]. cbn. f_equal. now apply IH.
Qed.

Lemma ProtozeroToText_leftover_bytes_witness :
  ProtozeroToText Examples.debug_build Examples.pool "Outer"
    Examples.short_bytes kIncludeNewLines 0 = CheckFailed /\
  ProtozeroToText Examples.debug_build Examples.pool "Outer"
    [x12; x01; x08; x08; x07] kIncludeNewLines 0 = CheckFailed /\
  exists idx frags,
    FindDescriptorIdx Examples.pool "Outer" = Some idx /\
    MapOutcome
      (FieldFragment
         (ProtozeroToTextInternal (List.length Examples.short_bytes)
            Examples.release_build)
         Examples.release_build (descriptors Examples.pool idx)
         kIncludeNewLines Examples.pool (initial_indent 0))
      (ReadFields Examples.short_bytes) = Returned frags /\
    List.length frags = List.length (ReadFields Examples.short_bytes) /\
    ProtozeroToText Examples.release_build Examples.pool "Outer"
      Examples.short_bytes kIncludeNewLines 0
    = Returned (JoinFragments kIncludeNewLines (initial_indent 0) true frags).
Proof.
  split; [|split].
  - apply (proj1 (ProtozeroToText_leftover_bytes WireFormat.decoder
                    Examples.debug_build Examples.pool "Outer"
                    Examples.short_bytes kIncludeNewLines 0)).
    + reflexivity.
    + apply Leftover_here. vm_compute. discriminate.
  - apply (proj1 (ProtozeroToText_leftover_bytes WireFormat.decoder
                    Examples.debug_build Examples.pool "Outer"
                    [x12; x01; x08; x08; x07] kIncludeNewLines 0)).
    + reflexivity.
    + apply (Leftover_nested Examples.pool "Outer" _ 0%nat
               {| Field.id := 2; Field.type := kLengthDelimited;
                  Field.int_value := 0; Field.data := [x08] |}
               Examples.fd_bar); try reflexivity.
      * vm_compute. left. reflexivity.
      * apply Leftover_here. vm_compute. discriminate.
  - apply (proj2 (ProtozeroToText_leftover_bytes WireFormat.decoder
                    Examples.release_build Examples.pool "Outer"
                    Examples.short_bytes kIncludeNewLines 0)).
    + reflexivity.
    + apply (TypesKnown_here Examples.pool "Outer" _ 0%nat); [reflexivity|].
      intros field d Hin _ Hfd _. vm_compute in Hin.
      destruct Hin as [<- | []]. injection Hfd as <-.
      apply (TypesKnown_here Examples.pool "Inner" _ 1%nat); [reflexivity|].
      intros field d Hin. vm_compute in Hin. destruct Hin.
Defined.

(** The claim C4 as it is stated fails in a build without the checks: the
    span whose nested length is declared one byte short is rendered, and
    the text returned is cut short. *)
Lemma ProtozeroToText_leftover_bytes_release :
  bytes_left Examples.short_bytes = 1%nat /\
  ProtozeroToText Examples.release_build Examples.pool "Outer"
    Examples.short_bytes kIncludeNewLines 0
  = Returned ("bar: {" ++ LF ++ "}").
Proof. split; reflexivity. Qed.

(** A pool whose message [M] declares field 1 a message of a type that the
    pool does not hold. *)
Definition dangling_pool : DescriptorPool :=
  {| FindDescriptorIdx name :=
       if String.eqb name "M" then Some 0%nat else None;
     descriptors _ :=
       {| FindFieldByTag tag :=
            if tag =? 1
            then Some (Examples.descriptor "sub" TYPE_MESSAGE "Nope")
            else None;
          FindEnumString _ := None |} |}.

(** Why the types must be known: on a span with a byte left over whose
    nested message is of a type the pool does not hold, a build without
    the checks does not return at all. *)
Example leftover_bytes_under_unknown_nested_type :
  bytes_left [x0a; x02; x08; x07; x07] = 1%nat /\
  ProtozeroToText Examples.release_build dangling_pool "M"
    [x0a; x02; x08; x07; x07] kIncludeNewLines 0 = Undefined.
Proof. split; reflexivity. Qed.

(** C5, as the code has it: the lookup of the top-level type is guarded by
    a [PERFETTO_DCHECK] only.  When the pool does not know the type, a build
    with the checks stops on the failed check, before any text is written;
    a build without them goes on to dereference the empty lookup result,
    which has no defined behaviour. *)
Theorem ProtozeroToText_unknown_type (decoder : ProtoDecoder)
    (cfg : BuildConfig) (pool : DescriptorPool) (type : string)
    (bytes : list byte) (mode : NewLinesMode) (depth : Z) :
  FindDescriptorIdx pool type = None ->
  ProtozeroToText cfg pool type bytes mode depth
  = if dcheck_is_on cfg then CheckFailed else Undefined.
Proof.
  intros Hnone. unfold ProtozeroToText. cbn [ProtozeroToTextInternal].
  unfold PERFETTO_DCHECK. rewrite Hnone.
  destruct (dcheck_is_on cfg); reflexivity.
Qed.

Lemma ProtozeroToText_unknown_type_witness :
  ProtozeroToText Examples.debug_build Examples.pool "Missing"
    Examples.outer_bytes kIncludeNewLines 0 = CheckFailed.
Proof.
  exact (ProtozeroToText_unknown_type WireFormat.decoder Examples.debug_build
           Examples.pool "Missing" Examples.outer_bytes kIncludeNewLines 0
           eq_refl).
Defined.

(** The claim C5 as it is stated fails in a build without the checks: no
    failure is reported for a type the pool does not know. *)
Lemma ProtozeroToText_unknown_type_release :
  FindDescriptorIdx Examples.pool "Missing" = None /\
  ProtozeroToText Examples.release_build Examples.pool "Missing"
    Examples.outer_bytes kIncludeNewLines 0 <> CheckFailed.
Proof. split; [reflexivity | discriminate]. Qed.

(** ** One fragment for each record *)

Lemma MapOutcome_Forall2 {A B : Type} (f : A -> Outcome B) (xs : list A) ys :
  MapOutcome f xs = Returned ys ->
  Forall2 (fun x y => f x = Returned y) xs ys.
Proof.
  revert ys. induction xs as [|x rest IH]; intros ys; cbn.
  - intros [= <-]. constructor.
  - destruct (f x) as [y| | | |] eqn:Ex; cbn; try discriminate.
    destruct (MapOutcome f rest) as [ys'| | | |]; cbn; try discriminate.
    intros [= <-]. constructor; auto.
Qed.

Lemma FragmentOf_tag pd field value :
  FragmentOf pd field (Fmt.to_string (Field.id field) ++ ": " ++ value).
Proof. exists (Fmt.to_string (Field.id field)), value. split; [reflexivity | now left]. Qed.

Lemma FragmentOf_name pd field d value :
  FindFieldByTag pd (Field.id field) = Some d ->
  FragmentOf pd field (FieldDescriptor.name d ++ ": " ++ value).
Proof.
  intros Hfd. exists (FieldDescriptor.name d), value. split; [reflexivity|].
  right. exists d. split; [exact Hfd | now left].
Qed.

Ltac scalar_fragment :=
  split_ifs;
  match goal with
  | |- FragmentOf _ _ (Fmt.to_string _ ++ _) => apply FragmentOf_tag
  | |- FragmentOf _ _ (FieldDescriptor.name _ ++ _) =>
      eapply FragmentOf_name; eassumption
  end.

Lemma PrintVarIntField_label pd field pool :
  FragmentOf pd field
    (PrintVarIntField (FindFieldByTag pd (Field.id field)) field pool "").
Proof.
  unfold PrintVarIntField.
  destruct (FindFieldByTag pd (Field.id field)) as [d|] eqn:Hfd; cbn;
    scalar_fragment.
Qed.

Lemma PrintFixed32Field_label pd field :
  FragmentOf pd field
    (PrintFixed32Field (FindFieldByTag pd (Field.id field)) field "").
Proof.
  unfold PrintFixed32Field.
  destruct (FindFieldByTag pd (Field.id field)) as [d|] eqn:Hfd; cbn;
    scalar_fragment.
Qed.

Lemma PrintFixed64Field_label pd field :
  FragmentOf pd field
    (PrintFixed64Field (FindFieldByTag pd (Field.id field)) field "").
Proof.
  unfold PrintFixed64Field.
  destruct (FindFieldByTag pd (Field.id field)) as [d|] eqn:Hfd; cbn;
    scalar_fragment.
Qed.

Lemma FragmentOf_formatted pd field d value :
  FindFieldByTag pd (Field.id field) = Some d ->
  FragmentOf pd field (FormattedFieldDescriptorName d ++ ": " ++ value).
Proof.
  intros Hfd. exists (FormattedFieldDescriptorName d), value.
  split; [reflexivity|]. right. exists d. split; [exact Hfd | now right].
Qed.

Lemma FieldFragment_label (rec : InternalFn) cfg pd mode pool ind field frag :
  WellBehaved rec ->
  FieldFragment rec cfg pd mode pool ind field = Returned frag ->
  FragmentOf pd field frag.
Proof.
  intros [Hframe _]. unfold FieldFragment, DispatchField.
  destruct (Field.type field); cbn.
  - intros [= <-]. apply PrintVarIntField_label.
  - intros [= <-]. apply PrintFixed64Field_label.
  - unfold PrintLengthDelimitedField. cbn [output indents].
    destruct (FindFieldByTag pd (Field.id field)) as [d|] eqn:Hfd.
    2:{ intros [= <-]. apply FragmentOf_tag. }
    destruct ((FieldDescriptor.type d =? TYPE_BYTES)
              || (FieldDescriptor.type d =? TYPE_STRING)).
    { intros [= <-]. now apply FragmentOf_name. }
    destruct (FieldDescriptor.type d =? TYPE_MESSAGE).
    2:{ intros [= <-]. apply FragmentOf_tag. }
    cbn [append].
    replace (FormattedFieldDescriptorName d ++ ": {")
      with ((FormattedFieldDescriptorName d ++ ": ") ++ "{")
      by (now rewrite append_assoc).
    rewrite Hframe by reflexivity.
    destruct (rec _ _ _ _ _) as [ctx2| | | |]; cbn; try discriminate.
    destruct (NewLinesMode_eqb mode kIncludeNewLines); cbn.
    + destruct (DecreaseIndents cfg (indents ctx2)) as [i3| | | |]; cbn;
        try discriminate.
      intros [= <-]. rewrite !append_assoc. now apply FragmentOf_formatted.
    + intros [= <-]. rewrite !append_assoc. now apply FragmentOf_formatted.
  - intros [= <-]. apply PrintFixed32Field_label.
Qed.

(** C2: one level of the renderer writes, behind what the buffer holds, the
    fragments of the records the decoder yields for the span: one fragment
    for each record and in the order of the records, each fragment a
    [name: value] or [tag: value] text behind its prefix, with none left out,
    merged or moved; a record with a tag seen before gets a fragment of its
    own.  The call returns when each record's fragment is produced and the
    checks pass, and a budget above the length of the span never runs out. *)
Theorem ProtozeroToTextInternal_fragments (decoder : ProtoDecoder)
    (fuel : nat) (cfg : BuildConfig) (type : string) (bytes : list byte)
    (mode : NewLinesMode) (pool : DescriptorPool) (ctx : RenderContext) :
  ProtozeroToTextInternal (S fuel) cfg type bytes mode pool ctx
  = (_ <- PERFETTO_DCHECK cfg
            (match FindDescriptorIdx pool type with
             | Some _ => true | None => false end) ;;
     match FindDescriptorIdx pool type with
     | None => Undefined
     | Some idx =>
         frags <- MapOutcome
                    (FieldFragment (ProtozeroToTextInternal fuel cfg) cfg
                       (descriptors pool idx) mode pool (indents ctx))
                    (ReadFields bytes) ;;
         _ <- PERFETTO_DCHECK cfg (bytes_left bytes =? 0)%nat ;;
         Returned {| indents := indents ctx;
                     output := output ctx
                                 ++ JoinFragments mode (indents ctx)
                                      (is_empty (output ctx)) frags |}
     end) /\
  (forall ctx',
      ProtozeroToTextInternal (S fuel) cfg type bytes mode pool ctx
      = Returned ctx' ->
      exists idx frags,
        FindDescriptorIdx pool type = Some idx /\
        Forall2
          (fun field frag =>
             FieldFragment (ProtozeroToTextInternal fuel cfg) cfg
               (descriptors pool idx) mode pool (indents ctx) field
             = Returned frag /\
             FragmentOf (descriptors pool idx) field frag)
          (ReadFields bytes) frags /\
        output ctx'
        = output ctx
            ++ JoinFragments mode (indents ctx) (is_empty (output ctx)) frags) /\
  ((List.length bytes <= fuel)%nat ->
   ProtozeroToTextInternal (S fuel) cfg type bytes mode pool ctx <> OutOfFuel).
Proof.
  pose proof (Internal_WellBehaved fuel cfg) as Hwb.
  split; [now apply Internal_step|].
  split; [|intros Hlen; apply Internal_budget; lia].
  intros ctx'. rewrite (Internal_step _ _ _ _ _ _ _ Hwb).
  dcheck_cases; try discriminate.
  destruct (FindDescriptorIdx pool type) as [idx|]; [|discriminate].
  destruct (MapOutcome _ _) as [frags| | | |] eqn:Emap; cbn; try discriminate.
  dcheck_cases; try discriminate.
  intros [= <-]. exists idx, frags. split; [reflexivity|].
  split; [|reflexivity].
  apply MapOutcome_Forall2 in Emap.
  induction Emap as [|field frag fields frags' Hfrag _ IH]; constructor; auto.
  split; [exact Hfrag|].
  exact (FieldFragment_label _ _ _ _ _ _ _ _ Hwb Hfrag).
Qed.

Lemma ProtozeroToTextInternal_fragments_witness :
  exists idx frags,
    FindDescriptorIdx Examples.pool "Inner" = Some idx /\
    Forall2
      (fun field frag =>
         FieldFragment (ProtozeroToTextInternal 6 Examples.debug_build)
           Examples.debug_build (descriptors Examples.pool idx)
           kIncludeNewLines Examples.pool "" field
         = Returned frag /\
         FragmentOf (descriptors Examples.pool idx) field frag)
      (ReadFields [x08; x07; x10; x01; x08; x09]) frags /\
    "baz: 7" ++ LF ++ "2: 1" ++ LF ++ "baz: 9"
    = "" ++ JoinFragments kIncludeNewLines "" true frags.
Proof.
  exact (proj1 (proj2
    (ProtozeroToTextInternal_fragments WireFormat.decoder 6
       Examples.debug_build "Inner" [x08; x07; x10; x01; x08; x09]
       kIncludeNewLines Examples.pool {| indents := ""; output := "" |}))
    {| indents := ""; output := "baz: 7" ++ LF ++ "2: 1" ++ LF ++ "baz: 9" |}
    eq_refl).
Defined.

(** ** Separators *)

Lemma JoinFragments_PrefixEach mode ind frags :
  JoinFragments mode ind false frags = PrefixEach (Separator mode ++ ind) frags.
Proof.
  unfold PrefixEach. induction frags as [|frag rest IH]; cbn; [reflexivity|].
  now rewrite IH, !append_assoc.
Qed.

(** The fragment of a field that holds a message, when the message has a
    first field. *)
Lemma FieldFragment_nested_first (decoder : ProtoDecoder) fuel cfg pd mode
    pool ind field d f1 rest frag :
  Field.type field = kLengthDelimited ->
  FindFieldByTag pd (Field.id field) = Some d ->
  FieldDescriptor.type d = TYPE_MESSAGE ->
  ReadFields (Field.as_bytes field) = f1 :: rest ->
  FieldFragment (ProtozeroToTextInternal (S fuel) cfg) cfg pd mode pool ind field
  = Returned frag ->
  let nested_indents :=
    if NewLinesMode_eqb mode kIncludeNewLines then IncreaseIndents ind else ind in
  exists idx frag1 tail,
    FindDescriptorIdx pool (FieldDescriptor.resolved_type_name d) = Some idx /\
    FieldFragment (ProtozeroToTextInternal fuel cfg) cfg (descriptors pool idx)
      mode pool nested_indents f1 = Returned frag1 /\
    frag = FormattedFieldDescriptorName d ++ ": {"
             ++ Separator mode ++ nested_indents ++ frag1 ++ tail.
Proof.
  intros Htype Hfd Hmsg Hfields. unfold FieldFragment at 1, DispatchField.
  rewrite Htype, Hfd. unfold PrintLengthDelimitedField. rewrite Hmsg.
  cbn [orb Z.eqb TYPE_MESSAGE TYPE_BYTES TYPE_STRING Pos.eqb output indents append].
  rewrite (Internal_step _ _ _ _ _ _ _ (Internal_WellBehaved fuel cfg)).
  cbn [output indents].
  dcheck_cases; try discriminate.
  destruct (FindDescriptorIdx pool _) as [idx|]; [|discriminate].
  rewrite Hfields. cbn [MapOutcome].
  destruct (FieldFragment (ProtozeroToTextInternal fuel cfg) cfg _ mode pool _ f1)
    as [frag1| | | |] eqn:E1; cbn; try discriminate.
  destruct (MapOutcome _ rest) as [frags| | | |]; cbn; try discriminate.
  dcheck_cases; try discriminate.
  rewrite (is_empty_append_r _ ": {" eq_refl). unfold FieldPrefix.
  destruct (NewLinesMode_eqb mode kIncludeNewLines) eqn:Emode; cbn.
  - rewrite DecreaseIndents_IncreaseIndents. cbn. intros [= <-].
    exists idx, frag1. eexists. split; [reflexivity|]. split; [exact E1|].
    rewrite !append_assoc. reflexivity.
  - intros [= <-].
    exists idx, frag1. eexists. split; [reflexivity|]. split; [exact E1|].
    rewrite !append_assoc. reflexivity.
Qed.

(** C6, as the code has it: the separator is chosen by whether the output
    buffer is empty, not by whether the field is the first of its message.
    At every level the fragments follow the buffer in order, each behind a
    line feed (multi-line mode) or a space (compact mode) and the current
    indentation, except that a fragment written into an empty buffer has
    the indentation alone in front of it.  The buffer is empty only for the
    first field of the top-level message.  The first field of a nested
    message comes behind the brace that opens it, so it is preceded by the
    line feed or the space and the indentation of the nested level, like
    every later field. *)
Theorem field_separators (decoder : ProtoDecoder) (fuel : nat)
    (cfg : BuildConfig) (mode : NewLinesMode) (pool : DescriptorPool) :
  (forall type bytes ctx ctx',
      ProtozeroToTextInternal (S fuel) cfg type bytes mode pool ctx
      = Returned ctx' ->
      exists idx frags,
        FindDescriptorIdx pool type = Some idx /\
        MapOutcome
          (FieldFragment (ProtozeroToTextInternal fuel cfg) cfg
             (descriptors pool idx) mode pool (indents ctx))
          (ReadFields bytes) = Returned frags /\
        output ctx'
        = output ctx
            ++ match frags with
               | [] => ""
               | first :: rest =>
                   (if is_empty (output ctx) then indents ctx
                    else Separator mode ++ indents ctx)
                     ++ first
                     ++ PrefixEach (Separator mode ++ indents ctx) rest
               end) /\
  (forall type bytes depth text f1 rest,
      ProtozeroToText cfg pool type bytes mode depth = Returned text ->
      ReadFields bytes = f1 :: rest ->
      exists idx frag1 tail,
        FindDescriptorIdx pool type = Some idx /\
        FieldFragment (ProtozeroToTextInternal (List.length bytes) cfg) cfg
          (descriptors pool idx) mode pool (initial_indent depth) f1
        = Returned frag1 /\
        text = initial_indent depth ++ frag1 ++ tail) /\
  (forall pd ind field d f1 rest frag,
      Field.type field = kLengthDelimited ->
      FindFieldByTag pd (Field.id field) = Some d ->
      FieldDescriptor.type d = TYPE_MESSAGE ->
      ReadFields (Field.as_bytes field) = f1 :: rest ->
      FieldFragment (ProtozeroToTextInternal (S fuel) cfg) cfg pd mode pool
        ind field = Returned frag ->
      let nested_indents :=
        if NewLinesMode_eqb mode kIncludeNewLines
        then IncreaseIndents ind else ind in
      exists idx frag1 tail,
        FindDescriptorIdx pool (FieldDescriptor.resolved_type_name d)
        = Some idx /\
        FieldFragment (ProtozeroToTextInternal fuel cfg) cfg
          (descriptors pool idx) mode pool nested_indents f1
        = Returned frag1 /\
        frag = FormattedFieldDescriptorName d ++ ": {"
                 ++ Separator mode ++ nested_indents ++ frag1 ++ tail).
Proof.
  split; [|split].
  - intros type bytes ctx ctx'.
    rewrite (Internal_step _ _ _ _ _ _ _ (Internal_WellBehaved fuel cfg)).
    dcheck_cases; try discriminate.
    destruct (FindDescriptorIdx pool type) as [idx|]; [|discriminate].
    destruct (MapOutcome _ _) as [frags| | | |] eqn:Emap; cbn; try discriminate.
    dcheck_cases; try discriminate.
    intros [= <-]. exists idx, frags. split; [reflexivity|].
    split; [exact Emap|].
    cbn [output]. destruct frags as [|first others]; [reflexivity|].
    cbn [JoinFragments]. now rewrite JoinFragments_PrefixEach.
  - intros type bytes depth text f1 rest. unfold ProtozeroToText.
    rewrite (Internal_step _ _ _ _ _ _ _ (Internal_WellBehaved _ cfg)).
    cbn [output indents].
    dcheck_cases; try discriminate.
    destruct (FindDescriptorIdx pool type) as [idx|]; [|discriminate].
    intros H Hfields. rewrite Hfields in H. cbn [MapOutcome] in H.
    destruct (FieldFragment _ cfg _ mode pool _ f1) as [frag1| | | |] eqn:E1;
      cbn in H; try discriminate.
    destruct (MapOutcome _ rest) as [frags| | | |]; cbn in H; try discriminate.
    revert H. dcheck_cases; try discriminate. intros [= <-].
    exists idx, frag1. eexists. split; [reflexivity|]. split; [exact E1|].
    reflexivity.
  - intros pd ind field d f1 rest frag.
    apply FieldFragment_nested_first.
Qed.

Lemma field_separators_witness :
  exists idx frag1 tail,
    FindDescriptorIdx Examples.pool "Inner" = Some idx /\
    FieldFragment (ProtozeroToTextInternal 3 Examples.debug_build)
      Examples.debug_build (descriptors Examples.pool idx) kIncludeNewLines
      Examples.pool "  " (Examples.varint 1 7) = Returned frag1 /\
    "bar: {" ++ LF ++ "  baz: 7" ++ LF ++ "}"
    = "bar: {" ++ LF ++ "  " ++ frag1 ++ tail.
Proof.
  exact (proj2 (proj2
    (field_separators WireFormat.decoder 3 Examples.debug_build
       kIncludeNewLines Examples.pool))
    Examples.Outer ""
    {| Field.id := 2; Field.type := kLengthDelimited;
       Field.int_value := 0; Field.data := [x08; x07] |}
    Examples.fd_bar (Examples.varint 1 7) []
    ("bar: {" ++ LF ++ "  baz: 7" ++ LF ++ "}")
    eq_refl eq_refl eq_refl eq_refl eq_refl).
Defined.

(** The claim C6 as it is stated fails on the specification's own
    scenario: the first field of the nested message is preceded by a line
    feed and the indentation, not by the indentation alone. *)
Lemma first_nested_field_has_separator :
  ProtozeroToText Examples.debug_build Examples.pool "Outer"
    Examples.outer_bytes kIncludeNewLines 0
  = Returned ("bar: {" ++ LF ++ "  baz: 7" ++ LF ++ "}") /\
  ~ (exists tail,
        "bar: {" ++ LF ++ "  baz: 7" ++ LF ++ "}"
        = "bar: {" ++ "  " ++ "baz: 7" ++ tail).
Proof.
  split; [reflexivity|].
  intros [tail H]. cbn in H. discriminate H.
Qed.

(** ** Indentation *)

Lemma initial_indent_length (depth : Z) :
  String.length (initial_indent depth)
  = (2 * Z.to_nat (depth mod 2 ^ 31))%nat.
Proof.
  unfold initial_indent. rewrite length_replicate.
  replace (2 ^ 32) with (2 * 2 ^ 31) by reflexivity.
  rewrite Z.mul_mod_distr_l by lia.
  pose proof (Z.mod_pos_bound depth (2 ^ 31) ltac:(lia)).
  lia.
Qed.

Lemma take_all_but_two (n : nat) (s : string) :
  (n + 2 = String.length s)%nat ->
  exists removed, s = take n s ++ removed /\ String.length removed = 2%nat.
Proof.
  revert s. induction n as [|n IH]; intros s Hlen.
  - exists s. split; [now destruct s | now rewrite <- Hlen].
  - destruct s as [|c s]; [discriminate|].
    cbn in Hlen. injection Hlen as Hlen.
    destruct (IH s Hlen) as [removed [Heq Hrem]].
    exists removed. split; [|exact Hrem].
    cbn [take append]. now rewrite <- Heq.
Qed.

Lemma DecreaseIndents_removes cfg s s' :
  DecreaseIndents cfg s = Returned s' ->
  exists removed, s = s' ++ removed /\ String.length removed = 2%nat.
Proof.
  unfold DecreaseIndents, PERFETTO_DCHECK.
  destruct (2 <=? String.length s)%nat eqn:Hlen;
    [|destruct (dcheck_is_on cfg); discriminate].
  intros H. assert (Hs : s' = take (String.length s - 2) s)
    by (destruct (dcheck_is_on cfg); cbn in H; congruence).
  subst s'. clear H. apply Nat.leb_le in Hlen.
  apply take_all_but_two. lia.
Qed.

Lemma replicate_add (a b : nat) (c : ascii) :
  replicate (a + b) c = replicate a c ++ replicate b c.
Proof. induction a as [|a IH]; cbn; [reflexivity | now rewrite IH]. Qed.

Lemma Entered_indents (decoder : ProtoDecoder) cfg mode pool fuel type bytes
    ctx ctx_n :
  Entered cfg mode pool fuel type bytes ctx ctx_n ->
  exists k,
    indents ctx_n = indents ctx ++ replicate (2 * k) " " /\
    (mode = kSkipNewLines -> k = 0%nat).
Proof.
  induction 1 as [fuel type bytes ctx
                 | fuel type bytes ctx idx before field after ctx_k d ctx_n
                     Hidx Hfields Hbefore Htype Hfd Hmsg Hnested IH].
  - exists 0%nat. cbn. now rewrite append_nil_r.
  - destruct ctx as [ind out].
    rewrite (ForEachField_fragments _ (Internal_WellBehaved fuel cfg)) in Hbefore.
    destruct (MapOutcome _ before) as [frags| | | |]; cbn in Hbefore;
      try discriminate.
    injection Hbefore as <-. cbn [indents] in *.
    destruct IH as [k [Hk Hcompact]].
    destruct mode; cbn [NewLinesMode_eqb] in Hk.
    + exists (S k). split; [|discriminate].
      rewrite Hk. unfold IncreaseIndents. rewrite append_assoc. f_equal.
      replace (2 * S k)%nat with (2 + 2 * k)%nat by lia.
      now rewrite replicate_add.
    + exists k. split; [exact Hk | exact Hcompact].
Qed.

(** C9: the indentation is handled as a stack.  The top-level call starts
    from an even number of spaces; a nested MESSAGE field in multi-line mode
    is rendered under the indentation with exactly two spaces appended, and
    in compact mode under the indentation as it is; [DecreaseIndents]
    removes exactly two characters; every call of the renderer, at whatever
    depth, hands the indentation back as it received it.  So every call
    that a render enters, to any depth, has the initial indentation and an
    even number of further spaces (none in compact mode), and the render
    ends on the indentation it started from. *)
Theorem indentation_is_balanced (decoder : ProtoDecoder) (cfg : BuildConfig) :
  (forall depth, Nat.Even (String.length (initial_indent depth))) /\
  (forall s,
      IncreaseIndents s = s ++ "  " /\
      String.length (IncreaseIndents s) = (String.length s + 2)%nat /\
      DecreaseIndents cfg (IncreaseIndents s) = Returned s) /\
  (forall s s',
      DecreaseIndents cfg s = Returned s' ->
      exists removed, s = s' ++ removed /\ String.length removed = 2%nat) /\
  (forall fuel type bytes mode pool ctx ctx',
      ProtozeroToTextInternal fuel cfg type bytes mode pool ctx = Returned ctx' ->
      indents ctx' = indents ctx) /\
  (forall fuel type bytes mode pool ctx ctx_n,
      Entered cfg mode pool fuel type bytes ctx ctx_n ->
      (exists k,
          indents ctx_n = indents ctx ++ replicate (2 * k) " " /\
          (mode = kSkipNewLines -> k = 0%nat)) /\
      (Nat.Even (String.length (indents ctx)) ->
       Nat.Even (String.length (indents ctx_n)))) /\
  (forall fuel d field pool ctx,
      FieldDescriptor.type d = TYPE_MESSAGE ->
      PrintLengthDelimitedField (ProtozeroToTextInternal fuel cfg) cfg (Some d)
        field kIncludeNewLines pool ctx
      = ctx2 <- ProtozeroToTextInternal fuel cfg
                  (FieldDescriptor.resolved_type_name d) (Field.as_bytes field)
                  kIncludeNewLines pool
                  {| indents := indents ctx ++ "  ";
                     output := output ctx
                                 ++ FormattedFieldDescriptorName d ++ ": {" |} ;;
        Returned {| indents := indents ctx;
                    output := output ctx2 ++ LF ++ indents ctx ++ "}" |}) /\
  (forall fuel d field pool ctx,
      FieldDescriptor.type d = TYPE_MESSAGE ->
      PrintLengthDelimitedField (ProtozeroToTextInternal fuel cfg) cfg (Some d)
        field kSkipNewLines pool ctx
      = ctx2 <- ProtozeroToTextInternal fuel cfg
                  (FieldDescriptor.resolved_type_name d) (Field.as_bytes field)
                  kSkipNewLines pool
                  {| indents := indents ctx;
                     output := output ctx
                                 ++ FormattedFieldDescriptorName d ++ ": {" |} ;;
        Returned {| indents := indents ctx; output := output ctx2 ++ " }" |}).
Proof.
  pose proof (fun fuel => proj2 (Internal_WellBehaved fuel cfg)) as Hkeep.
  split; [|split; [|split; [|split; [|split; [|split]]]]].
  - intros depth. exists (Z.to_nat (depth mod 2 ^ 31)).
    apply initial_indent_length.
  - intros s. split; [reflexivity|]. split.
    + unfold IncreaseIndents. rewrite length_append. reflexivity.
    + apply DecreaseIndents_IncreaseIndents.
  - intros s s'. apply DecreaseIndents_removes.
  - intros fuel. apply Hkeep.
  - intros fuel type bytes mode pool ctx ctx_n Hentered.
    destruct (Entered_indents _ _ _ _ _ _ _ _ _ Hentered) as [k [Hk Hcompact]].
    split; [now exists k|].
    intros [half Hhalf]. exists (half + k)%nat.
    rewrite Hk, length_append, length_replicate. lia.
  - intros fuel d field pool ctx Hmsg.
    unfold PrintLengthDelimitedField. rewrite Hmsg. cbn.
    destruct (ProtozeroToTextInternal fuel cfg _ _ _ _ _) as [ctx2| | | |] eqn:E;
      cbn; try reflexivity.
    apply Hkeep in E. cbn in E. rewrite E.
    fold (IncreaseIndents (indents ctx)).
    now rewrite DecreaseIndents_IncreaseIndents.
  - intros fuel d field pool ctx Hmsg.
    unfold PrintLengthDelimitedField. rewrite Hmsg. cbn.
    destruct (ProtozeroToTextInternal fuel cfg _ _ _ _ _) as [ctx2| | | |] eqn:E;
      cbn; try reflexivity.
    apply Hkeep in E. cbn in E. now rewrite E.
Qed.

Lemma indentation_is_balanced_witness :
  indents {| indents := "  ";
             output := "  bar: {" ++ LF ++ "    baz: 7" ++ LF ++ "  }" |}
  = indents {| indents := "  "; output := "" |} /\
  (exists k,
      indents {| indents := "    "; output := "  bar: {" |}
      = indents {| indents := "  "; output := "" |} ++ replicate (2 * k) " " /\
      (kIncludeNewLines = kSkipNewLines -> k = 0%nat)).
Proof.
  pose proof (indentation_is_balanced WireFormat.decoder Examples.debug_build)
    as [_ [_ [_ [Hkeep [Hentered _]]]]].
  split.
  - exact (Hkeep 5%nat "Outer" Examples.outer_bytes kIncludeNewLines
             Examples.pool {| indents := "  "; output := "" |}
             {| indents := "  ";
                output := "  bar: {" ++ LF ++ "    baz: 7" ++ LF ++ "  }" |}
             eq_refl).
  - refine (proj1 (Hentered 5%nat "Outer" Examples.outer_bytes kIncludeNewLines
                     Examples.pool {| indents := "  "; output := "" |}
                     {| indents := "    "; output := "  bar: {" |} _)).
    exact (Entered_nested Examples.debug_build kIncludeNewLines Examples.pool
             4 "Outer" Examples.outer_bytes {| indents := "  "; output := "" |}
             0%nat []
             {| Field.id := 2; Field.type := kLengthDelimited;
                Field.int_value := 0; Field.data := [x08; x07] |}
             [] {| indents := "  "; output := "" |} Examples.fd_bar
             {| indents := "    "; output := "  bar: {" |}
             eq_refl eq_refl eq_refl eq_refl eq_refl eq_refl
             (Entered_here Examples.debug_build kIncludeNewLines Examples.pool
                4 "Inner" [x08; x07]
                {| indents := "    "; output := "  bar: {" |})).
Defined.

(** ** Unknown fixed-width fields *)

Lemma take_all (n : nat) (s : string) :
  (String.length s <= n)%nat -> take n s = s.
Proof.
  revert n. induction s as [|c s IH]; intros [|n] H; cbn in *;
    try reflexivity; try lia.
  now rewrite IH by lia.
Qed.

Lemma hex_digit_cases (k : Z) (P : Z -> Prop) :
  0 <= k < 16 ->
  P 0 -> P 1 -> P 2 -> P 3 -> P 4 -> P 5 -> P 6 -> P 7 ->
  P 8 -> P 9 -> P 10 -> P 11 -> P 12 -> P 13 -> P 14 -> P 15 -> P k.
Proof.
  intros Hk. intros.
  assert (H' : k = 0 \/ k = 1 \/ k = 2 \/ k = 3 \/ k = 4 \/ k = 5 \/ k = 6
            \/ k = 7 \/ k = 8 \/ k = 9 \/ k = 10 \/ k = 11 \/ k = 12
            \/ k = 13 \/ k = 14 \/ k = 15) by lia.
  repeat (destruct H' as [-> | H']; [assumption|]). now subst.
Qed.

Lemma hex_digit_value (k : Z) :
  0 <= k < 16 ->
  Hex.digit_value (Fmt.hex_digit k) = k /\
  Hex.is_lower_hex (Fmt.hex_digit k) = true.
Proof.
  intros Hk. pattern k. apply hex_digit_cases; [exact Hk | ..];
    split; reflexivity.
Qed.

Lemma value_from_append acc a b :
  Hex.value_from acc (a ++ b) = Hex.value_from (Hex.value_from acc a) b.
Proof. revert acc. induction a as [|c a IH]; intros acc; cbn; auto. Qed.

Lemma all_chars_append p a b :
  Hex.all_chars p (a ++ b) = Hex.all_chars p a && Hex.all_chars p b.
Proof.
  induction a as [|c a IH]; cbn; [reflexivity|].
  now rewrite IH, andb_assoc.
Qed.

Lemma hex_digits_value (w : nat) (v : Z) :
  Hex.value (Fmt.hex_digits w v) = v mod 16 ^ Z.of_nat w /\
  Hex.all_chars Hex.is_lower_hex (Fmt.hex_digits w v) = true.
Proof.
  unfold Hex.value. revert v. induction w as [|w IH]; intros v.
  - cbn. split; [now rewrite Z.mod_1_r | reflexivity].
  - cbn [Fmt.hex_digits].
    rewrite value_from_append, all_chars_append.
    destruct (IH (v / 16)) as [-> ->].
    destruct (hex_digit_value (v mod 16)) as [Hd Hl];
      [apply Z.mod_pos_bound; lia|].
    cbn [Hex.value_from Hex.all_chars andb]. rewrite Hd, Hl.
    split; [|reflexivity].
    rewrite Nat2Z.inj_succ, Z.pow_succ_r by lia.
    rewrite Z.rem_mul_r by lia. lia.
Qed.

Lemma printf_0x_fits (w : nat) (v : Z) :
  (0 < w)%nat -> 0 <= v < 16 ^ Z.of_nat w ->
  Fmt.printf_0x w v = Fmt.hex_digits w v.
Proof.
  intros Hw Hv. unfold Fmt.printf_0x, Fmt.num_hex_digits. f_equal.
  destruct (v <=? 0) eqn:E; [lia|].
  apply Z.leb_gt in E.
  assert (Hlog : Z.log2 v < 4 * Z.of_nat w).
  { apply Z.log2_lt_pow2; [lia|].
    replace (2 ^ (4 * Z.of_nat w)) with (16 ^ Z.of_nat w); [lia|].
    rewrite Z.pow_mul_r by lia. reflexivity. }
  pose proof (Z.log2_nonneg v).
  assert (Z.log2 v / 4 < Z.of_nat w) by (apply Z.div_lt_upper_bound; lia).
  pose proof (Z.div_pos (Z.log2 v) 4 ltac:(lia) ltac:(lia)).
  lia.
Qed.

(** C7, as the code has it: the conversion in the source is [PRIx32]
    ([PRIx64]), which prints lowercase digits.  A FIXED32 record with no
    descriptor or an unrecognized declared type renders as the tag, a colon
    and a space, [0x] and exactly eight hexadecimal digits in lowercase that
    denote the 32-bit value, padded with zeros; a FIXED64 record likewise
    with exactly sixteen digits for the 64-bit value. *)
Theorem unknown_fixed_fields (fd : option FieldDescriptor.t)
    (field : Field.t) (out : string) :
  (Unrecognized [TYPE_SFIXED32; TYPE_FIXED32; TYPE_FLOAT] fd ->
   exists digits,
     PrintFixed32Field fd field out
     = out ++ Fmt.to_string (Field.id field) ++ ": 0x" ++ digits /\
     String.length digits = 8%nat /\
     Hex.all_chars Hex.is_lower_hex digits = true /\
     Hex.value digits = Field.as_uint32 field) /\
  (Unrecognized [TYPE_SFIXED64; TYPE_FIXED64; TYPE_DOUBLE] fd ->
   exists digits,
     PrintFixed64Field fd field out
     = out ++ Fmt.to_string (Field.id field) ++ ": 0x" ++ digits /\
     String.length digits = 16%nat /\
     Hex.all_chars Hex.is_lower_hex digits = true /\
     Hex.value digits = Field.as_uint64 field).
Proof.
  split; intros Hfd.
  - exists (Fmt.hex_digits 8 (Field.as_uint32 field)).
    pose proof (Z.mod_pos_bound (Field.int_value field) (2 ^ 32) ltac:(lia))
      as Hrange. fold (Field.as_uint32 field) in Hrange.
    destruct (hex_digits_value 8 (Field.as_uint32 field)) as [Hv Hl].
    split; [|split; [apply Fmt.length_hex_digits|split; [exact Hl|]]].
    + assert (Hunknown :
        Fmt.StackString 12 ("0x" ++ Fmt.printf_0x 8 (Field.as_uint32 field))
        = "0x" ++ Fmt.hex_digits 8 (Field.as_uint32 field)).
      { rewrite printf_0x_fits by (cbn; lia).
        unfold Fmt.StackString. apply take_all.
        rewrite length_append, Fmt.length_hex_digits. cbn. lia. }
      unfold PrintFixed32Field. rewrite Hunknown.
      destruct fd as [d|]; [|reflexivity]. unfold Unrecognized in Hfd.
      destruct (Z.eqb_spec (FieldDescriptor.type d) TYPE_SFIXED32) as [e|_];
        [exfalso; apply Hfd; rewrite e; cbn; tauto|].
      destruct (Z.eqb_spec (FieldDescriptor.type d) TYPE_FIXED32) as [e|_];
        [exfalso; apply Hfd; rewrite e; cbn; tauto|].
      destruct (Z.eqb_spec (FieldDescriptor.type d) TYPE_FLOAT) as [e|_];
        [exfalso; apply Hfd; rewrite e; cbn; tauto|].
      reflexivity.
    + rewrite Hv. apply Z.mod_small. cbn. lia.
  - exists (Fmt.hex_digits 16 (Field.as_uint64 field)).
    pose proof (Z.mod_pos_bound (Field.int_value field) (2 ^ 64) ltac:(lia))
      as Hrange. fold (Field.as_uint64 field) in Hrange.
    destruct (hex_digits_value 16 (Field.as_uint64 field)) as [Hv Hl].
    split; [|split; [apply Fmt.length_hex_digits|split; [exact Hl|]]].
    + assert (Hunknown :
        Fmt.StackString 20 ("0x" ++ Fmt.printf_0x 16 (Field.as_uint64 field))
        = "0x" ++ Fmt.hex_digits 16 (Field.as_uint64 field)).
      { rewrite printf_0x_fits by (cbn; lia).
        unfold Fmt.StackString. apply take_all.
        rewrite length_append, Fmt.length_hex_digits. cbn. lia. }
      unfold PrintFixed64Field. rewrite Hunknown.
      destruct fd as [d|]; [|reflexivity]. unfold Unrecognized in Hfd.
      destruct (Z.eqb_spec (FieldDescriptor.type d) TYPE_SFIXED64) as [e|_];
        [exfalso; apply Hfd; rewrite e; cbn; tauto|].
      destruct (Z.eqb_spec (FieldDescriptor.type d) TYPE_FIXED64) as [e|_];
        [exfalso; apply Hfd; rewrite e; cbn; tauto|].
      destruct (Z.eqb_spec (FieldDescriptor.type d) TYPE_DOUBLE) as [e|_];
        [exfalso; apply Hfd; rewrite e; cbn; tauto|].
      reflexivity.
    + rewrite Hv. apply Z.mod_small. cbn. lia.
Qed.

Lemma unknown_fixed_fields_witness :
  (exists digits,
      PrintFixed32Field None (Examples.fixed32 1 2882400001) ""
      = "" ++ Fmt.to_string 1 ++ ": 0x" ++ digits /\
      String.length digits = 8%nat /\
      Hex.all_chars Hex.is_lower_hex digits = true /\
      Hex.value digits = Field.as_uint32 (Examples.fixed32 1 2882400001)) /\
  (exists digits,
      PrintFixed64Field (Some Examples.fd_baz) (Examples.fixed64 1 255) ""
      = "" ++ Fmt.to_string 1 ++ ": 0x" ++ digits /\
      String.length digits = 16%nat /\
      Hex.all_chars Hex.is_lower_hex digits = true /\
      Hex.value digits = Field.as_uint64 (Examples.fixed64 1 255)).
Proof.
  split.
  - apply (proj1 (unknown_fixed_fields None (Examples.fixed32 1 2882400001) "")).
    exact I.
  - apply (proj2 (unknown_fixed_fields (Some Examples.fd_baz)
                    (Examples.fixed64 1 255) "")).
    cbn. intros [H | [H | [H | []]]]; discriminate H.
Defined.

(** The claim C7 as it is stated fails wherever a digit above nine occurs:
    the value 0xABCDEF01 is printed in lowercase, where the [X] conversion
    of the specification gives uppercase. *)
Lemma unknown_fixed32_is_lowercase :
  PrintFixed32Field None (Examples.fixed32 1 2882400001) ""
  = "1: 0xabcdef01" /\
  Fmt.to_string 1 ++ ": 0x"
    ++ Hex.spec_upper_digits 8 (Field.as_uint32 (Examples.fixed32 1 2882400001))
  = "1: 0xABCDEF01" /\
  PrintFixed32Field None (Examples.fixed32 1 2882400001) ""
  <> Fmt.to_string 1 ++ ": 0x"
       ++ Hex.spec_upper_digits 8
            (Field.as_uint32 (Examples.fixed32 1 2882400001)).
Proof.
  split; [reflexivity|]. split; [reflexivity|].
  vm_compute. discriminate.
Qed.

(** ** Floating-point fields *)

Lemma half_of_divisor (n N : Z) (p : positive) :
  2 * Z.abs (n * Z.pos p - N) <= Z.pos p ->
  (Qabs (inject_Z n - (N # p)) <= 1 # 2)%Q.
Proof.
  intros H. unfold Qle, Qabs, Qminus, Qplus, Qopp, inject_Z. cbn.
  replace (n * Z.pos p + - N * 1) with (n * Z.pos p - N) by lia.
  lia.
Qed.

Lemma round_micro_error (m e : Z) :
  e < 0 ->
  2 * Z.abs (Float.round_micro m e * 2 ^ (- e) - m * 10 ^ 6) <= 2 ^ (- e).
Proof.
  intros He. unfold Float.round_micro.
  destruct (0 <=? e) eqn:E; [apply Z.leb_le in E; lia|].
  assert (Hd : 0 < 2 ^ (- e)) by (apply Z.pow_pos_nonneg; lia).
  set (d := 2 ^ (- e)) in *. set (N := m * 10 ^ 6).
  pose proof (Z.div_mod N d ltac:(lia)) as Hdm.
  pose proof (Z.mod_pos_bound N d Hd) as Hr.
  destruct (2 * (N mod d) <? d) eqn:E1; [apply Z.ltb_lt in E1; nia|].
  apply Z.ltb_ge in E1.
  destruct (d <? 2 * (N mod d)) eqn:E2; [apply Z.ltb_lt in E2; nia|].
  apply Z.ltb_ge in E2.
  destruct (Z.even (N / d)); nia.
Qed.

Lemma magnitude_scaled (m e : Z) (p : positive) :
  e < 0 -> 2 ^ (- e) = Z.pos p ->
  (inject_Z m * Qpower 2 e * inject_Z (10 ^ 6) == (m * 10 ^ 6) # p)%Q.
Proof.
  intros He Hp.
  replace e with (- (- e)) by lia.
  rewrite Qpower_opp.
  change 2%Q with (inject_Z 2).
  rewrite <- Zpower_Qpower by lia. rewrite Hp.
  unfold Qeq, Qmult, Qinv, inject_Z. cbn. lia.
Qed.

(** The integer [round_micro] gives is within one half of the magnitude
    scaled by a million. *)
Lemma round_micro_nearest (m e : Z) :
  (Qabs (inject_Z (Float.round_micro m e)
         - inject_Z m * Qpower 2 e * inject_Z (10 ^ 6)) <= 1 # 2)%Q.
Proof.
  destruct (Z_lt_le_dec e 0) as [He|He].
  - pose proof (round_micro_error m e He) as Herr.
    assert (Hd : 0 < 2 ^ (- e)) by (apply Z.pow_pos_nonneg; lia).
    destruct (2 ^ (- e)) as [|p|p] eqn:Hp; try lia.
    rewrite (magnitude_scaled m e p He Hp).
    now apply half_of_divisor.
  - unfold Float.round_micro.
    destruct (0 <=? e) eqn:E; [|apply Z.leb_gt in E; lia].
    rewrite !inject_Z_mult, Zpower_Qpower by lia.
    change (inject_Z 2) with 2%Q.
    setoid_replace (inject_Z m * 2 ^ e * inject_Z (10 ^ 6)
                    - inject_Z m * 2 ^ e * inject_Z (10 ^ 6))%Q with 0%Q by ring.
    discriminate.
Qed.

Lemma dec_digit_value (k : Z) :
  0 <= k < 10 ->
  DecimalText.digit_value (ascii_of_N (Z.to_N (48 + k))) = k /\
  DecimalText.is_digit (ascii_of_N (Z.to_N (48 + k))) = true.
Proof.
  intros Hk.
  assert (H : k = 0 \/ k = 1 \/ k = 2 \/ k = 3 \/ k = 4 \/ k = 5 \/ k = 6
            \/ k = 7 \/ k = 8 \/ k = 9) by lia.
  repeat (destruct H as [-> | H]; [split; reflexivity|]).
  subst; split; reflexivity.
Qed.

Lemma decimal_value_from_append acc a b :
  DecimalText.value_from acc (a ++ b)
  = DecimalText.value_from (DecimalText.value_from acc a) b.
Proof. revert acc. induction a as [|c a IH]; intros acc; cbn; auto. Qed.

Lemma dec_digits_value (w : nat) (v : Z) :
  DecimalText.value_from 0 (Fmt.dec_digits w v) = v mod 10 ^ Z.of_nat w /\
  Hex.all_chars DecimalText.is_digit (Fmt.dec_digits w v) = true.
Proof.
  revert v. induction w as [|w IH]; intros v.
  - cbn. split; [now rewrite Z.mod_1_r | reflexivity].
  - cbn [Fmt.dec_digits].
    rewrite decimal_value_from_append, all_chars_append.
    destruct (IH (v / 10)) as [-> ->].
    destruct (dec_digit_value (v mod 10)) as [Hd Hl];
      [apply Z.mod_pos_bound; lia|].
    cbn [DecimalText.value_from Hex.all_chars andb]. rewrite Hd, Hl.
    split; [|reflexivity].
    rewrite Nat2Z.inj_succ, Z.pow_succ_r by lia.
    rewrite Z.rem_mul_r by lia. lia.
Qed.

(** C8, as the code has it: the payload of a FLOAT (DOUBLE) field is
    reinterpreted as an IEEE-754 single (double), and the number is printed
    by [std::to_string], which is [printf]'s [%f]: for a finite number an
    optional minus sign, the whole part in decimal, a point and exactly six
    decimal digits, the number shown being the magnitude rounded to the
    nearest millionth.  This is fixed notation, not the shortest text that
    reads back as the number. *)
Theorem floating_point_fields (d : FieldDescriptor.t) (field : Field.t)
    (out : string) :
  (FieldDescriptor.type d = TYPE_FLOAT ->
   PrintFixed32Field (Some d) field out
   = out ++ FieldDescriptor.name d ++ ": "
         ++ Float.to_string (Float.binary32 (Field.int_value field mod 2 ^ 32))) /\
  (FieldDescriptor.type d = TYPE_DOUBLE ->
   PrintFixed64Field (Some d) field out
   = out ++ FieldDescriptor.name d ++ ": "
         ++ Float.to_string (Float.binary64 (Field.int_value field mod 2 ^ 64))) /\
  (forall negative m e,
      exists n digits,
        Float.to_string (Float.Finite negative m e)
        = (if negative then "-" else "")
            ++ Fmt.to_string (n / 10 ^ 6) ++ "." ++ digits /\
        String.length digits = 6%nat /\
        Hex.all_chars DecimalText.is_digit digits = true /\
        DecimalText.value_from 0 digits = n mod 10 ^ 6 /\
        (Qabs (inject_Z n
               - Float.to_Q (Float.Finite false m e) * inject_Z (10 ^ 6))
         <= 1 # 2)%Q).
Proof.
  split; [|split].
  - intros Htype. unfold PrintFixed32Field. rewrite Htype. reflexivity.
  - intros Htype. unfold PrintFixed64Field. rewrite Htype. reflexivity.
  - intros negative m e.
    exists (Float.round_micro m e),
           (Fmt.dec_digits 6 (Float.round_micro m e mod 10 ^ 6)).
    destruct (dec_digits_value 6 (Float.round_micro m e mod 10 ^ 6)) as [Hv Hl].
    split; [reflexivity|]. split; [apply Fmt.length_dec_digits|].
    split; [exact Hl|]. split.
    + rewrite Hv. apply Z.mod_small. apply Z.mod_pos_bound. reflexivity.
    + apply round_micro_nearest.
Qed.

Lemma floating_point_fields_witness :
  PrintFixed32Field (Some Examples.fd_ratio) (Examples.fixed32 4 1069547520) ""
  = "ratio: 1.500000" /\
  PrintFixed64Field (Some Examples.fd_weight)
    (Examples.fixed64 5 4591870180066957722) ""
  = "weight: 0.100000".
Proof.
  split.
  - exact (proj1 (floating_point_fields Examples.fd_ratio
                    (Examples.fixed32 4 1069547520) "") eq_refl).
  - exact (proj1 (proj2 (floating_point_fields Examples.fd_weight
                    (Examples.fixed64 5 4591870180066957722) "")) eq_refl).
Defined.

(** The claim C8 as it is stated fails on the single 1.5, whose bits are
    0x3FC00000: the field is printed with six decimals, while the shorter
    text [1.5] reads back as the same number. *)
Lemma float_is_not_printed_shortest :
  PrintFixed32Field (Some Examples.fd_ratio) (Examples.fixed32 4 1069547520) ""
  = "ratio: 1.500000" /\
  ~ DecimalText.spec_shortest_round_trip 8 23 "1.500000"
      (Field.as_float (Examples.fixed32 4 1069547520)).
Proof.
  split; [reflexivity|].
  intros [_ Hshortest].
  assert (Hshort : DecimalText.round_trips 8 23 "1.5"
                     (Field.as_float (Examples.fixed32 4 1069547520))).
  { exists (15 # 10)%Q. split; [reflexivity|]. split; [reflexivity|].
    intros bits _. apply Qle_trans with 0%Q; [|apply Qabs_nonneg].
    vm_compute. discriminate. }
  apply Hshortest in Hshort. cbn in Hshort. lia.
Qed.

(** * Further properties of the code *)

(** ** The string escaper: what its output looks like *)

Module EscaperFacts.
Import Text Escaper.

(** The printable ASCII characters, space to tilde. *)
Definition is_printable (c : ascii) : bool :=
  let n := N_of_ascii c in ((32 <=? n) && (n <=? 126))%N.

(** Reading an escaped text back.  After a backslash comes one of the ten
    letters of the named escapes or three octal digits; any other character
    stands for itself. *)
Definition named_escape (x : ascii) : option ascii :=
  if Ascii.eqb x "a" then Some "007"%char
  else if Ascii.eqb x "b" then Some "008"%char
  else if Ascii.eqb x "f" then Some "012"%char
  else if Ascii.eqb x "n" then Some "010"%char
  else if Ascii.eqb x "r" then Some "013"%char
  else if Ascii.eqb x "t" then Some "009"%char
  else if Ascii.eqb x "v" then Some "011"%char
  else if Ascii.eqb x "\" then Some "\"%char
  else if Ascii.eqb x "'" then Some "'"%char
  else if Ascii.eqb x DQUOTE then Some DQUOTE
  else None.

Definition octal_value (x : ascii) : option N :=
  let n := N_of_ascii x in
  if ((48 <=? n) && (n <=? 55))%N then Some (n - 48)%N else None.

Fixpoint unescape (s : string) : option string :=
  match s with
  | "" => Some ""
  | String c rest =>
      if Ascii.eqb c "\" then
        match rest with
        | "" => None
        | String x rest1 =>
            match named_escape x with
            | Some c' => option_map (String c') (unescape rest1)
            | None =>
                match octal_value x, rest1 with
                | Some hi, String y (String z rest3) =>
                    match octal_value y, octal_value z with
                    | Some mid, Some lo =>
                        option_map
                          (String (ascii_of_N (64 * hi + 8 * mid + lo)))
                          (unescape rest3)
                    | _, _ => None
                    end
                | _, _ => None
                end
            end
        end
      else option_map (String c) (unescape rest)
  end.

Lemma escape_case_printable cfg c :
  Hex.all_chars is_printable (escape_case cfg c) = true /\
  (1 <= String.length (escape_case cfg c) <= 4)%nat.
Proof.
  rewrite escape_case_spec.
  destruct c as [[|] [|] [|] [|] [|] [|] [|] [|]];
    (split; [reflexivity | cbn; lia]).
Qed.

Lemma unescape_escape_case cfg c s :
  unescape (escape_case cfg c ++ s) = option_map (String c) (unescape s).
Proof.
  rewrite escape_case_spec.
  destruct c as [[|] [|] [|] [|] [|] [|] [|] [|]]; reflexivity.
Qed.

Lemma escape_loop_append cfg raw ret :
  escape_loop cfg raw ret = ret ++ escape_loop cfg raw "".
Proof. now rewrite !escape_loop_spec. Qed.

Lemma escape_loop_cons cfg c rest :
  escape_loop cfg (String c rest) ""
  = escape_case cfg c ++ escape_loop cfg rest "".
Proof. cbn [escape_loop append]. apply escape_loop_append. Qed.

Lemma unescape_escape_loop cfg raw tail :
  unescape (escape_loop cfg raw "" ++ tail) = option_map (append raw) (unescape tail).
Proof.
  induction raw as [|c rest IH].
  - cbn. now destruct (unescape tail).
  - rewrite escape_loop_cons, append_assoc, unescape_escape_case, IH.
    now destruct (unescape tail).
Qed.

Lemma append_inv_tail (a b : string) (c : ascii) :
  a ++ String c "" = b ++ String c "" -> a = b.
Proof.
  revert b. induction a as [|x a IH]; intros [|y b] H; cbn in H.
  - reflexivity.
  - injection H as _ H. destruct b; discriminate H.
  - injection H as _ H. destruct a; discriminate H.
  - injection H as -> H. f_equal. now apply IH.
Qed.

(** Whatever the bytes, the quoted literal holds printable ASCII only: no
    control character, no line break and no byte above 0x7E gets through. *)
Theorem escaped_text_is_printable (cfg : BuildConfig) (raw : string) :
  Hex.all_chars is_printable (QuoteAndEscapeTextProtoString cfg raw) = true.
Proof.
  unfold QuoteAndEscapeTextProtoString. cbn [Hex.all_chars].
  replace (is_printable DQUOTE) with true by reflexivity. cbn [andb].
  rewrite all_chars_append. cbn. rewrite andb_true_r.
  induction raw as [|c rest IH]; [reflexivity|].
  rewrite escape_loop_cons, all_chars_append, IH.
  now rewrite (proj1 (escape_case_printable cfg c)).
Qed.

(** The literal takes the two quotes and, for each byte, between one and
    four characters. *)
Theorem escaped_text_length (cfg : BuildConfig) (raw : string) :
  (String.length raw + 2
   <= String.length (QuoteAndEscapeTextProtoString cfg raw)
   <= 4 * String.length raw + 2)%nat.
Proof.
  unfold QuoteAndEscapeTextProtoString. cbn [String.length].
  rewrite length_append. cbn [String.length].
  assert (H : (String.length raw <= String.length (escape_loop cfg raw "")
               <= 4 * String.length raw)%nat).
  { induction raw as [|c rest IH]; [cbn; lia|].
    rewrite escape_loop_cons, length_append. cbn [String.length].
    pose proof (proj2 (escape_case_printable cfg c)). lia. }
  lia.
Qed.

(** Two byte strings with the same literal are the same string, also when
    the two literals were made on platforms that differ in the signedness
    of [char]: the escaping loses nothing, and [unescape] reads the bytes
    back. *)
Theorem escaped_text_is_injective (cfg1 cfg2 : BuildConfig)
    (raw1 raw2 : string) :
  QuoteAndEscapeTextProtoString cfg1 raw1
  = QuoteAndEscapeTextProtoString cfg2 raw2 ->
  raw1 = raw2.
Proof.
  unfold QuoteAndEscapeTextProtoString. intros H. injection H as H.
  apply append_inv_tail in H.
  assert (H1 := unescape_escape_loop cfg1 raw1 "").
  assert (H2 := unescape_escape_loop cfg2 raw2 "").
  rewrite append_nil_r in H1, H2. rewrite H, H2 in H1.
  cbn in H1. rewrite !append_nil_r in H1. congruence.
Qed.

Lemma escaped_text_is_injective_witness :
  String "001" "a" = String "001" "a".
Proof.
  exact (escaped_text_is_injective Examples.debug_build Examples.release_build
           (String "001" "a") (String "001" "a") eq_refl).
Defined.

(** Escaping goes byte by byte: between the quotes, the literal of a
    concatenation is the concatenation of what the parts give. *)
Theorem escaped_text_of_concatenation (cfg : BuildConfig) (a b : string) :
  escape_loop cfg (a ++ b) ""
  = escape_loop cfg a "" ++ escape_loop cfg b "".
Proof.
  induction a as [|c a IH]; [reflexivity|].
  cbn [append]. rewrite !escape_loop_cons, IH. now rewrite append_assoc.
Qed.

Lemma escaped_text_any_build (cfg1 cfg2 : BuildConfig) (raw : string) :
  QuoteAndEscapeTextProtoString cfg1 raw
  = QuoteAndEscapeTextProtoString cfg2 raw.
Proof.
  unfold QuoteAndEscapeTextProtoString. now rewrite !escape_loop_spec.
Qed.

(** The literal does not depend on the build: neither on the signedness of
    [char], which the comparison with 0x20 and 0x7e and the cast before the
    shifts absorb, nor on the debug checks. *)
Theorem escaped_text_ignores_build (cfg1 cfg2 : BuildConfig) (raw : string) :
  QuoteAndEscapeTextProtoString cfg1 raw
  = QuoteAndEscapeTextProtoString cfg2 raw.
Proof. apply escaped_text_any_build. Qed.

End EscaperFacts.

(** ** The renderer: how it treats its buffer, its build and its layout *)

(** What kind of end a call came to, without what it returned. *)
Definition ending {A : Type} (o : Outcome A) : Outcome unit :=
  _ <- o ;; Returned tt.

Lemma MapOutcome_ending {A B C : Type} (f : A -> Outcome B)
    (g : A -> Outcome C) (xs : list A) :
  (forall x, In x xs -> ending (f x) = ending (g x)) ->
  ending (MapOutcome f xs) = ending (MapOutcome g xs).
Proof.
  induction xs as [|x rest IH]; intros H; [reflexivity|].
  cbn. pose proof (H x (or_introl eq_refl)) as Hx.
  assert (Hrest : ending (MapOutcome f rest) = ending (MapOutcome g rest))
    by (apply IH; intros y Hy; apply H; now right).
  destruct (f x), (g x); cbn in *; try discriminate; try reflexivity.
  destruct (MapOutcome f rest), (MapOutcome g rest); cbn in *;
    try discriminate; reflexivity.
Qed.

Lemma MapOutcome_same {A B : Type} (f g : A -> Outcome B) (xs : list A) ys :
  (forall x y, In x xs -> f x = Returned y -> g x = Returned y) ->
  MapOutcome f xs = Returned ys -> MapOutcome g xs = Returned ys.
Proof.
  revert ys. induction xs as [|x rest IH]; intros ys H; cbn; [auto|].
  destruct (f x) as [y| | | |] eqn:Ex; cbn; try discriminate.
  rewrite (H x y (or_introl eq_refl) Ex). cbn.
  destruct (MapOutcome f rest) as [ys'| | | |] eqn:Er; cbn; try discriminate.
  rewrite (IH ys'); [auto| |reflexivity].
  intros z w Hz. apply H. now right.
Qed.

Section Rendering.
Context {decoder : ProtoDecoder}.

(** The renderer only ever appends: what the buffer held stays as it was,
    at the front, and the indentation comes back unchanged.  What is
    appended to a buffer that is not empty does not depend on what the
    buffer holds. *)
Theorem renderer_only_appends (fuel : nat) (cfg : BuildConfig)
    (type : string) (bytes : list byte) (mode : NewLinesMode)
    (pool : DescriptorPool) (ctx ctx' : RenderContext) :
  ProtozeroToTextInternal fuel cfg type bytes mode pool ctx = Returned ctx' ->
  exists delta,
    output ctx' = output ctx ++ delta /\
    indents ctx' = indents ctx /\
    (is_empty (output ctx) = false ->
     forall other,
       is_empty other = false ->
       ProtozeroToTextInternal fuel cfg type bytes mode pool
         {| indents := indents ctx; output := other |}
       = Returned {| indents := indents ctx; output := other ++ delta |}).
Proof.
  destruct fuel as [|fuel]; [discriminate|].
  pose proof (Internal_WellBehaved fuel cfg) as Hwb.
  intros H. rewrite (Internal_step _ _ _ _ _ _ _ Hwb) in H.
  destruct (FindDescriptorIdx pool type) as [idx|] eqn:Eidx.
  2:{ destruct (PERFETTO_DCHECK cfg false); discriminate. }
  destruct (PERFETTO_DCHECK cfg true) as [[]| | | |] eqn:Efound; cbn in H;
    try discriminate.
  destruct (MapOutcome _ _) as [frags| | | |] eqn:Emap; cbn in H;
    try discriminate.
  destruct (PERFETTO_DCHECK cfg (bytes_left bytes =? 0)%nat) as [[]| | | |]
    eqn:Eleft; cbn in H; try discriminate.
  injection H as <-. cbn [indents output].
  exists (JoinFragments mode (indents ctx) (is_empty (output ctx)) frags).
  split; [reflexivity|]. split; [reflexivity|].
  intros Hout other Hother.
  rewrite (Internal_step _ _ _ _ _ _ _ Hwb). cbn [indents output].
  rewrite Eidx, Efound. cbn. rewrite Emap. cbn. rewrite Eleft. cbn.
  now rewrite Hout, Hother.
Qed.

Lemma PERFETTO_DCHECK_true cfg : PERFETTO_DCHECK cfg true = Returned tt.
Proof. unfold PERFETTO_DCHECK. now destruct (dcheck_is_on cfg). Qed.

Lemma DecreaseIndents_any_build cfg1 cfg2 s s' :
  DecreaseIndents cfg1 s = Returned s' -> DecreaseIndents cfg2 s = Returned s'.
Proof.
  unfold DecreaseIndents, PERFETTO_DCHECK.
  destruct (2 <=? String.length s)%nat;
    destruct (dcheck_is_on cfg1), (dcheck_is_on cfg2); cbn;
    try discriminate; auto.
Qed.

Lemma FieldFragment_any_build (rec1 rec2 : InternalFn) cfg1 cfg2 pd mode pool
    ind field frag :
  (forall t b m p c c',
      rec1 t b m p c = Returned c' -> rec2 t b m p c = Returned c') ->
  FieldFragment rec1 cfg1 pd mode pool ind field = Returned frag ->
  FieldFragment rec2 cfg2 pd mode pool ind field = Returned frag.
Proof.
  intros Hrec. unfold FieldFragment, DispatchField.
  destruct (Field.type field); cbn; auto.
  unfold PrintLengthDelimitedField. cbn [output indents].
  rewrite (EscaperFacts.escaped_text_any_build cfg1 cfg2).
  destruct (FindFieldByTag pd (Field.id field)) as [d|]; auto.
  destruct ((FieldDescriptor.type d =? TYPE_BYTES)
            || (FieldDescriptor.type d =? TYPE_STRING)); auto.
  destruct (FieldDescriptor.type d =? TYPE_MESSAGE); auto.
  destruct (rec1 _ _ _ _ _) as [ctx2| | | |] eqn:E; cbn [bind];
    try discriminate.
  rewrite (Hrec _ _ _ _ _ _ E). cbn.
  destruct (NewLinesMode_eqb mode kIncludeNewLines); cbn; auto.
  destruct (DecreaseIndents cfg1 (indents ctx2)) as [i3| | | |] eqn:Ed; cbn;
    try discriminate.
  now rewrite (DecreaseIndents_any_build cfg1 cfg2 _ _ Ed).
Qed.

(** The debug checks only ever stop a call: whatever a build with the
    checks returns, every other build returns too, whether or not it has
    the checks and whatever the signedness of its [char]. *)
Theorem checks_do_not_change_text (fuel : nat) (cfg cfg' : BuildConfig)
    (type : string) (bytes : list byte) (mode : NewLinesMode)
    (pool : DescriptorPool) (ctx ctx' : RenderContext) :
  dcheck_is_on cfg = true ->
  ProtozeroToTextInternal fuel cfg type bytes mode pool ctx = Returned ctx' ->
  ProtozeroToTextInternal fuel cfg' type bytes mode pool ctx = Returned ctx'.
Proof.
  intros Hdebug. revert type bytes mode pool ctx ctx'.
  induction fuel as [|fuel IH]; intros type bytes mode pool ctx ctx';
    [discriminate|].
  rewrite !(Internal_step _ _ _ _ _ _ _ (Internal_WellBehaved fuel _)).
  unfold PERFETTO_DCHECK at 1 2. rewrite Hdebug.
  destruct (FindDescriptorIdx pool type) as [idx|]; [|discriminate].
  cbn. rewrite PERFETTO_DCHECK_true. cbn.
  destruct (MapOutcome _ _) as [frags| | | |] eqn:Emap; cbn; try discriminate.
  rewrite (MapOutcome_same _
             (FieldFragment (ProtozeroToTextInternal fuel cfg') cfg'
                (descriptors pool idx) mode pool (indents ctx)) _ frags
             (fun f frag _ => FieldFragment_any_build _ _ cfg cfg' _ _ _ _ _ _
                                (fun t b m p c c' => IH t b m p c c'))
             Emap).
  cbn. destruct (bytes_left bytes =? 0)%nat; [|discriminate].
  now rewrite PERFETTO_DCHECK_true.
Qed.

Lemma FieldFragment_ending (rec : InternalFn) cfg pd m1 m2 pool ind1 ind2 field :
  WellBehaved rec ->
  (forall t b p c1 c2, ending (rec t b m1 p c1) = ending (rec t b m2 p c2)) ->
  ending (FieldFragment rec cfg pd m1 pool ind1 field)
  = ending (FieldFragment rec cfg pd m2 pool ind2 field).
Proof.
  intros [_ Hind] Hrec. unfold FieldFragment, DispatchField.
  destruct (Field.type field); cbn; try reflexivity.
  unfold PrintLengthDelimitedField. cbn [output indents].
  destruct (FindFieldByTag pd (Field.id field)) as [d|]; [|reflexivity].
  destruct ((FieldDescriptor.type d =? TYPE_BYTES)
            || (FieldDescriptor.type d =? TYPE_STRING)); [reflexivity|].
  destruct (FieldDescriptor.type d =? TYPE_MESSAGE); [|reflexivity].
  match goal with
  | |- ending (_ <- (_ <- rec ?t ?b m1 ?p ?c1 ;; _) ;; _)
       = ending (_ <- (_ <- rec ?t ?b m2 ?p ?c2 ;; _) ;; _) =>
      pose proof (Hrec t b p c1 c2) as H;
      destruct (rec t b m1 p c1) as [r1| | | |] eqn:E1;
      destruct (rec t b m2 p c2) as [r2| | | |] eqn:E2;
      cbn in H; try discriminate H; try reflexivity;
      apply Hind in E1; apply Hind in E2; cbn in E1, E2
  end.
  cbn. rewrite E1, E2.
  destruct m1, m2; cbn; rewrite ?DecreaseIndents_IncreaseIndents; reflexivity.
Qed.

Lemma Internal_ending fuel cfg type bytes m1 m2 pool c1 c2 :
  ending (ProtozeroToTextInternal fuel cfg type bytes m1 pool c1)
  = ending (ProtozeroToTextInternal fuel cfg type bytes m2 pool c2).
Proof.
  revert type bytes pool c1 c2.
  induction fuel as [|fuel IH]; intros type bytes pool c1 c2; [reflexivity|].
  pose proof (Internal_WellBehaved fuel cfg) as Hwb.
  rewrite !(Internal_step _ _ _ _ _ _ _ Hwb).
  dcheck_cases; [|reflexivity].
  destruct (FindDescriptorIdx pool type) as [idx|]; [|reflexivity].
  pose proof (MapOutcome_ending
                (FieldFragment (ProtozeroToTextInternal fuel cfg) cfg
                   (descriptors pool idx) m1 pool (indents c1))
                (FieldFragment (ProtozeroToTextInternal fuel cfg) cfg
                   (descriptors pool idx) m2 pool (indents c2))
                (ReadFields bytes)
                (fun f _ => FieldFragment_ending _ cfg _ m1 m2 pool _ _ f Hwb
                              (fun t b p a1 a2 => IH t b p a1 a2))) as Hmap.
  destruct (MapOutcome _ _) as [frags1| | | |];
    destruct (MapOutcome _ _) as [frags2| | | |];
    cbn in Hmap; try discriminate Hmap; try reflexivity.
  cbn. dcheck_cases; reflexivity.
Qed.

(** Whether a render returns, stops on a check or has undefined behaviour
    is decided by the schema and the bytes alone: the layout mode and the
    initial indentation have no part in it. *)
Theorem layout_does_not_change_ending (cfg : BuildConfig)
    (pool : DescriptorPool) (type : string) (bytes : list byte)
    (mode1 mode2 : NewLinesMode) (depth1 depth2 : Z) :
  ending (ProtozeroToText cfg pool type bytes mode1 depth1)
  = ending (ProtozeroToText cfg pool type bytes mode2 depth2).
Proof.
  unfold ProtozeroToText.
  pose proof (Internal_ending (S (List.length bytes)) cfg type bytes
                mode1 mode2 pool
                {| indents := initial_indent depth1; output := "" |}
                {| indents := initial_indent depth2; output := "" |}) as H.
  destruct (ProtozeroToTextInternal _ cfg type bytes mode1 pool _);
    destruct (ProtozeroToTextInternal _ cfg type bytes mode2 pool _);
    cbn in *; congruence.
Qed.

End Rendering.

Lemma checks_do_not_change_text_witness :
  ProtozeroToTextInternal 5 Examples.release_build "Outer"
    Examples.outer_bytes kIncludeNewLines Examples.pool
    {| indents := ""; output := "" |}
  = Returned {| indents := "";
                output := "bar: {" ++ LF ++ "  baz: 7" ++ LF ++ "}" |}.
Proof.
  exact (checks_do_not_change_text 5 Examples.debug_build
           Examples.release_build "Outer" Examples.outer_bytes
           kIncludeNewLines Examples.pool {| indents := ""; output := "" |}
           {| indents := "";
              output := "bar: {" ++ LF ++ "  baz: 7" ++ LF ++ "}" |}
           eq_refl eq_refl).
Defined.

Lemma renderer_only_appends_witness :
  exists delta,
    "x: 1" ++ LF ++ "bar: {" ++ LF ++ "  baz: 7" ++ LF ++ "}"
    = "x: 1" ++ delta /\
    indents {| indents := "";
               output := "x: 1" ++ LF ++ "bar: {" ++ LF ++ "  baz: 7"
                           ++ LF ++ "}" |}
    = "" /\
    (is_empty "x: 1" = false ->
     forall other,
       is_empty other = false ->
       ProtozeroToTextInternal 5 Examples.debug_build "Outer"
         Examples.outer_bytes kIncludeNewLines Examples.pool
         {| indents := ""; output := other |}
       = Returned {| indents := ""; output := other ++ delta |}).
Proof.
  exact (renderer_only_appends 5 Examples.debug_build "Outer"
           Examples.outer_bytes kIncludeNewLines Examples.pool
           {| indents := ""; output := "x: 1" |}
           {| indents := "";
              output := "x: 1" ++ LF ++ "bar: {" ++ LF ++ "  baz: 7"
                          ++ LF ++ "}" |}
           eq_refl).
Defined.

(** ** The renderer: edge cases *)

(** Which declared types the printer of a wire type knows. *)
Definition fits (wire : ProtoWireType) (declared : Z) : bool :=
  match wire with
  | kVarInt =>
      (declared =? TYPE_INT32) || (declared =? TYPE_SINT32)
      || (declared =? TYPE_UINT32) || (declared =? TYPE_INT64)
      || (declared =? TYPE_SINT64) || (declared =? TYPE_UINT64)
      || (declared =? TYPE_BOOL) || (declared =? TYPE_ENUM)
  | kFixed32 =>
      (declared =? TYPE_SFIXED32) || (declared =? TYPE_FIXED32)
      || (declared =? TYPE_FLOAT)
  | kFixed64 =>
      (declared =? TYPE_SFIXED64) || (declared =? TYPE_FIXED64)
      || (declared =? TYPE_DOUBLE)
  | kLengthDelimited =>
      (declared =? TYPE_BYTES) || (declared =? TYPE_STRING)
      || (declared =? TYPE_MESSAGE)
  end.

(** A schema that knows the enums of [pd] and none of its fields. *)
Definition without_fields (pd : ProtoDescriptor) : ProtoDescriptor :=
  {| FindFieldByTag _ := None; FindEnumString := FindEnumString pd |}.

Ltac all_false H :=
  repeat match type of H with
    | (_ || _) = false =>
        let H1 := fresh "Hfalse" in
        apply orb_false_elim in H; destruct H as [H H1]; try rewrite H1
    end;
  try rewrite H.

(** A record whose wire type does not go with the type its descriptor
    declares is printed exactly as if the schema did not know the tag: under
    the tag number, in the format of the wire type.  So a packed repeated
    scalar, which arrives length-delimited, is shown as a quoted string. *)
Theorem mismatched_field_is_unknown (rec : InternalFn) (cfg : BuildConfig)
    (pd : ProtoDescriptor) (mode : NewLinesMode) (pool : DescriptorPool)
    (ind : string) (field : Field.t) (d : FieldDescriptor.t) :
  FindFieldByTag pd (Field.id field) = Some d ->
  fits (Field.type field) (FieldDescriptor.type d) = false ->
  FieldFragment rec cfg pd mode pool ind field
  = FieldFragment rec cfg (without_fields pd) mode pool ind field.
Proof.
  intros Hfd Hfits. unfold FieldFragment, DispatchField.
  cbn [without_fields FindFieldByTag]. rewrite Hfd.
  destruct (Field.type field); cbn [fits] in Hfits.
  - unfold PrintVarIntField. all_false Hfits. reflexivity.
  - unfold PrintFixed64Field. all_false Hfits. reflexivity.
  - unfold PrintLengthDelimitedField. all_false Hfits. reflexivity.
  - unfold PrintFixed32Field. all_false Hfits. reflexivity.
Qed.

Lemma mismatched_field_is_unknown_witness :
  FieldFragment (ProtozeroToTextInternal 3 Examples.debug_build)
    Examples.debug_build Examples.Inner kIncludeNewLines Examples.pool ""
    {| Field.id := 1; Field.type := kLengthDelimited;
       Field.int_value := 0; Field.data := [x01; x02] |}
  = Returned ("1: " ++ String DQUOTE ("\001\002" ++ String DQUOTE "")).
Proof.
  exact (mismatched_field_is_unknown
           (ProtozeroToTextInternal 3 Examples.debug_build)
           Examples.debug_build Examples.Inner kIncludeNewLines Examples.pool
           "" {| Field.id := 1; Field.type := kLengthDelimited;
                 Field.int_value := 0; Field.data := [x01; x02] |}
           Examples.fd_baz eq_refl eq_refl).
Defined.

Section EdgeCases.
Context {decoder : ProtoDecoder}.

(** A render that returns gives the empty text exactly when the span holds
    no record: the initial indentation is written in front of a first field
    only, never alone. *)
Theorem text_is_empty_without_records (cfg : BuildConfig)
    (pool : DescriptorPool) (type : string) (bytes : list byte)
    (mode : NewLinesMode) (depth : Z) (text : string) :
  ProtozeroToText cfg pool type bytes mode depth = Returned text ->
  (text = "" <-> ReadFields bytes = []).
Proof.
  unfold ProtozeroToText.
  pose proof (Internal_WellBehaved (List.length bytes) cfg) as Hwb.
  rewrite (Internal_step _ _ _ _ _ _ _ Hwb). cbn [indents output].
  dcheck_cases; try discriminate.
  destruct (FindDescriptorIdx pool type) as [idx|]; [|discriminate].
  destruct (ReadFields bytes) as [|f rest]; cbn [MapOutcome].
  - cbn. dcheck_cases; try discriminate. intros [= <-]. tauto.
  - destruct (FieldFragment _ cfg _ mode pool _ f) as [frag| | | |] eqn:Efrag;
      cbn; try discriminate.
    destruct (MapOutcome _ rest) as [frags| | | |]; cbn; try discriminate.
    dcheck_cases; try discriminate. intros [= <-].
    apply (FieldFragment_nonempty _ cfg) in Efrag.
    split; [|discriminate].
    intros Hempty. exfalso.
    assert (Hne : is_empty
              (initial_indent depth ++ frag
                 ++ JoinFragments mode (initial_indent depth) false frags)
            = false).
    { apply is_empty_append_r. destruct frag; [discriminate|reflexivity]. }
    unfold FieldPrefix in Hempty. cbn in Hempty. rewrite Hempty in Hne.
    discriminate.
Qed.

(** A field that holds a message without any record is printed as the name
    and an empty pair of braces: in multi-line mode the closing brace stands
    on a line of its own under the indentation of the field, in compact
    mode a space keeps the braces apart. *)
Theorem empty_nested_message (fuel : nat) (cfg : BuildConfig)
    (pd : ProtoDescriptor) (mode : NewLinesMode) (pool : DescriptorPool)
    (ind : string) (field : Field.t) (d : FieldDescriptor.t) (frag : string) :
  Field.type field = kLengthDelimited ->
  FindFieldByTag pd (Field.id field) = Some d ->
  FieldDescriptor.type d = TYPE_MESSAGE ->
  ReadFields (Field.as_bytes field) = [] ->
  FieldFragment (ProtozeroToTextInternal (S fuel) cfg) cfg pd mode pool ind field
  = Returned frag ->
  frag = FormattedFieldDescriptorName d ++ ": {"
           ++ match mode with
              | kIncludeNewLines => LF ++ ind ++ "}"
              | kSkipNewLines => " }"
              end.
Proof.
  intros Htype Hfd Hmsg Hfields. unfold FieldFragment, DispatchField.
  rewrite Htype, Hfd. unfold PrintLengthDelimitedField. rewrite Hmsg.
  cbn [orb Z.eqb TYPE_MESSAGE TYPE_BYTES TYPE_STRING Pos.eqb output indents append].
  rewrite (Internal_step _ _ _ _ _ _ _ (Internal_WellBehaved fuel cfg)).
  cbn [output indents].
  dcheck_cases; try discriminate.
  destruct (FindDescriptorIdx pool _) as [idx|]; [|discriminate].
  rewrite Hfields. cbn [MapOutcome bind].
  dcheck_cases; try discriminate.
  destruct mode; cbn.
  - rewrite DecreaseIndents_IncreaseIndents. cbn. intros [= <-].
    now rewrite append_nil_r, !append_assoc.
  - intros [= <-]. now rewrite append_nil_r, !append_assoc.
Qed.

(** The doubled depth is computed in 32 bits: an initial depth of 2^31 or
    more indents like the depth less 2^31. *)
Theorem indentation_depth_wraps (cfg : BuildConfig) (pool : DescriptorPool)
    (type : string) (bytes : list byte) (mode : NewLinesMode) (depth : Z) :
  ProtozeroToText cfg pool type bytes mode (depth + 2 ^ 31)
  = ProtozeroToText cfg pool type bytes mode depth.
Proof.
  unfold ProtozeroToText, initial_indent.
  replace (2 * (depth + 2 ^ 31)) with (2 * depth + 1 * 2 ^ 32) by lia.
  now rewrite Z_mod_plus_full.
Qed.

End EdgeCases.

Lemma text_is_empty_without_records_witness :
  "" = "" <-> ReadFields [] = [].
Proof.
  exact (text_is_empty_without_records Examples.debug_build Examples.pool
           "Outer" [] kIncludeNewLines 3 "" eq_refl).
Defined.

Lemma empty_nested_message_witness :
  "bar: {" ++ LF ++ "  }" = "bar" ++ ": {" ++ LF ++ "  " ++ "}".
Proof.
  exact (empty_nested_message 2 Examples.debug_build Examples.Outer
           kIncludeNewLines Examples.pool "  "
           {| Field.id := 2; Field.type := kLengthDelimited;
              Field.int_value := 0; Field.data := [] |}
           Examples.fd_bar ("bar: {" ++ LF ++ "  }")
           eq_refl eq_refl eq_refl eq_refl eq_refl).
Defined.

Ltac tag_or_name :=
  cbn [append];
  lazymatch goal with
  | |- (exists v, Fmt.to_string _ ++ _ = _) \/ _ => left; eexists; reflexivity
  | |- _ => right; eexists; reflexivity
  end.

Lemma PrintVarIntField_tag_or_name d field pool :
  (exists v, PrintVarIntField (Some d) field pool ""
             = Fmt.to_string (Field.id field) ++ ": " ++ v) \/
  (exists v, PrintVarIntField (Some d) field pool ""
             = FieldDescriptor.name d ++ ": " ++ v).
Proof. unfold PrintVarIntField. split_ifs; tag_or_name. Qed.

Lemma PrintFixed32Field_tag_or_name d field :
  (exists v, PrintFixed32Field (Some d) field ""
             = Fmt.to_string (Field.id field) ++ ": " ++ v) \/
  (exists v, PrintFixed32Field (Some d) field ""
             = FieldDescriptor.name d ++ ": " ++ v).
Proof. unfold PrintFixed32Field. split_ifs; tag_or_name. Qed.

Lemma PrintFixed64Field_tag_or_name d field :
  (exists v, PrintFixed64Field (Some d) field ""
             = Fmt.to_string (Field.id field) ++ ": " ++ v) \/
  (exists v, PrintFixed64Field (Some d) field ""
             = FieldDescriptor.name d ++ ": " ++ v).
Proof. unfold PrintFixed64Field. split_ifs; tag_or_name. Qed.

(** An extension field is printed under its bracketed, qualified name only
    where it holds a message.  Extension fields of every other type that
    are printed by name are printed under the bare name, like fields that
    are no extensions. *)
Theorem extension_field_names (decoder : ProtoDecoder) (fuel : nat)
    (cfg : BuildConfig) (pd : ProtoDescriptor) (mode : NewLinesMode)
    (pool : DescriptorPool) (ind : string) (field : Field.t)
    (d : FieldDescriptor.t) (frag : string) :
  FindFieldByTag pd (Field.id field) = Some d ->
  FieldDescriptor.is_extension d = true ->
  FieldFragment (ProtozeroToTextInternal fuel cfg) cfg pd mode pool ind field
  = Returned frag ->
  (exists v, frag = Fmt.to_string (Field.id field) ++ ": " ++ v) \/
  (Field.type field = kLengthDelimited /\
   FieldDescriptor.type d = TYPE_MESSAGE /\
   exists v,
     frag = "[perfetto.protos." ++ FieldDescriptor.name d ++ "]: {" ++ v) \/
  ((Field.type field <> kLengthDelimited \/
    FieldDescriptor.type d <> TYPE_MESSAGE) /\
   exists v, frag = FieldDescriptor.name d ++ ": " ++ v).
Proof.
  intros Hfd Hext. unfold FieldFragment, DispatchField. rewrite Hfd.
  destruct (Field.type field) eqn:Htype; cbn [bind output].
  - intros [= <-].
    destruct (PrintVarIntField_tag_or_name d field pool) as [H|H]; [now left|].
    right; right. split; [left; discriminate | exact H].
  - intros [= <-].
    destruct (PrintFixed64Field_tag_or_name d field) as [H|H]; [now left|].
    right; right. split; [left; discriminate | exact H].
  - unfold PrintLengthDelimitedField. cbn [output indents].
    destruct ((FieldDescriptor.type d =? TYPE_BYTES)
              || (FieldDescriptor.type d =? TYPE_STRING)) eqn:Estr.
    { intros [= <-]. right; right. split.
      - right. intros Hm. rewrite Hm in Estr. discriminate.
      - eexists. reflexivity. }
    destruct (Z.eqb_spec (FieldDescriptor.type d) TYPE_MESSAGE) as [Hmsg|_].
    2:{ intros [= <-]. left. eexists. reflexivity. }
    destruct fuel as [|fuel]; [discriminate|].
    rewrite (Internal_step _ _ _ _ _ _ _ (Internal_WellBehaved fuel cfg)).
    cbn [output indents].
    dcheck_cases; try discriminate.
    destruct (FindDescriptorIdx pool _) as [idx|]; [|discriminate].
    destruct (MapOutcome _ _) as [frags| | | |]; cbn [bind]; try discriminate.
    dcheck_cases; try discriminate.
    unfold FormattedFieldDescriptorName. rewrite Hext.
    destruct (NewLinesMode_eqb mode kIncludeNewLines); cbn [bind output indents].
    + rewrite DecreaseIndents_IncreaseIndents. cbn [bind output indents].
      intros [= <-]. right; left. split; [reflexivity|]. split; [exact Hmsg|].
      match goal with
      | |- context [(_ ++ JoinFragments ?a ?b ?c ?fr) ++ ?close] =>
          exists (JoinFragments a b c fr ++ close)
      end.
      rewrite !append_assoc. reflexivity.
    + intros [= <-]. right; left. split; [reflexivity|]. split; [exact Hmsg|].
      match goal with
      | |- context [(_ ++ JoinFragments ?a ?b ?c ?fr) ++ ?close] =>
          exists (JoinFragments a b c fr ++ close)
      end.
      rewrite !append_assoc. reflexivity.
  - intros [= <-].
    destruct (PrintFixed32Field_tag_or_name d field) as [H|H]; [now left|].
    right; right. split; [left; discriminate | exact H].
Qed.

(** An extension field of type [int32] under tag 1. *)
Definition fd_extension : FieldDescriptor.t :=
  {| FieldDescriptor.name := "ext"; FieldDescriptor.type := TYPE_INT32;
     FieldDescriptor.is_extension := true;
     FieldDescriptor.resolved_type_name := "" |}.

Definition Extended : ProtoDescriptor :=
  {| FindFieldByTag tag := if tag =? 1 then Some fd_extension else None;
     FindEnumString _ := None |}.

Lemma extension_field_names_witness :
  (exists v, "ext: 7" = Fmt.to_string 1 ++ ": " ++ v) \/
  (kVarInt = kLengthDelimited /\
   TYPE_INT32 = TYPE_MESSAGE /\
   exists v, "ext: 7" = "[perfetto.protos." ++ "ext" ++ "]: {" ++ v) \/
  ((kVarInt <> kLengthDelimited \/ TYPE_INT32 <> TYPE_MESSAGE) /\
   exists v, "ext: 7" = "ext" ++ ": " ++ v).
Proof.
  exact (extension_field_names WireFormat.decoder 1 Examples.debug_build
           Extended kIncludeNewLines Examples.pool "" (Examples.varint 1 7)
           fd_extension "ext: 7" eq_refl eq_refl eq_refl).
Defined.

(** ** The entry points built on the track-event schema *)

Module EntryPoints.

Section WithSchema.
Context {decoder : ProtoDecoder}.

(** Three things these functions take from outside the sources at hand are
    arguments here: the pool that [AddFromFileDescriptorSet] leaves behind
    when it has read [kTrackEventDescriptor], whether the status it returned
    is ok, and the default that the header gives [initial_indent_depth]. *)
Variables (cfg : BuildConfig) (pool : DescriptorPool) (status_ok : bool)
          (default_initial_indent_depth : Z).

Definition DebugTrackEventProtozeroToText (type : string)
    (protobytes : list byte) : Outcome string :=
  _ <- PERFETTO_DCHECK cfg status_ok ;;
  ProtozeroToText cfg pool type protobytes kIncludeNewLines
    default_initial_indent_depth.

Definition ShortDebugTrackEventProtozeroToText (type : string)
    (protobytes : list byte) : Outcome string :=
  _ <- PERFETTO_DCHECK cfg status_ok ;;
  ProtozeroToText cfg pool type protobytes kSkipNewLines
    default_initial_indent_depth.

(** [enum_value] is an [int32_t]. *)
Definition ProtozeroEnumToText (type : string) (enum_value : Z)
  : Outcome string :=
  _ <- PERFETTO_DCHECK cfg status_ok ;;
  match FindDescriptorIdx pool type with
  | None => Returned (Fmt.to_string enum_value)
  | Some enum_descriptor_idx =>
      match FindEnumString (descriptors pool enum_descriptor_idx) enum_value with
      | None => Returned (Fmt.to_string enum_value)
      | Some enum_string => Returned enum_string
      end
  end.

(** The two debug renderings of a message come to the same end: the short
    form returns when the long form does, and fails as it fails. *)
Theorem debug_forms_end_alike (type : string) (protobytes : list byte) :
  ending (DebugTrackEventProtozeroToText type protobytes)
  = ending (ShortDebugTrackEventProtozeroToText type protobytes).
Proof.
  unfold DebugTrackEventProtozeroToText, ShortDebugTrackEventProtozeroToText,
    ProtozeroToText.
  destruct (PERFETTO_DCHECK cfg status_ok); cbn [bind ending];
    try reflexivity.
  pose proof (Internal_ending (S (List.length protobytes)) cfg type protobytes
                kIncludeNewLines kSkipNewLines pool
                {| indents := initial_indent default_initial_indent_depth;
                   output := "" |}
                {| indents := initial_indent default_initial_indent_depth;
                   output := "" |}) as H.
  destruct (ProtozeroToTextInternal _ cfg type protobytes kIncludeNewLines pool _);
    destruct (ProtozeroToTextInternal _ cfg type protobytes kSkipNewLines pool _);
    cbn in *; congruence.
Qed.

(** The two renderers of enum values look the value up alike, under the
    varint truncated to a signed 32-bit integer.  Where the schema names the
    value they agree: [ProtozeroEnumToText] returns the name, and the field
    printer shows that name behind the name of the field.  Where the enum
    type is not in the pool, or does not name the value, they part:
    [ProtozeroEnumToText] returns the signed 32-bit value in decimal, the
    field printer the tag and the whole unsigned 64-bit value. *)
Theorem enum_renderers (d : FieldDescriptor.t) (field : Field.t)
    (out : string) :
  FieldDescriptor.type d = TYPE_ENUM ->
  status_ok = true ->
  let type_name := FieldDescriptor.resolved_type_name d in
  let value := Field.as_int32 field in
  (forall idx name,
      FindDescriptorIdx pool type_name = Some idx ->
      FindEnumString (descriptors pool idx) value = Some name ->
      ProtozeroEnumToText type_name value = Returned name /\
      PrintVarIntField (Some d) field pool out
      = out ++ FieldDescriptor.name d ++ ": " ++ name) /\
  (FindDescriptorIdx pool type_name = None \/
   (exists idx,
       FindDescriptorIdx pool type_name = Some idx /\
       FindEnumString (descriptors pool idx) value = None) ->
   ProtozeroEnumToText type_name value = Returned (Fmt.to_string value) /\
   PrintVarIntField (Some d) field pool out
   = out ++ Fmt.to_string (Field.id field) ++ ": "
         ++ Fmt.to_string (Field.as_uint64 field)).
Proof.
  intros Htype Hok type_name value.
  unfold ProtozeroEnumToText, PrintVarIntField.
  rewrite Htype, Hok, PERFETTO_DCHECK_true. cbn [bind].
  change (TYPE_ENUM =? TYPE_INT32) with false.
  change (TYPE_ENUM =? TYPE_SINT32) with false.
  change (TYPE_ENUM =? TYPE_UINT32) with false.
  change (TYPE_ENUM =? TYPE_INT64) with false.
  change (TYPE_ENUM =? TYPE_SINT64) with false.
  change (TYPE_ENUM =? TYPE_UINT64) with false.
  change (TYPE_ENUM =? TYPE_BOOL) with false.
  change (TYPE_ENUM =? TYPE_ENUM) with true.
  cbv iota. fold type_name value.
  split.
  - intros idx name Hidx Hname. rewrite Hidx, Hname. now split.
  - intros [Hnone | [idx [Hidx Hnone]]].
    + rewrite Hnone. now split.
    + rewrite Hidx, Hnone. now split.
Qed.

End WithSchema.

End EntryPoints.

Lemma enum_renderers_witness :
  (EntryPoints.ProtozeroEnumToText Examples.debug_build Examples.pool true
     "Color" (Field.as_int32 (Examples.varint 3 1)) = Returned "RED" /\
   PrintVarIntField (Some Examples.fd_color) (Examples.varint 3 1)
     Examples.pool "" = "" ++ "color" ++ ": " ++ "RED") /\
  (EntryPoints.ProtozeroEnumToText Examples.debug_build Examples.pool true
     "Color" (Field.as_int32 (Examples.varint 3 (2 ^ 32 - 1)))
   = Returned (Fmt.to_string (Field.as_int32 (Examples.varint 3 (2 ^ 32 - 1)))) /\
   PrintVarIntField (Some Examples.fd_color)
     (Examples.varint 3 (2 ^ 32 - 1)) Examples.pool ""
   = "" ++ Fmt.to_string 3 ++ ": "
        ++ Fmt.to_string (Field.as_uint64 (Examples.varint 3 (2 ^ 32 - 1)))).
Proof.
  split.
  - exact (proj1 (EntryPoints.enum_renderers Examples.debug_build
                    Examples.pool true Examples.fd_color
                    (Examples.varint 3 1) "" eq_refl eq_refl)
             2%nat "RED" eq_refl eq_refl).
  - exact (proj2 (EntryPoints.enum_renderers Examples.debug_build
                    Examples.pool true Examples.fd_color
                    (Examples.varint 3 (2 ^ 32 - 1)) "" eq_refl eq_refl)
             (or_intror (ex_intro _ 2%nat (conj eq_refl eq_refl)))).
Defined.

(** ** Rendering without a schema: the text keeps the records

    When the schema knows none of the tags of a message, every record is
    printed in the format of its wire type.  The four formats can be told
    apart, and each can be read back, so the text determines the records. *)

(** What a record carries, as the printer of its wire type reads it. *)
Inductive Payload :=
| Number (value : Z)
| Bytes (data : list byte).

Definition payload (field : Field.t) : Payload :=
  match Field.type field with
  | kVarInt => Number (Field.as_uint64 field)
  | kFixed64 => Number (Field.as_uint64 field)
  | kFixed32 => Number (Field.as_uint32 field)
  | kLengthDelimited => Bytes (Field.as_bytes field)
  end.

Definition same_record (f g : Field.t) : Prop :=
  Field.id f = Field.id g /\
  Field.type f = Field.type g /\
  payload f = payload g.

(** The value the four printers write for a field without descriptor. *)
Definition unknown_value (cfg : BuildConfig) (field : Field.t) : string :=
  match Field.type field with
  | kVarInt => Fmt.to_string (Field.as_uint64 field)
  | kFixed32 => "0x" ++ Fmt.hex_digits 8 (Field.as_uint32 field)
  | kFixed64 => "0x" ++ Fmt.hex_digits 16 (Field.as_uint64 field)
  | kLengthDelimited =>
      QuoteAndEscapeTextProtoString cfg (Field.as_std_string field)
  end.

Definition unknown_fragment (cfg : BuildConfig) (field : Field.t) : string :=
  Fmt.to_string (Field.id field) ++ ": " ++ unknown_value cfg field.

(** The characters of a decimal number. *)
Definition is_number_char (c : ascii) : bool :=
  let n := N_of_ascii c in ((n =? 45) || (48 <=? n) && (n <=? 57))%N.

(** [s] is empty or begins with a character outside of [p]. *)
Definition stops (p : ascii -> bool) (s : string) : bool :=
  match s with
  | "" => true
  | String c _ => negb (p c)
  end.

(** [s] is empty or begins with a line feed or a space: what follows the
    text of a field. *)
Definition ends_field (s : string) : bool :=
  match s with
  | "" => true
  | String c _ => Ascii.eqb c "010" || Ascii.eqb c " "
  end.

(** Reading a quoted literal from behind its opening quote up to the
    closing one: the bytes, and the text behind the closing quote. *)
Fixpoint read_literal (s : string) : option (string * string) :=
  let keep c r := option_map (fun '(raw, rest) => (String c raw, rest)) r in
  match s with
  | "" => None
  | String c rest =>
      if Ascii.eqb c DQUOTE then Some ("", rest)
      else if Ascii.eqb c "\" then
        match rest with
        | "" => None
        | String x rest1 =>
            match EscaperFacts.named_escape x with
            | Some c' => keep c' (read_literal rest1)
            | None =>
                match EscaperFacts.octal_value x, rest1 with
                | Some hi, String y (String z rest3) =>
                    match EscaperFacts.octal_value y,
                          EscaperFacts.octal_value z with
                    | Some mid, Some lo =>
                        keep (ascii_of_N (64 * hi + 8 * mid + lo))
                          (read_literal rest3)
                    | _, _ => None
                    end
                | _, _ => None
                end
            end
        end
      else keep c (read_literal rest)
  end.

Lemma append_inv_head (a x y : string) : a ++ x = a ++ y -> x = y.
Proof. induction a as [|c a IH]; cbn; [auto|]. intros [= H]. auto. Qed.

Lemma span_unique (p : ascii -> bool) (a b x y : string) :
  Hex.all_chars p a = true -> Hex.all_chars p b = true ->
  stops p x = true -> stops p y = true ->
  a ++ x = b ++ y -> a = b /\ x = y.
Proof.
  revert b. induction a as [|c a IH]; intros [|d b] Ha Hb Hx Hy H; cbn in *.
  - now split.
  - subst x. cbn in Hx. apply andb_prop in Hb. destruct Hb as [Hd _].
    rewrite Hd in Hx. discriminate.
  - subst y. cbn in Hy. apply andb_prop in Ha. destruct Ha as [Hc _].
    rewrite Hc in Hy. discriminate.
  - injection H as -> H.
    apply andb_prop in Ha. apply andb_prop in Hb.
    destruct (IH b (proj2 Ha) (proj2 Hb) Hx Hy H) as [-> ->]. now split.
Qed.

Lemma ends_field_stops (p : ascii -> bool) (t : string) :
  p "010"%char = false -> p " "%char = false ->
  ends_field t = true -> stops p t = true.
Proof.
  intros Hlf Hsp. destruct t as [|c t]; cbn; [reflexivity|].
  intros H. apply orb_prop in H.
  destruct H as [H | H]; apply Ascii.eqb_eq in H; subst c.
  - now rewrite Hlf.
  - now rewrite Hsp.
Qed.

Lemma string_of_uint_chars (d : Decimal.uint) :
  Hex.all_chars is_number_char (NilEmpty.string_of_uint d) = true.
Proof. induction d; cbn; auto. Qed.

Lemma to_string_chars (z : Z) :
  Hex.all_chars is_number_char (Fmt.to_string z) = true.
Proof.
  unfold Fmt.to_string, NilZero.string_of_int, NilZero.string_of_uint.
  destruct (Z.to_int z) as [d | d]; destruct d; cbn;
    try reflexivity; apply string_of_uint_chars.
Qed.

Lemma to_string_head (z : Z) : exists c s, Fmt.to_string z = String c s.
Proof.
  unfold Fmt.to_string, NilZero.string_of_int, NilZero.string_of_uint.
  destruct (Z.to_int z) as [d | d]; destruct d; cbn; eauto.
Qed.

Lemma to_string_inj (a b : Z) : Fmt.to_string a = Fmt.to_string b -> a = b.
Proof.
  unfold Fmt.to_string. intros H.
  apply (f_equal NilZero.int_of_string) in H.
  assert (Hnil : forall z, Z.to_int z <> Decimal.Pos Decimal.Nil /\
                           Z.to_int z <> Decimal.Neg Decimal.Nil).
  { intros [|p|p]; cbn; split; try discriminate;
      intros [= E]; now apply (DecimalPos.Unsigned.to_uint_nonnil p). }
  rewrite !NilZero.isi in H by apply Hnil.
  injection H as H. now apply DecimalZ.to_int_inj.
Qed.

Lemma number_unique (a b : Z) (t u : string) :
  ends_field t = true -> ends_field u = true ->
  Fmt.to_string a ++ t = Fmt.to_string b ++ u -> a = b /\ t = u.
Proof.
  intros Ht Hu H.
  apply (span_unique is_number_char) in H;
    try apply to_string_chars; try (now apply ends_field_stops).
  destruct H as [H ->]. split; [now apply to_string_inj | reflexivity].
Qed.

Lemma hex_unique (w : nat) (a b : Z) (t u : string) :
  0 <= a < 16 ^ Z.of_nat w -> 0 <= b < 16 ^ Z.of_nat w ->
  ends_field t = true -> ends_field u = true ->
  Fmt.hex_digits w a ++ t = Fmt.hex_digits w b ++ u -> a = b /\ t = u.
Proof.
  intros Ha Hb Ht Hu H.
  destruct (hex_digits_value w a) as [Hva Hca].
  destruct (hex_digits_value w b) as [Hvb Hcb].
  apply (span_unique Hex.is_lower_hex) in H;
    try assumption; try (now apply ends_field_stops).
  destruct H as [H ->]. split; [|reflexivity].
  rewrite H, Hvb in Hva. rewrite !Z.mod_small in Hva by assumption.
  now symmetry.
Qed.

Lemma hex_widths_differ (a b : Z) (t u : string) :
  ends_field t = true -> ends_field u = true ->
  Fmt.hex_digits 8 a ++ t <> Fmt.hex_digits 16 b ++ u.
Proof.
  intros Ht Hu H.
  apply (span_unique Hex.is_lower_hex) in H;
    try apply hex_digits_value; try (now apply ends_field_stops).
  destruct H as [H _]. apply (f_equal String.length) in H.
  rewrite !Fmt.length_hex_digits in H. discriminate.
Qed.

Lemma number_is_not_hex (a : Z) (digits t u : string) :
  ends_field t = true ->
  Fmt.to_string a ++ t <> ("0x" ++ digits) ++ u.
Proof.
  intros Ht H.
  change (("0x" ++ digits) ++ u) with ("0" ++ String "x" (digits ++ u)) in H.
  apply (span_unique is_number_char) in H;
    try apply to_string_chars; try reflexivity;
    try (now apply ends_field_stops).
  destruct H as [_ ->]. discriminate.
Qed.

Lemma number_is_not_quoted (a : Z) (body t : string) :
  Fmt.to_string a ++ t <> String DQUOTE body.
Proof.
  destruct (to_string_head a) as [c [s E]]. intros H.
  pose proof (to_string_chars a) as Hc. rewrite E in H, Hc.
  cbn in H, Hc. injection H as -> _. discriminate.
Qed.

Lemma read_literal_escape_case cfg c s :
  read_literal (escape_case cfg c ++ s)
  = option_map (fun '(raw, rest) => (String c raw, rest)) (read_literal s).
Proof.
  rewrite escape_case_spec.
  destruct c as [[|] [|] [|] [|] [|] [|] [|] [|]]; reflexivity.
Qed.

Lemma read_literal_escape_loop cfg raw tail :
  read_literal (escape_loop cfg raw "" ++ String DQUOTE tail)
  = Some (raw, tail).
Proof.
  induction raw as [|c rest IH]; [reflexivity|].
  rewrite EscaperFacts.escape_loop_cons, append_assoc,
    read_literal_escape_case, IH.
  reflexivity.
Qed.

Lemma quoted_unique cfg1 cfg2 (raw1 raw2 t u : string) :
  QuoteAndEscapeTextProtoString cfg1 raw1 ++ t
  = QuoteAndEscapeTextProtoString cfg2 raw2 ++ u ->
  raw1 = raw2 /\ t = u.
Proof.
  unfold QuoteAndEscapeTextProtoString. cbn [append]. intros [= H].
  rewrite !append_assoc in H. cbn [append] in H.
  apply (f_equal read_literal) in H.
  rewrite !read_literal_escape_loop in H. now injection H.
Qed.

Lemma string_of_list_byte_inj (a b : list byte) :
  string_of_list_byte a = string_of_list_byte b -> a = b.
Proof.
  intros H. apply (f_equal list_byte_of_string) in H.
  now rewrite !list_byte_of_string_of_list_byte in H.
Qed.

(** The text of one unknown field, with whatever follows it, gives the
    record back. *)
Lemma unknown_fragment_unique cfg1 cfg2 (f g : Field.t) (t u : string) :
  ends_field t = true -> ends_field u = true ->
  unknown_fragment cfg1 f ++ t = unknown_fragment cfg2 g ++ u ->
  same_record f g /\ t = u.
Proof.
  intros Ht Hu H. unfold unknown_fragment in H.
  rewrite !append_assoc in H.
  apply (span_unique is_number_char) in H;
    try apply to_string_chars; try reflexivity.
  destruct H as [Hid H]. apply to_string_inj in Hid.
  apply append_inv_head in H.
  pose proof (Z.mod_pos_bound (Field.int_value f) (2 ^ 32) ltac:(lia)) as Hf32.
  pose proof (Z.mod_pos_bound (Field.int_value g) (2 ^ 32) ltac:(lia)) as Hg32.
  pose proof (Z.mod_pos_bound (Field.int_value f) (2 ^ 64) ltac:(lia)) as Hf64.
  pose proof (Z.mod_pos_bound (Field.int_value g) (2 ^ 64) ltac:(lia)) as Hg64.
  unfold same_record, payload. unfold unknown_value in H.
  destruct (Field.type f), (Field.type g).
  - apply number_unique in H; [|assumption..]. destruct H as [-> ->]. auto.
  - now apply number_is_not_hex in H.
  - now apply number_is_not_quoted in H.
  - now apply number_is_not_hex in H.
  - symmetry in H. now apply number_is_not_hex in H.
  - rewrite !append_assoc in H. apply append_inv_head in H.
    apply (hex_unique 16) in H; [|assumption..]. destruct H as [-> ->]. auto.
  - discriminate H.
  - rewrite !append_assoc in H. apply append_inv_head in H.
    symmetry in H. now apply hex_widths_differ in H.
  - symmetry in H. now apply number_is_not_quoted in H.
  - discriminate H.
  - apply quoted_unique in H. destruct H as [H ->].
    apply string_of_list_byte_inj in H. unfold Field.as_bytes.
    rewrite H. auto.
  - discriminate H.
  - symmetry in H. now apply number_is_not_hex in H.
  - rewrite !append_assoc in H. apply append_inv_head in H.
    now apply hex_widths_differ in H.
  - discriminate H.
  - rewrite !append_assoc in H. apply append_inv_head in H.
    apply (hex_unique 8) in H; [|assumption..]. destruct H as [-> ->]. auto.
Qed.

Lemma unknown_fragment_nonempty cfg (f : Field.t) (t : string) :
  is_empty (unknown_fragment cfg f ++ t) = false.
Proof.
  unfold unknown_fragment. rewrite !append_assoc.
  now apply is_empty_append_r.
Qed.

Lemma JoinFragments_ends mode ind frags :
  ends_field (JoinFragments mode ind false frags) = true.
Proof. destruct frags, mode; reflexivity. Qed.

Lemma joined_fragments_unique cfg1 cfg2 mode ind (b : bool)
    (fs gs : list Field.t) :
  JoinFragments mode ind b (map (unknown_fragment cfg1) fs)
  = JoinFragments mode ind b (map (unknown_fragment cfg2) gs) ->
  Forall2 same_record fs gs.
Proof.
  revert b gs. induction fs as [|f fs IH]; intros b [|g gs] H.
  - constructor.
  - exfalso. cbn [map JoinFragments] in H.
    apply (f_equal is_empty) in H.
    rewrite is_empty_append_r in H by apply unknown_fragment_nonempty.
    discriminate.
  - exfalso. cbn [map JoinFragments] in H.
    apply (f_equal is_empty) in H.
    rewrite is_empty_append_r in H by apply unknown_fragment_nonempty.
    discriminate.
  - cbn [map JoinFragments] in H. apply append_inv_head in H.
    apply unknown_fragment_unique in H; try apply JoinFragments_ends.
    destruct H as [Hfg H]. constructor; [exact Hfg | exact (IH _ _ H)].
Qed.

Section Schemaless.
Context {decoder : ProtoDecoder}.

Lemma FieldFragment_unknown (rec : InternalFn) cfg pd mode pool ind field :
  FindFieldByTag pd (Field.id field) = None ->
  FieldFragment rec cfg pd mode pool ind field
  = Returned (unknown_fragment cfg field).
Proof.
  intros Hnone.
  pose proof (Z.mod_pos_bound (Field.int_value field) (2 ^ 32) ltac:(lia)).
  pose proof (Z.mod_pos_bound (Field.int_value field) (2 ^ 64) ltac:(lia)).
  unfold FieldFragment, DispatchField, unknown_fragment, unknown_value.
  rewrite Hnone. destruct (Field.type field); cbn [bind output].
  - reflexivity.
  - unfold PrintFixed64Field.
    rewrite printf_0x_fits by (cbn; assumption || lia).
    unfold Fmt.StackString. rewrite take_all; [reflexivity|].
    rewrite length_append, Fmt.length_hex_digits. cbn. lia.
  - reflexivity.
  - unfold PrintFixed32Field.
    rewrite printf_0x_fits by (cbn; assumption || lia).
    unfold Fmt.StackString. rewrite take_all; [reflexivity|].
    rewrite length_append, Fmt.length_hex_digits. cbn. lia.
Qed.

Lemma MapOutcome_unknown (rec : InternalFn) cfg pd mode pool ind fields :
  (forall tag, FindFieldByTag pd tag = None) ->
  MapOutcome (FieldFragment rec cfg pd mode pool ind) fields
  = Returned (map (unknown_fragment cfg) fields).
Proof.
  intros Hnone. induction fields as [|f rest IH]; [reflexivity|].
  cbn [MapOutcome map]. rewrite FieldFragment_unknown, IH by apply Hnone.
  reflexivity.
Qed.

(** Two spans that a schema without fields renders to the same text hold
    the same records: the same tags, wire types and payloads in the same
    order.  This holds in both layouts, and also when the two texts were
    made by different builds. *)
Theorem schemaless_text_keeps_the_records (cfg1 cfg2 : BuildConfig)
    (pool : DescriptorPool) (type : string) (idx : nat)
    (bytes1 bytes2 : list byte) (mode : NewLinesMode) (depth : Z)
    (text : string) :
  FindDescriptorIdx pool type = Some idx ->
  (forall tag, FindFieldByTag (descriptors pool idx) tag = None) ->
  ProtozeroToText cfg1 pool type bytes1 mode depth = Returned text ->
  ProtozeroToText cfg2 pool type bytes2 mode depth = Returned text ->
  Forall2 same_record (ReadFields bytes1) (ReadFields bytes2).
Proof.
  intros Hidx Hnone. unfold ProtozeroToText.
  rewrite (Internal_step _ _ _ _ _ _ _
             (Internal_WellBehaved (List.length bytes1) cfg1)).
  rewrite (Internal_step _ _ _ _ _ _ _
             (Internal_WellBehaved (List.length bytes2) cfg2)).
  rewrite Hidx, !MapOutcome_unknown by exact Hnone.
  cbn [indents output bind].
  destruct (PERFETTO_DCHECK_cases cfg1 true) as [-> | ->];
    cbn [bind]; [|discriminate].
  destruct (PERFETTO_DCHECK_cases cfg2 true) as [-> | ->];
    cbn [bind]; [|discriminate].
  destruct (PERFETTO_DCHECK_cases cfg1 (bytes_left bytes1 =? 0)%nat)
    as [-> | ->]; cbn [bind output]; [|discriminate].
  destruct (PERFETTO_DCHECK_cases cfg2 (bytes_left bytes2 =? 0)%nat)
    as [-> | ->]; cbn [bind output]; [|discriminate].
  intros [= H1] [= H2]. rewrite <- H2 in H1. cbn [append is_empty] in H1.
  exact (joined_fragments_unique _ _ _ _ _ _ _ H1).
Qed.

End Schemaless.

(** A pool whose only message type lists no field. *)
Definition Unlisted : ProtoDescriptor :=
  {| FindFieldByTag _ := None; FindEnumString _ := None |}.

Definition unlisted_pool : DescriptorPool :=
  {| FindDescriptorIdx name :=
       if String.eqb name "Unlisted" then Some 0%nat else None;
     descriptors _ := Unlisted |}.

(** The varint 7 in one byte and padded to two: different bytes, the same
    text [1: 7], the same record. *)
Lemma schemaless_text_keeps_the_records_witness :
  Forall2 same_record (ReadFields [x08; x07]) (ReadFields [x08; x87; x00]).
Proof.
  exact (schemaless_text_keeps_the_records
           Examples.debug_build Examples.release_build unlisted_pool
           "Unlisted" 0 [x08; x07] [x08; x87; x00] kIncludeNewLines 0 "1: 7"
           eq_refl (fun _ => eq_refl) eq_refl eq_refl).
Defined.

(** ** The single-line layout

    With [kSkipNewLines] the renderer itself never writes a line feed, and
    the escaper takes care of the ones in strings: a line feed can only come
    from a name of the schema. *)

Definition not_line_feed (c : ascii) : bool := negb (Ascii.eqb c "010").

Definition one_line (s : string) : bool := Hex.all_chars not_line_feed s.

(** No field name and no enum name of the pool holds a line feed. *)
Definition NamesOnOneLine (pool : DescriptorPool) : Prop :=
  forall idx,
    (forall tag d,
        FindFieldByTag (descriptors pool idx) tag = Some d ->
        one_line (FieldDescriptor.name d) = true) /\
    (forall value name,
        FindEnumString (descriptors pool idx) value = Some name ->
        one_line name = true).

Lemma all_chars_impl (p q : ascii -> bool) (s : string) :
  (forall c, p c = true -> q c = true) ->
  Hex.all_chars p s = true -> Hex.all_chars q s = true.
Proof.
  intros Hpq. induction s as [|c s IH]; cbn; [reflexivity|].
  intros H. apply andb_prop in H. destruct H as [Hc Hs].
  now rewrite (Hpq c Hc), IH.
Qed.

Lemma one_line_append (a b : string) :
  one_line (a ++ b) = one_line a && one_line b.
Proof. apply all_chars_append. Qed.

Lemma to_string_one_line (z : Z) : one_line (Fmt.to_string z) = true.
Proof.
  apply (all_chars_impl is_number_char); [|apply to_string_chars].
  intros c. destruct c as [[|] [|] [|] [|] [|] [|] [|] [|]];
    intros H; reflexivity || discriminate H.
Qed.

Lemma hex_digits_one_line (w : nat) (v : Z) :
  one_line (Fmt.hex_digits w v) = true.
Proof.
  apply (all_chars_impl Hex.is_lower_hex); [|apply hex_digits_value].
  intros c. destruct c as [[|] [|] [|] [|] [|] [|] [|] [|]];
    intros H; reflexivity || discriminate H.
Qed.

Lemma dec_digits_one_line (w : nat) (v : Z) :
  one_line (Fmt.dec_digits w v) = true.
Proof.
  apply (all_chars_impl DecimalText.is_digit); [|apply dec_digits_value].
  intros c. destruct c as [[|] [|] [|] [|] [|] [|] [|] [|]];
    intros H; reflexivity || discriminate H.
Qed.

Lemma Float_to_string_one_line (v : Float.value) :
  one_line (Float.to_string v) = true.
Proof.
  destruct v as [[|] | [|] | s m e]; try reflexivity.
  unfold Float.to_string.
  rewrite !one_line_append, to_string_one_line, dec_digits_one_line.
  now destruct s.
Qed.

Lemma quoted_one_line cfg (raw : string) :
  one_line (QuoteAndEscapeTextProtoString cfg raw) = true.
Proof.
  unfold QuoteAndEscapeTextProtoString, one_line. cbn [Hex.all_chars].
  rewrite all_chars_append. cbn. rewrite andb_true_r.
  induction raw as [|c rest IH]; [reflexivity|].
  rewrite EscaperFacts.escape_loop_cons, all_chars_append, IH, andb_true_r.
  apply (all_chars_impl EscaperFacts.is_printable);
    [|apply EscaperFacts.escape_case_printable].
  intros x. destruct x as [[|] [|] [|] [|] [|] [|] [|] [|]];
    intros H; reflexivity || discriminate H.
Qed.

Lemma padded_hex_one_line (N w : nat) (v : Z) :
  one_line (Fmt.StackString N ("0x" ++ Fmt.printf_0x w v)) = true.
Proof.
  unfold Fmt.StackString, Fmt.printf_0x.
  generalize (N - 1)%nat (Nat.max w (Fmt.num_hex_digits v)). intros n k.
  assert (H : one_line ("0x" ++ Fmt.hex_digits k v) = true)
    by (rewrite one_line_append, hex_digits_one_line; reflexivity).
  revert H. generalize ("0x" ++ Fmt.hex_digits k v). intros s. revert n.
  induction s as [|c s IH]; intros [|n] H; cbn in *; try reflexivity.
  apply andb_prop in H. destruct H as [Hc Hs].
  fold (one_line (take n s)). now rewrite Hc, (IH n Hs).
Qed.

Lemma replicate_one_line (n : nat) : one_line (replicate n " ") = true.
Proof. induction n as [|n IH]; cbn; [reflexivity | exact IH]. Qed.

Lemma bool_text_one_line (b : bool) : one_line (bool_text b) = true.
Proof. now destruct b. Qed.

Lemma one_line_String (c : ascii) (s : string) :
  one_line (String c s) = not_line_feed c && one_line s.
Proof. reflexivity. Qed.

Ltac one_line_parts :=
  repeat (rewrite one_line_String || rewrite one_line_append);
  rewrite ?to_string_one_line, ?Float_to_string_one_line,
    ?quoted_one_line, ?padded_hex_one_line, ?bool_text_one_line;
  cbn [andb];
  repeat match goal with
    | H : one_line ?s = true |- context [one_line ?s] => rewrite H
    end;
  try reflexivity.

Lemma PrintVarIntField_one_line fd field pool :
  NamesOnOneLine pool ->
  (forall d, fd = Some d -> one_line (FieldDescriptor.name d) = true) ->
  one_line (PrintVarIntField fd field pool "") = true.
Proof.
  intros Hpool Hfd. unfold PrintVarIntField.
  destruct fd as [d|]; [|now one_line_parts].
  pose proof (Hfd d eq_refl) as Hname.
  repeat match goal with
    | |- context [if ?c then _ else _] => destruct c; [now one_line_parts|]
    end.
  destruct (FieldDescriptor.type d =? TYPE_ENUM); [|now one_line_parts].
  destruct (FindDescriptorIdx pool _) as [idx|]; [|now one_line_parts].
  destruct (FindEnumString _ _) as [name|] eqn:E; [|now one_line_parts].
  apply (Hpool idx) in E. now one_line_parts.
Qed.

Lemma PrintFixed32Field_one_line fd field :
  (forall d, fd = Some d -> one_line (FieldDescriptor.name d) = true) ->
  one_line (PrintFixed32Field fd field "") = true.
Proof.
  intros Hfd. unfold PrintFixed32Field.
  destruct fd as [d|]; [|now one_line_parts].
  pose proof (Hfd d eq_refl) as Hname.
  split_ifs; now one_line_parts.
Qed.

Lemma PrintFixed64Field_one_line fd field :
  (forall d, fd = Some d -> one_line (FieldDescriptor.name d) = true) ->
  one_line (PrintFixed64Field fd field "") = true.
Proof.
  intros Hfd. unfold PrintFixed64Field.
  destruct fd as [d|]; [|now one_line_parts].
  pose proof (Hfd d eq_refl) as Hname.
  split_ifs; now one_line_parts.
Qed.

(** What the loop needs of the recursive call. *)
Definition KeepsOneLine (rec : InternalFn) : Prop :=
  forall type bytes pool ctx ctx',
    NamesOnOneLine pool ->
    one_line (indents ctx) = true -> one_line (output ctx) = true ->
    rec type bytes kSkipNewLines pool ctx = Returned ctx' ->
    one_line (output ctx') = true.

Lemma FieldFragment_one_line (rec : InternalFn) cfg pool idx ind field frag :
  KeepsOneLine rec -> NamesOnOneLine pool -> one_line ind = true ->
  FieldFragment rec cfg (descriptors pool idx) kSkipNewLines pool ind field
  = Returned frag ->
  one_line frag = true.
Proof.
  intros Hrec Hpool Hind. unfold FieldFragment, DispatchField.
  assert (Hfd : forall d,
             FindFieldByTag (descriptors pool idx) (Field.id field) = Some d ->
             one_line (FieldDescriptor.name d) = true)
    by (intros d; apply (Hpool idx)).
  destruct (Field.type field); cbn [bind output].
  - intros [= <-]. now apply PrintVarIntField_one_line.
  - intros [= <-]. now apply PrintFixed64Field_one_line.
  - unfold PrintLengthDelimitedField. cbn [output indents].
    destruct (FindFieldByTag _ _) as [d|];
      [|cbn [bind output]; intros [= <-]; now one_line_parts].
    pose proof (Hfd d eq_refl) as Hname.
    destruct ((FieldDescriptor.type d =? TYPE_BYTES)
              || (FieldDescriptor.type d =? TYPE_STRING));
      [cbn [bind output]; intros [= <-]; now one_line_parts|].
    destruct (FieldDescriptor.type d =? TYPE_MESSAGE);
      [|cbn [bind output]; intros [= <-]; now one_line_parts].
    cbn [NewLinesMode_eqb].
    destruct (rec _ _ _ _ _) as [ctx2| | | |] eqn:E; cbn [bind output];
      try discriminate.
    intros [= <-].
    apply Hrec in E; cbn [indents output]; try assumption.
    + now one_line_parts.
    + unfold FormattedFieldDescriptorName.
      destruct (FieldDescriptor.is_extension d); now one_line_parts.
  - intros [= <-]. now apply PrintFixed32Field_one_line.
Qed.

Lemma JoinFragments_one_line ind (b : bool) (frags : list string) :
  one_line ind = true ->
  Forall (fun frag => one_line frag = true) frags ->
  one_line (JoinFragments kSkipNewLines ind b frags) = true.
Proof.
  intros Hind Hfrags. revert b.
  induction Hfrags as [|frag frags Hfrag _ IH]; intros b; [reflexivity|].
  cbn [JoinFragments]. rewrite !one_line_append, Hfrag, IH.
  unfold FieldPrefix. destruct b; [now rewrite Hind|].
  change (Separator kSkipNewLines ++ ind) with (String " " ind).
  now rewrite one_line_String, Hind.
Qed.

Lemma MapOutcome_Forall {A B : Type} (f : A -> Outcome B) (P : B -> Prop)
    (xs : list A) (ys : list B) :
  (forall x y, f x = Returned y -> P y) ->
  MapOutcome f xs = Returned ys -> Forall P ys.
Proof.
  intros Hf. revert ys. induction xs as [|x rest IH]; intros ys; cbn.
  - intros [= <-]. constructor.
  - destruct (f x) as [y| | | |] eqn:Ex; cbn; try discriminate.
    destruct (MapOutcome f rest) as [ys'| | | |]; cbn; try discriminate.
    intros [= <-]. constructor; eauto.
Qed.

Section SingleLine.
Context {decoder : ProtoDecoder}.

Lemma Internal_one_line fuel cfg :
  KeepsOneLine (ProtozeroToTextInternal fuel cfg).
Proof.
  induction fuel as [|fuel IH];
    intros type bytes pool ctx ctx' Hpool Hind Hout; [discriminate|].
  rewrite (Internal_step _ _ _ _ _ _ _ (Internal_WellBehaved fuel cfg)).
  dcheck_cases; [|discriminate].
  destruct (FindDescriptorIdx pool type) as [idx|]; [|discriminate].
  destruct (MapOutcome _ _) as [frags| | | |] eqn:Emap; cbn; try discriminate.
  dcheck_cases; [|discriminate]. intros [= <-]. cbn [output].
  rewrite one_line_append, Hout. cbn [andb].
  apply JoinFragments_one_line; [exact Hind|].
  apply (MapOutcome_Forall _ _ _ _
           (fun f frag =>
              FieldFragment_one_line _ cfg pool idx (indents ctx) f frag
                IH Hpool Hind)
           Emap).
Qed.

(** A text in the single-line layout is one line: when no name of the
    schema holds a line feed, the text holds none, whatever the bytes. *)
Theorem single_line_text_is_one_line (cfg : BuildConfig)
    (pool : DescriptorPool) (type : string) (bytes : list byte) (depth : Z)
    (text : string) :
  NamesOnOneLine pool ->
  ProtozeroToText cfg pool type bytes kSkipNewLines depth = Returned text ->
  one_line text = true.
Proof.
  intros Hpool. unfold ProtozeroToText.
  destruct (ProtozeroToTextInternal _ _ _ _ _ _ _) as [ctx| | | |] eqn:E;
    cbn; try discriminate.
  intros [= <-].
  apply (Internal_one_line _ _ _ _ _ _ _ Hpool) in E; [exact E| |reflexivity].
  apply replicate_one_line.
Qed.

End SingleLine.

Lemma Examples_names_on_one_line : NamesOnOneLine Examples.pool.
Proof.
  intros [|[|idx]]; split; cbn.
  - intros tag d. destruct (tag =? 2); [intros [= <-]; reflexivity|discriminate].
  - discriminate.
  - intros tag d.
    destruct (tag =? 1); [intros [= <-]; reflexivity|].
    destruct (tag =? 3); [intros [= <-]; reflexivity|].
    destruct (tag =? 4); [intros [= <-]; reflexivity|].
    destruct (tag =? 5); [intros [= <-]; reflexivity|discriminate].
  - discriminate.
  - discriminate.
  - intros value name.
    destruct (value =? 1); [intros [= <-]; reflexivity|discriminate].
Qed.

Lemma single_line_text_is_one_line_witness :
  one_line "bar: { baz: 7 }" = true.
Proof.
  exact (single_line_text_is_one_line Examples.debug_build Examples.pool
           "Outer" Examples.outer_bytes 0 "bar: { baz: 7 }"
           Examples_names_on_one_line eq_refl).
Defined.

(** * The search controller

    A model of the TypeScript class [SearchController] of
    ui/src/controller/search_controller.ts.  A JavaScript string is the
    list of its UTF-16 code units; an object that is compared with [===] is
    known by its reference, and the objects themselves live in a store. *)

Module Search.

Definition JsString : Type := list N.

(** Modelled from the spec: [OmniboxState] of common/state.ts, which is not
    part of the sources at hand; the fields are the three that [run] reads,
    [force] being optional. *)
Inductive OmniboxMode := SEARCH | COMMAND.

Record OmniboxState := {
  mode : OmniboxMode;
  omnibox : JsString;
  force : option bool
}.

Definition Ref : Type := nat.

(** [globals.state.omniboxState]: a reference or [undefined], and the
    objects the references stand for. *)
Record Globals := {
  omniboxState : option Ref;
  objects : Ref -> OmniboxState
}.

(** The two private fields that [run] reads and writes. *)
Record Controller := {
  previousOmniboxState : option Ref;
  updateInProgress : bool
}.

(** The state the constructor leaves. *)
Definition constructed : Controller :=
  {| previousOmniboxState := None; updateInProgress := false |}.

(** What a call of [run] does to the world outside the controller: nothing,
    the publication of the empty result, or the start of
    [specificSearch]. *)
Inductive Effect :=
| Nothing
| PublishEmptyResult
| StartSpecificSearch (search : JsString).

(** [!x] for an optional boolean. *)
Definition not_truthy (x : option bool) : bool :=
  match x with Some true => false | _ => true end.

(** [this.previousOmniboxState === newOmniboxState] *)
Definition same_object (previous : option Ref) (r : Ref) : bool :=
  match previous with Some p => Nat.eqb p r | None => false end.

Definition run (g : Globals) (c : Controller) : Controller * Effect :=
  if updateInProgress c then (c, Nothing)
  else
    match omniboxState g with
    | None => (c, Nothing)
    | Some newOmniboxState =>
        match mode (objects g newOmniboxState) with
        | COMMAND => (c, Nothing)
        | SEARCH =>
            if same_object (previousOmniboxState c) newOmniboxState
            then (c, Nothing)
            else
              let c1 := {| previousOmniboxState := Some newOmniboxState;
                           updateInProgress := updateInProgress c |} in
              let search := omnibox (objects g newOmniboxState) in
              if (List.length search =? 0)%nat
                 || ((List.length search <? 4)%nat
                     && not_truthy (force (objects g newOmniboxState)))
              then (c1, PublishEmptyResult)
              else (c1, StartSpecificSearch search)
        end
    end.

(** The callback that [run] hands to [finally]: it runs when the search has
    settled, with the globals as they are by then. *)
Definition settled (g : Globals) (c : Controller) : Controller * Effect :=
  run g {| previousOmniboxState := previousOmniboxState c;
           updateInProgress := false |}.

(** The states a controller can be in: the one the constructor leaves, and
    those that calls of [run] and of the callback lead to. *)
Inductive Reachable : Controller -> Prop :=
| Reachable_constructed : Reachable constructed
| Reachable_run g c : Reachable c -> Reachable (fst (run g c))
| Reachable_settled g c : Reachable c -> Reachable (fst (settled g c)).

Lemma run_keeps_flag g c :
  updateInProgress (fst (run g c)) = updateInProgress c.
Proof.
  unfold run. destruct (updateInProgress c) eqn:E; [exact E|].
  destruct (omniboxState g) as [r|]; [|exact E].
  destruct (mode (objects g r)); [|exact E].
  destruct (same_object _ r); [exact E|].
  destruct (_ || _); reflexivity.
Qed.

Lemma Reachable_flag (c : Controller) :
  Reachable c -> updateInProgress c = false.
Proof.
  induction 1 as [|g c _ IH|g c _ IH].
  - reflexivity.
  - now rewrite run_keeps_flag.
  - unfold settled. now rewrite run_keeps_flag.
Qed.

(** Nothing ever sets [updateInProgress]: [run] leaves the flag as it finds
    it and the callback clears it.  So the flag is false in every state the
    controller can reach, also right after [run] has started a search, and
    the test at the head of [run] holds no call back while a search is
    under way. *)
Theorem updateInProgress_is_never_set (g : Globals) (c : Controller) :
  Reachable c ->
  updateInProgress c = false /\
  updateInProgress (fst (run g c)) = false.
Proof.
  intros H. split; [now apply Reachable_flag|].
  rewrite run_keeps_flag. now apply Reachable_flag.
Qed.

Lemma run_again (g : Globals) (c : Controller) :
  run g (fst (run g c)) = (fst (run g c), Nothing).
Proof.
  unfold run at 2 3. destruct (updateInProgress c) eqn:E.
  - cbn. unfold run. now rewrite E.
  - destruct (omniboxState g) as [r|] eqn:Er.
    2:{ cbn. unfold run. now rewrite E, Er. }
    destruct (mode (objects g r)) eqn:Em.
    2:{ cbn. unfold run. now rewrite E, Er, Em. }
    destruct (same_object (previousOmniboxState c) r) eqn:Es.
    { cbn. unfold run. now rewrite E, Er, Em, Es. }
    assert (Hsame : same_object (Some r) r = true) by (cbn; apply Nat.eqb_refl).
    destruct (_ || _); cbn [fst]; unfold run;
      cbn [updateInProgress previousOmniboxState];
      now rewrite Er, Em, Hsame.
Qed.

(** While the globals stay as they are, one call of [run] is enough: a
    second call does nothing and leaves the controller as it is, and so
    does the callback that runs when the search has settled, which
    therefore does not start the same search again. *)
Theorem unchanged_globals_need_no_second_run (g : Globals) (c : Controller) :
  run g (fst (run g c)) = (fst (run g c), Nothing) /\
  (Reachable c -> settled g (fst (run g c)) = (fst (run g c), Nothing)).
Proof.
  split; [apply run_again|].
  intros H. unfold settled.
  assert (Hflag : updateInProgress (fst (run g c)) = false)
    by (rewrite run_keeps_flag; now apply Reachable_flag).
  replace {| previousOmniboxState := previousOmniboxState (fst (run g c));
             updateInProgress := false |} with (fst (run g c)).
  - apply run_again.
  - destruct (fst (run g c)) as [prev flag]. cbn in Hflag. now subst flag.
Qed.

(** For an omnibox object in search mode that the controller has not seen,
    [run] starts a search exactly when the text has four code units or
    more, or is forced and not empty; otherwise it publishes the empty
    result.  An empty text is never searched, forced or not. *)
Theorem run_on_new_text (g : Globals) (c : Controller) (r : Ref) :
  Reachable c ->
  omniboxState g = Some r ->
  mode (objects g r) = SEARCH ->
  previousOmniboxState c <> Some r ->
  let search := omnibox (objects g r) in
  previousOmniboxState (fst (run g c)) = Some r /\
  ((search <> [] /\
    ((4 <= List.length search)%nat \/ force (objects g r) = Some true) /\
    snd (run g c) = StartSpecificSearch search) \/
   ((search = [] \/
     ((List.length search < 4)%nat /\ force (objects g r) <> Some true)) /\
    snd (run g c) = PublishEmptyResult)).
Proof.
  intros Hreach Hstate Hmode Hnew search.
  apply Reachable_flag in Hreach as Hflag.
  unfold run. rewrite Hflag, Hstate, Hmode.
  assert (Hdiff : same_object (previousOmniboxState c) r = false).
  { unfold same_object. destruct (previousOmniboxState c) as [p|]; [|reflexivity].
    apply Nat.eqb_neq. intros ->. now apply Hnew. }
  rewrite Hdiff. fold search.
  destruct (List.length search =? 0)%nat eqn:Eempty; cbn [orb].
  - split; [reflexivity|]. right. split; [|reflexivity].
    left. apply Nat.eqb_eq in Eempty. now destruct search.
  - apply Nat.eqb_neq in Eempty.
    assert (Hne : search <> []) by (intros Heq; rewrite Heq in Eempty; now apply Eempty).
    destruct (List.length search <? 4)%nat eqn:Eshort; cbn [andb].
    + apply Nat.ltb_lt in Eshort.
      destruct (force (objects g r)) as [[|]|] eqn:Ef; cbn.
      * split; [reflexivity|]. left. auto.
      * split; [reflexivity|]. right. split; [|reflexivity].
        right. split; [exact Eshort | discriminate].
      * split; [reflexivity|]. right. split; [|reflexivity].
        right. split; [exact Eshort | discriminate].
    + apply Nat.ltb_ge in Eshort.
      split; [reflexivity|]. left. auto.
Qed.

End Search.

(** An omnibox object holding the three code units of [abc], forced. *)
Definition forced_abc : Search.Globals :=
  {| Search.omniboxState := Some 7%nat;
     Search.objects _ :=
       {| Search.mode := Search.SEARCH;
          Search.omnibox := [97; 98; 99]%N;
          Search.force := Some true |} |}.

Lemma updateInProgress_is_never_set_witness :
  Search.updateInProgress Search.constructed = false /\
  Search.updateInProgress (fst (Search.run forced_abc Search.constructed))
  = false.
Proof.
  exact (Search.updateInProgress_is_never_set forced_abc Search.constructed
           Search.Reachable_constructed).
Defined.

Lemma unchanged_globals_need_no_second_run_witness :
  Search.settled forced_abc (fst (Search.run forced_abc Search.constructed))
  = (fst (Search.run forced_abc Search.constructed), Search.Nothing).
Proof.
  exact (proj2 (Search.unchanged_globals_need_no_second_run forced_abc
                  Search.constructed) Search.Reachable_constructed).
Defined.

Lemma run_on_new_text_witness :
  snd (Search.run forced_abc Search.constructed)
  = Search.StartSpecificSearch [97; 98; 99]%N.
Proof.
  destruct (Search.run_on_new_text forced_abc Search.constructed 7%nat
              Search.Reachable_constructed eq_refl eq_refl
              ltac:(discriminate)) as [_ [[_ [_ H]] | [_ H]]].
  - exact H.
  - discriminate H.
Defined.

(** ** The results of a search

    [specificSearch] from the point where its two queries have answered:
    the indexes of track URIs, the tracks whose name holds the text, and
    the loop over the rows of the second query.  The queries themselves are
    the engine's affair; their rows are an argument. *)

Module SearchResults.
Import Search.
#[local] Open Scope list_scope.

Section Model.

(** A JavaScript number, with the two constants the code writes and the
    equality under which a [Map] compares its keys. *)
Variable number : Type.
Variables (zero minus_one : number).
Variable same_value_zero : number -> number -> bool.

(** [String.prototype.toLowerCase] and [String.prototype.indexOf], and the
    two constants of core/track_kinds.ts, which are not part of the sources
    at hand. *)
Variable toLowerCase : JsString -> JsString.
Variable indexOf : JsString -> JsString -> Z.
Variables (CPU_SLICE_TRACK_KIND ANDROID_LOGS_TRACK_KIND : string).

Record Tags := {
  cpu : option number;
  kind : option string;
  trackIds : option (list number)
}.

(** An element of [globals.trackManager.getAllTracks()]. *)
Record TrackDescriptor := {
  uri : string;
  tags : option Tags
}.

(** An element of [globals.workspace.flatTracks]. *)
Record TrackNode := {
  displayName : JsString;
  node_uri : string
}.

(** A row of the second query. *)
Record Row := {
  sliceId : number;
  ts : Z;                 (* a bigint *)
  source : string;
  sourceId : number;
  utid : number
}.

Record CurrentSearchResults := {
  eventIds : list number;         (* Float64Array *)
  tses : list Z;                  (* BigInt64Array *)
  utids : list number;            (* Float64Array *)
  sources : list string;
  trackUris : list string;
  totalResults : nat
}.

(** A [Map<number, string>], by what [get] returns. *)
Definition NumberMap : Type := number -> option string.

Definition Map_empty : NumberMap := fun _ => None.

Definition Map_set (key : number) (value : string) (m : NumberMap) : NumberMap :=
  fun k => if same_value_zero k key then Some value else m k.

(** [arr[i] = v] on a typed array: a write past the end is dropped. *)
Fixpoint store {A : Type} (i : nat) (v : A) (arr : list A) : list A :=
  match arr, i with
  | [], _ => []
  | _ :: rest, O => v :: rest
  | x :: rest, S i' => x :: store i' v rest
  end.

(** The element a [BigInt64Array] keeps of a bigint. *)
Definition asInt64 (v : Z) : Z := (v + 2 ^ 63) mod 2 ^ 64 - 2 ^ 63.

Definition kind_is (k : string) (td : TrackDescriptor) : bool :=
  match tags td with
  | Some t => match kind t with Some k' => String.eqb k' k | None => false end
  | None => false
  end.

(** The first [forEach]: CPU slice tracks by their CPU. *)
Definition trackUrisByCpu (allTracks : list TrackDescriptor) : NumberMap :=
  fold_left
    (fun m td =>
       match tags td with
       | Some t =>
           match cpu t with
           | Some c =>
               if kind_is CPU_SLICE_TRACK_KIND td then Map_set c (uri td) m
               else m
           | None => m
           end
       | None => m
       end)
    allTracks Map_empty.

(** The second [forEach]: tracks by each of their track ids. *)
Definition trackUrisByTrackId (allTracks : list TrackDescriptor) : NumberMap :=
  fold_left
    (fun m td =>
       match tags td with
       | Some t =>
           match trackIds t with
           | Some ids =>
               fold_left (fun m' trackId => Map_set trackId (uri td) m') ids m
           | None => m
           end
       | None => m
       end)
    allTracks Map_empty.

(** [getAllTracks().find(...)?.uri] for the Android log track. *)
Definition logTrackUri (allTracks : list TrackDescriptor) : option string :=
  option_map uri (find (kind_is ANDROID_LOGS_TRACK_KIND) allTracks).

Definition initialResults : CurrentSearchResults :=
  {| eventIds := []; tses := []; utids := [];
     sources := []; trackUris := []; totalResults := 0 |}.

(** The loop over [flatTracks]. *)
Fixpoint tracksLoop (lowerSearch : JsString) (tracks : list TrackNode)
    (r : CurrentSearchResults) : CurrentSearchResults :=
  match tracks with
  | [] => r
  | track :: rest =>
      if indexOf (toLowerCase (displayName track)) lowerSearch =? -1
      then tracksLoop lowerSearch rest r
      else
        tracksLoop lowerSearch rest
          {| eventIds := eventIds r; tses := tses r; utids := utids r;
             sources := sources r ++ ["track"];
             trackUris := trackUris r ++ [node_uri track];
             totalResults := S (totalResults r) |}
  end.

(** The three typed arrays, made anew with room for the tracks found and
    for every row. *)
Definition allocate (rows : nat) (r : CurrentSearchResults)
  : CurrentSearchResults :=
  {| eventIds := repeat zero (totalResults r + rows);
     tses := repeat 0 (totalResults r + rows);
     utids := repeat zero (totalResults r + rows);
     sources := sources r; trackUris := trackUris r;
     totalResults := totalResults r |}.

(** [for (let i = 0; i < searchResults.totalResults; ++i)], with [count]
    rounds to go from [i]. *)
Fixpoint fillLoop (count i : nat) (r : CurrentSearchResults)
  : CurrentSearchResults :=
  match count with
  | O => r
  | S count' =>
      fillLoop count' (S i)
        {| eventIds := store i minus_one (eventIds r);
           tses := store i (asInt64 (-1)) (tses r);
           utids := store i minus_one (utids r);
           sources := sources r; trackUris := trackUris r;
           totalResults := totalResults r |}
  end.

(** The track of a row, or [undefined]. *)
Definition trackOf (byCpu byTrackId : NumberMap) (logTrack : option string)
    (it : Row) : option string :=
  if String.eqb (source it) "cpu" then byCpu (sourceId it)
  else if String.eqb (source it) "slice" then byTrackId (sourceId it)
  else if String.eqb (source it) "log" then logTrack
  else None.

Fixpoint rowsLoop (byCpu byTrackId : NumberMap) (logTrack : option string)
    (rows : list Row) (r : CurrentSearchResults) : CurrentSearchResults :=
  match rows with
  | [] => r
  | it :: rest =>
      match trackOf byCpu byTrackId logTrack it with
      | None => rowsLoop byCpu byTrackId logTrack rest r
      | Some track =>
          let i := totalResults r in
          rowsLoop byCpu byTrackId logTrack rest
            {| eventIds := store i (sliceId it) (eventIds r);
               tses := store i (asInt64 (ts it)) (tses r);
               utids := store i (utid it) (utids r);
               sources := sources r ++ [source it];
               trackUris := trackUris r ++ [track];
               totalResults := S i |}
      end
  end.

(** [specificSearch] from the answer of its second query on.
    [tracksBefore] is what [getAllTracks()] returns when the function
    starts, [tracksAfter] what it returns when the rows are gone through,
    after the two awaits. *)
Definition specificSearch (search : JsString)
    (tracksBefore tracksAfter : list TrackDescriptor)
    (flatTracks : list TrackNode) (rows : list Row) : CurrentSearchResults :=
  let byCpu := trackUrisByCpu tracksBefore in
  let byTrackId := trackUrisByTrackId tracksBefore in
  let lowerSearch := toLowerCase search in
  let r1 := tracksLoop lowerSearch flatTracks initialResults in
  let r2 := allocate (List.length rows) r1 in
  let r3 := fillLoop (totalResults r2) 0 r2 in
  rowsLoop byCpu byTrackId (logTrackUri tracksAfter) rows r3.

(** *** What the loops leave *)

(** The tracks whose lowercased name holds the lowercased text. *)
Definition nameHolds (lowerSearch : JsString) (track : TrackNode) : bool :=
  negb (indexOf (toLowerCase (displayName track)) lowerSearch =? -1).

(** The rows that have a track, each with its track, in the order of the
    rows. *)
Fixpoint resolved (byCpu byTrackId : NumberMap) (logTrack : option string)
    (rows : list Row) : list (Row * string) :=
  match rows with
  | [] => []
  | it :: rest =>
      match trackOf byCpu byTrackId logTrack it with
      | Some track => (it, track) :: resolved byCpu byTrackId logTrack rest
      | None => resolved byCpu byTrackId logTrack rest
      end
  end.

(** A CPU slice track of the CPU [c]. *)
Definition isCpuTrackOf (c : number) (td : TrackDescriptor) : bool :=
  match tags td with
  | Some t =>
      match cpu t with
      | Some c' => same_value_zero c c' && kind_is CPU_SLICE_TRACK_KIND td
      | None => false
      end
  | None => false
  end.

Lemma length_store {A : Type} (i : nat) (v : A) (arr : list A) :
  List.length (store i v arr) = List.length arr.
Proof.
  revert i. induction arr as [|x arr IH]; intros [|i]; cbn; auto.
Qed.

Lemma store_middle {A : Type} (pre : list A) (v x : A) (post : list A) :
  store (List.length pre) v (pre ++ x :: post) = pre ++ v :: post.
Proof. induction pre as [|y pre IH]; cbn; [reflexivity | now rewrite IH]. Qed.

Lemma repeat_snoc {A : Type} (x : A) (n : nat) :
  repeat x n ++ [x] = x :: repeat x n.
Proof. induction n as [|n IH]; cbn; [reflexivity | now rewrite IH]. Qed.

Lemma tracksLoop_spec lowerSearch tracks r :
  let found := filter (nameHolds lowerSearch) tracks in
  tracksLoop lowerSearch tracks r
  = {| eventIds := eventIds r; tses := tses r; utids := utids r;
       sources := sources r ++ repeat "track" (List.length found);
       trackUris := trackUris r ++ map node_uri found;
       totalResults := totalResults r + List.length found |}.
Proof.
  revert r. induction tracks as [|track rest IH]; intros r.
  - cbn. rewrite !app_nil_r, Nat.add_0_r. now destruct r.
  - cbn [tracksLoop filter].
    replace (nameHolds lowerSearch track)
      with (negb (indexOf (toLowerCase (displayName track)) lowerSearch =? -1))
      by reflexivity.
    destruct (indexOf (toLowerCase (displayName track)) lowerSearch =? -1);
      cbn [negb]; rewrite IH;
      cbn [eventIds tses utids sources trackUris totalResults].
    + reflexivity.
    + rewrite <- !app_assoc. cbn [app repeat map List.length].
      now rewrite Nat.add_succ_r.
Qed.

Lemma fillLoop_spec count :
  forall i r pre_e pre_t pre_u k,
    List.length pre_e = i -> List.length pre_t = i -> List.length pre_u = i ->
    eventIds r = pre_e ++ repeat zero (count + k) ->
    tses r = pre_t ++ repeat 0 (count + k) ->
    utids r = pre_u ++ repeat zero (count + k) ->
    fillLoop count i r
    = {| eventIds := pre_e ++ repeat minus_one count ++ repeat zero k;
         tses := pre_t ++ repeat (-1) count ++ repeat 0 k;
         utids := pre_u ++ repeat minus_one count ++ repeat zero k;
         sources := sources r; trackUris := trackUris r;
         totalResults := totalResults r |}.
Proof.
  induction count as [|count IH]; intros i r pre_e pre_t pre_u k He Ht Hu Ee Et Eu.
  - cbn in *. rewrite <- Ee, <- Et, <- Eu. now destruct r.
  - cbn [fillLoop].
    rewrite (IH (S i) _ (pre_e ++ [minus_one]) (pre_t ++ [-1])
               (pre_u ++ [minus_one]) k);
      cbn [eventIds tses utids sources trackUris totalResults];
      rewrite ?length_app; cbn [List.length]; try lia.
    + rewrite <- !app_assoc. reflexivity.
    + rewrite Ee, <- He. cbn [plus repeat].
      rewrite store_middle, <- app_assoc. reflexivity.
    + rewrite Et, <- Ht. cbn [plus repeat].
      rewrite store_middle, <- app_assoc. reflexivity.
    + rewrite Eu, <- Hu. cbn [plus repeat].
      rewrite store_middle, <- app_assoc. reflexivity.
Qed.

Lemma length_resolved byCpu byTrackId logTrack rows :
  (List.length (resolved byCpu byTrackId logTrack rows) <= List.length rows)%nat.
Proof.
  induction rows as [|it rest IH]; cbn; [lia|].
  destruct (trackOf byCpu byTrackId logTrack it); cbn; lia.
Qed.

Lemma rowsLoop_spec byCpu byTrackId logTrack rows :
  forall r pre_e pre_t pre_u room,
    List.length pre_e = totalResults r ->
    List.length pre_t = totalResults r ->
    List.length pre_u = totalResults r ->
    eventIds r = pre_e ++ repeat zero room ->
    tses r = pre_t ++ repeat 0 room ->
    utids r = pre_u ++ repeat zero room ->
    (List.length rows <= room)%nat ->
    let res := resolved byCpu byTrackId logTrack rows in
    rowsLoop byCpu byTrackId logTrack rows r
    = {| eventIds := pre_e ++ map (fun p => sliceId (fst p)) res
                       ++ repeat zero (room - List.length res);
         tses := pre_t ++ map (fun p => asInt64 (ts (fst p))) res
                   ++ repeat 0 (room - List.length res);
         utids := pre_u ++ map (fun p => utid (fst p)) res
                    ++ repeat zero (room - List.length res);
         sources := sources r ++ map (fun p => source (fst p)) res;
         trackUris := trackUris r ++ map snd res;
         totalResults := totalResults r + List.length res |}.
Proof.
  induction rows as [|it rest IH];
    intros r pre_e pre_t pre_u room He Ht Hu Ee Et Eu Hroom; cbn.
  - rewrite !app_nil_r, Nat.add_0_r, Nat.sub_0_r.
    rewrite <- Ee, <- Et, <- Eu. now destruct r.
  - cbn in Hroom.
    destruct (trackOf byCpu byTrackId logTrack it) as [track|].
    + destruct room as [|room]; [lia|].
      rewrite (IH _ (pre_e ++ [sliceId it]) (pre_t ++ [asInt64 (ts it)])
                 (pre_u ++ [utid it]) room);
        cbn [eventIds tses utids sources trackUris totalResults];
        rewrite ?length_app; cbn [List.length]; try lia.
      * rewrite <- !app_assoc. cbn. now rewrite Nat.add_succ_r.
      * rewrite Ee, <- He. cbn [repeat].
        rewrite store_middle, <- app_assoc. reflexivity.
      * rewrite Et, <- Ht. cbn [repeat].
        rewrite store_middle, <- app_assoc. reflexivity.
      * rewrite Eu, <- Hu. cbn [repeat].
        rewrite store_middle, <- app_assoc. reflexivity.
    + apply IH; auto. lia.
Qed.

Lemma specificSearch_spec search tracksBefore tracksAfter flatTracks rows :
  let found := filter (nameHolds (toLowerCase search)) flatTracks in
  let res := resolved (trackUrisByCpu tracksBefore)
               (trackUrisByTrackId tracksBefore) (logTrackUri tracksAfter)
               rows in
  let dropped := (List.length rows - List.length res)%nat in
  specificSearch search tracksBefore tracksAfter flatTracks rows
  = {| eventIds := repeat minus_one (List.length found)
                     ++ map (fun p => sliceId (fst p)) res
                     ++ repeat zero dropped;
       tses := repeat (-1) (List.length found)
                 ++ map (fun p => asInt64 (ts (fst p))) res
                 ++ repeat 0 dropped;
       utids := repeat minus_one (List.length found)
                  ++ map (fun p => utid (fst p)) res
                  ++ repeat zero dropped;
       sources := repeat "track" (List.length found)
                    ++ map (fun p => source (fst p)) res;
       trackUris := map node_uri found ++ map snd res;
       totalResults := List.length found + List.length res |}.
Proof.
  intros found res dropped. unfold specificSearch.
  rewrite tracksLoop_spec. fold found. cbn [initialResults app].
  unfold allocate.
  cbn [eventIds tses utids sources trackUris totalResults plus].
  rewrite (fillLoop_spec (List.length found) 0 _ [] [] [] (List.length rows));
    cbn [eventIds tses utids sources trackUris totalResults app];
    try reflexivity.
  rewrite (rowsLoop_spec _ _ _ rows _
             (repeat minus_one (List.length found))
             (repeat (-1) (List.length found))
             (repeat minus_one (List.length found)) (List.length rows));
    cbn [eventIds tses utids sources trackUris totalResults];
    rewrite ?repeat_length; try reflexivity; lia.
Qed.

(** A track that lists [id] among its track ids. *)
Definition hasTrackId (id : number) (td : TrackDescriptor) : bool :=
  match tags td with
  | Some t =>
      match trackIds t with
      | Some ids => existsb (same_value_zero id) ids
      | None => false
      end
  | None => false
  end.

Lemma trackUrisByCpu_from (tracks : list TrackDescriptor) (m : NumberMap) c :
  fold_left
    (fun m td =>
       match tags td with
       | Some t =>
           match cpu t with
           | Some c =>
               if kind_is CPU_SLICE_TRACK_KIND td then Map_set c (uri td) m
               else m
           | None => m
           end
       | None => m
       end)
    tracks m c
  = match find (isCpuTrackOf c) (rev tracks) with
    | Some td => Some (uri td)
    | None => m c
    end.
Proof.
  induction tracks as [|td tracks IH] using rev_ind; [reflexivity|].
  rewrite fold_left_app, rev_app_distr. cbn [fold_left rev app find].
  unfold isCpuTrackOf at 1.
  destruct (tags td) as [t|]; [|apply IH].
  destruct (cpu t) as [c'|]; [|apply IH].
  destruct (kind_is CPU_SLICE_TRACK_KIND td).
  - unfold Map_set at 1. rewrite andb_true_r.
    destruct (same_value_zero c c'); [reflexivity | apply IH].
  - rewrite andb_false_r. apply IH.
Qed.

Lemma set_each_id (ids : list number) (u : string) (m : NumberMap) id :
  fold_left (fun m' trackId => Map_set trackId u m') ids m id
  = if existsb (same_value_zero id) ids then Some u else m id.
Proof.
  revert m. induction ids as [|x ids IH]; intros m; [reflexivity|].
  cbn [fold_left existsb]. rewrite IH. unfold Map_set.
  destruct (existsb (same_value_zero id) ids); [now rewrite orb_true_r|].
  rewrite orb_false_r. reflexivity.
Qed.

Lemma trackUrisByTrackId_from (tracks : list TrackDescriptor) (m : NumberMap) id :
  fold_left
    (fun m td =>
       match tags td with
       | Some t =>
           match trackIds t with
           | Some ids =>
               fold_left (fun m' trackId => Map_set trackId (uri td) m') ids m
           | None => m
           end
       | None => m
       end)
    tracks m id
  = match find (hasTrackId id) (rev tracks) with
    | Some td => Some (uri td)
    | None => m id
    end.
Proof.
  induction tracks as [|td tracks IH] using rev_ind; [reflexivity|].
  rewrite fold_left_app, rev_app_distr. cbn [fold_left rev app find].
  unfold hasTrackId at 1.
  destruct (tags td) as [t|]; [|apply IH].
  destruct (trackIds t) as [ids|]; [|apply IH].
  rewrite set_each_id.
  destruct (existsb (same_value_zero id) ids); [reflexivity | apply IH].
Qed.

(** *** Properties of the results *)

(** The results list the tracks whose name holds the text and then, in the
    order of the rows, the rows that have a track.  A row without a track is
    left out of the lists and of the count, but the typed arrays were given
    room for every row, so they end in one zero for each row left out. *)
Theorem search_results_contents (search : JsString)
    (tracksBefore tracksAfter : list TrackDescriptor)
    (flatTracks : list TrackNode) (rows : list Row) :
  let found := filter (nameHolds (toLowerCase search)) flatTracks in
  let res := resolved (trackUrisByCpu tracksBefore)
               (trackUrisByTrackId tracksBefore) (logTrackUri tracksAfter)
               rows in
  let dropped := (List.length rows - List.length res)%nat in
  specificSearch search tracksBefore tracksAfter flatTracks rows
  = {| eventIds := repeat minus_one (List.length found)
                     ++ map (fun p => sliceId (fst p)) res
                     ++ repeat zero dropped;
       tses := repeat (-1) (List.length found)
                 ++ map (fun p => asInt64 (ts (fst p))) res
                 ++ repeat 0 dropped;
       utids := repeat minus_one (List.length found)
                  ++ map (fun p => utid (fst p)) res
                  ++ repeat zero dropped;
       sources := repeat "track" (List.length found)
                    ++ map (fun p => source (fst p)) res;
       trackUris := map node_uri found ++ map snd res;
       totalResults := List.length found + List.length res |}.
Proof. apply specificSearch_spec. Qed.

(** The two lists have one entry for each result counted, and the three
    typed arrays have the same length, which is the number of tracks found
    plus the number of rows and so at least the count: an index below
    [totalResults] is good in all five. *)
Theorem search_results_are_aligned (search : JsString)
    (tracksBefore tracksAfter : list TrackDescriptor)
    (flatTracks : list TrackNode) (rows : list Row) :
  let r := specificSearch search tracksBefore tracksAfter flatTracks rows in
  let found := filter (nameHolds (toLowerCase search)) flatTracks in
  List.length (sources r) = totalResults r /\
  List.length (trackUris r) = totalResults r /\
  List.length (eventIds r) = (List.length found + List.length rows)%nat /\
  List.length (tses r) = List.length (eventIds r) /\
  List.length (utids r) = List.length (eventIds r) /\
  (totalResults r <= List.length (eventIds r))%nat.
Proof.
  intros r found. subst r. rewrite specificSearch_spec. fold found.
  cbn [eventIds tses utids sources trackUris totalResults].
  pose proof (length_resolved (trackUrisByCpu tracksBefore)
                (trackUrisByTrackId tracksBefore) (logTrackUri tracksAfter)
                rows) as Hle.
  rewrite !length_app, !length_map, !repeat_length.
  repeat split; lia.
Qed.

(** Every source in the results is one of the four the result type knows:
    a row with any other source has no track and is left out. *)
Theorem search_sources_are_known (search : JsString)
    (tracksBefore tracksAfter : list TrackDescriptor)
    (flatTracks : list TrackNode) (rows : list Row) :
  Forall (fun s => s = "track" \/ s = "cpu" \/ s = "slice" \/ s = "log")
    (sources (specificSearch search tracksBefore tracksAfter flatTracks rows)).
Proof.
  rewrite specificSearch_spec. cbn [sources].
  apply Forall_app. split.
  - apply Forall_forall. intros s Hs. apply repeat_spec in Hs. now left.
  - generalize (trackUrisByCpu tracksBefore) (trackUrisByTrackId tracksBefore)
      (logTrackUri tracksAfter). intros byCpu byTrackId logTrack.
    induction rows as [|it rest IH]; cbn; [constructor|].
    destruct (trackOf byCpu byTrackId logTrack it) as [track|] eqn:E; [|exact IH].
    cbn. constructor; [|exact IH].
    unfold trackOf in E.
    destruct (String.eqb_spec (source it) "cpu") as [->|_]; [auto|].
    destruct (String.eqb_spec (source it) "slice") as [->|_]; [auto|].
    destruct (String.eqb_spec (source it) "log") as [->|_]; [auto|].
    discriminate.
Qed.

(** The indexes give the last track that fits: for a CPU the URI of the
    last CPU slice track of that CPU, for a track id the URI of the last
    track that lists it, and nothing when no track fits. *)
Theorem track_indexes_keep_the_last (allTracks : list TrackDescriptor)
    (key : number) :
  trackUrisByCpu allTracks key
  = option_map uri (find (isCpuTrackOf key) (rev allTracks)) /\
  trackUrisByTrackId allTracks key
  = option_map uri (find (hasTrackId key) (rev allTracks)).
Proof.
  unfold trackUrisByCpu, trackUrisByTrackId.
  rewrite trackUrisByCpu_from, trackUrisByTrackId_from.
  split.
  - now destruct (find (isCpuTrackOf key) (rev allTracks)).
  - now destruct (find (hasTrackId key) (rev allTracks)).
Qed.

End Model.

End SearchResults.
